(** * indexeddb-promisify: a shallow embedding of [src/index.ts]

    The development follows the layout of the source file:

    - the configuration types ([StoreSchema], [Migration], [IndexedDBConfig]);
    - the storage engine at its boundary: the structure of a database (stores
      and their indexes) with the structural-change primitives the upgrade
      handler calls, each failing the way the engine does (a missing name
      raises [NotFoundError], a taken one [ConstraintError]);
    - [onupgradeneeded]: the migration pipeline and the schema synchronisation;
    - the promise bridges [iDBPromise], [iDBCursorPromise] and [transaction]
      as event-driven state machines.  An event handler of the source is
      [async]: each [await] of a lifecycle callback is a suspension point, so
      a handler is a first half run when the event is delivered and a
      continuation the scheduler resumes later;
    - [openIndexedDB]: the open request with its four handlers;
    - the instance at run time: the operations of [useStore] up to their
      bridge, [transaction] up to its [done], [clearDatabase] and
      [deleteDatabase]. *)

From Stdlib Require Import ZArith.
From stdpp Require Import base option list gmap strings sorting.

Local Open Scope Z_scope.

(** ** Values and errors *)

(** The JavaScript values a cursor transform or a request may produce. *)
Inductive value : Type :=
| VUndefined
| VNull
| VBool (b : bool)
| VNumber (z : Z)
| VNaN
| VString (s : string)
| VObject (id : nat).

(** [if (result)]: JavaScript truthiness. *)
Definition truthy (v : value) : bool :=
  match v with
  | VUndefined | VNull | VNaN => false
  | VBool b => b
  | VNumber z => negb (z =? 0)
  | VString s => negb (String.eqb s EmptyString)
  | VObject _ => true
  end.

(** The error objects that flow through the library: the engine's
    [DOMException]s ([request.error], [transaction.error], what a structural
    primitive throws), the three [new Error(...)] of the source, and whatever
    a user callback returns or throws. *)
Inductive error : Type :=
| DOMException (name : string)
| TransactionTimeout                                   (* new Error("Transaction timeout") *)
| TransactionAborted                                   (* new Error("Transaction aborted") *)
| UpgradeBlocked (db : string) (newVersion oldVersion : Z)  (* the message built in onblocked *)
| UserError (tag : string).

(** The result of running code that may throw (an [async] function whose
    promise may reject). *)
Inductive outcome (A : Type) : Type :=
| Returns (a : A)
| Throws (e : error).
Arguments Returns {A} a.
Arguments Throws {A} e.

(** ** Configuration (lines 1-150 of the source) *)

Record IDBObjectStoreParameters := {
  sp_keyPath : option string;
  sp_autoIncrement : bool }.

Record IDBIndexParameters := {
  ip_unique : bool;
  ip_multiEntry : bool }.

Record IndexSchema := {
  index_name : string;
  index_keyPath : string;
  index_options : option IDBIndexParameters }.

Record StoreSchema := {
  store_name : string;
  store_options : option IDBObjectStoreParameters;
  store_index : option (list IndexSchema) }.

(** ** The engine's view of a database: stores and their indexes *)

Record IDBIndex := {
  keyPath : string;
  index_params : option IDBIndexParameters }.

Record IDBObjectStore := {
  store_params : option IDBObjectStoreParameters;
  indexes : gmap string IDBIndex }.

Abbreviation structure := (gmap string IDBObjectStore).

(** A migration receives [{ db, transaction, oldVersion, newVersion,
    migrationVersion }]; through [db] and [transaction] it changes the
    structure, and its promise may reject (a migration that fails is taken to
    fail before it has changed anything).  Versions are integers. *)
Record Migration := {
  version : Z;
  migration : Z → Z → Z → structure → outcome structure }.

(** The connection handle [db] handed to callbacks. *)
Definition connection := nat.

(** The lifecycle callbacks.  A callback is modelled by the completion of the
    promise it returns, as a function of its arguments; it observes and does
    not itself change the structure or the configuration. *)
Record Events := {
  onBlocked : option (Z → Z → outcome (option error));
  onError : option (option error → outcome unit);
  onTransactionTimeout : option (connection → list string → option Z → outcome unit);
  onUpgradeStart : option (Z → Z → outcome unit);
  onUpgradeEnd : option (Z → Z → outcome unit);
  onVersionChange : option (Z → Z → outcome unit) }.

Record IndexedDBConfig := {
  cfg_name : string;
  cfg_version : Z;
  cfg_stores : list StoreSchema;
  cfg_migrations : option (list Migration);
  cfg_transactionTimeout : option Z;
  cfg_events : option Events }.

(** [config.events?.cb]: absent when [events] is. *)
Definition callback {T : Type} (config : IndexedDBConfig) (cb : Events → option T) : option T :=
  cfg_events config ≫= cb.

(** ** What the library does to the outside: the observable calls, in order *)

Inductive effect : Type :=
(* structural primitives issued by the library itself *)
| DeleteObjectStore (store : string)
| CreateObjectStore (store : string) (options : option IDBObjectStoreParameters)
| DeleteIndex (store index : string)
| CreateIndex (store index keyPath : string) (options : option IDBIndexParameters)
(* user code *)
| CallMigration (oldVersion newVersion migrationVersion : Z)
| CallOnBlocked (oldVersion newVersion : Z)
| CallOnError (e : option error)
| CallOnTransactionTimeout (db : connection) (storeNames : list string) (timeout : option Z)
| CallOnUpgradeStart (oldVersion newVersion : Z)
| CallOnUpgradeEnd (oldVersion newVersion : Z)
| CallOnVersionChange (oldVersion newVersion : Z)
(* engine and promise calls *)
| CallOpen (name : string) (version : Z)
| CallAbort
| CallContinue
| CallClose
| CallResolve
| CallReject (e : error).

Definition is_structural (eff : effect) : bool :=
  match eff with
  | DeleteObjectStore _ | CreateObjectStore _ _ | DeleteIndex _ _ | CreateIndex _ _ _ _ => true
  | _ => false
  end.

Definition is_callback (eff : effect) : bool :=
  match eff with
  | CallOnBlocked _ _ | CallOnError _ | CallOnTransactionTimeout _ _ _
  | CallOnUpgradeStart _ _ | CallOnUpgradeEnd _ _ | CallOnVersionChange _ _ => true
  | _ => false
  end.

(** ** The upgrade monad: structure and log threaded through code that may throw *)

Record world := {
  w_db : structure;
  w_log : list effect }.

Definition Upgrade (A : Type) : Type := world → outcome A * world.

Definition ret {A} (a : A) : Upgrade A := λ w, (Returns a, w).

Definition bind {A B} (c : Upgrade A) (k : A → Upgrade B) : Upgrade B :=
  λ w, match c w with
       | (Returns a, w') => k a w'
       | (Throws e, w') => (Throws e, w')
       end.

Notation "x <- c ;; k" := (bind c (λ x, k))
  (at level 100, c at next level, right associativity).
Notation "c ;;; k" := (bind c (λ _, k))
  (at level 100, right associativity).

Definition throw {A} (e : error) : Upgrade A := λ w, (Throws e, w).
Definition emit (eff : effect) : Upgrade unit :=
  λ w, (Returns tt, {| w_db := w_db w; w_log := w_log w ++ [eff] |}).
Definition get_db : Upgrade structure := λ w, (Returns (w_db w), w).
Definition put_db (d : structure) : Upgrade unit :=
  λ w, (Returns tt, {| w_db := d; w_log := w_log w |}).
Definition when (b : bool) (c : Upgrade unit) : Upgrade unit := if b then c else ret tt.

(** [for (const x of l) { body }] *)
Fixpoint for_each {A} (l : list A) (body : A → Upgrade unit) : Upgrade unit :=
  match l with
  | [] => ret tt
  | x :: l' => body x ;;; for_each l' body
  end.

(** ** The engine's structural primitives (upgrade transaction) *)

(** The primitives go by names: a missing name raises [NotFoundError], a
    taken one [ConstraintError].  Options and key paths are opaque to the
    library; they are passed through and taken to be ones the engine accepts. *)

(** A [DOMStringList] is a sorted snapshot, taken when the property is read.
    The engine sorts by UTF-16 code unit, [String.leb] by byte; the two orders
    differ only between a character outside the Basic Multilingual Plane and
    one from U+E000 on, and they decide nothing but the order in which stale
    stores and indexes are deleted. *)
Definition sorted_names {V} (m : gmap string V) : list string :=
  merge_sort (λ a b, Is_true (String.leb a b)) (elements (dom m)).

Definition objectStoreNames : Upgrade (list string) :=
  d <- get_db ;; ret (sorted_names d).

Definition objectStoreNames_contains (name : string) : Upgrade bool :=
  d <- get_db ;; ret (bool_decide (is_Some (d !! name))).

Definition deleteObjectStore (name : string) : Upgrade unit :=
  d <- get_db ;;
  match d !! name with
  | None => throw (DOMException "NotFoundError")
  | Some _ => emit (DeleteObjectStore name) ;;; put_db (delete name d)
  end.

Definition createObjectStore (name : string) (options : option IDBObjectStoreParameters) : Upgrade unit :=
  d <- get_db ;;
  match d !! name with
  | Some _ => throw (DOMException "ConstraintError")
  | None => emit (CreateObjectStore name options) ;;;
            put_db (<[name := {| store_params := options; indexes := ∅ |}]> d)
  end.

(** [request.transaction!.objectStore(name)]: the handle is the store's name,
    valid as long as the store exists. *)
Definition objectStore (name : string) : Upgrade string :=
  d <- get_db ;;
  match d !! name with
  | None => throw (DOMException "NotFoundError")
  | Some _ => ret name
  end.

Definition indexNames (store : string) : Upgrade (list string) :=
  d <- get_db ;;
  match d !! store with
  | None => throw (DOMException "InvalidStateError")
  | Some st => ret (sorted_names (indexes st))
  end.

Definition indexNames_contains (store name : string) : Upgrade bool :=
  d <- get_db ;;
  match d !! store with
  | None => throw (DOMException "InvalidStateError")
  | Some st => ret (bool_decide (is_Some (indexes st !! name)))
  end.

Definition deleteIndex (store name : string) : Upgrade unit :=
  d <- get_db ;;
  match d !! store with
  | None => throw (DOMException "InvalidStateError")
  | Some st =>
      match indexes st !! name with
      | None => throw (DOMException "NotFoundError")
      | Some _ =>
          emit (DeleteIndex store name) ;;;
          put_db (<[store := {| store_params := store_params st;
                                indexes := delete name (indexes st) |}]> d)
      end
  end.

Definition createIndex (store name kp : string) (options : option IDBIndexParameters) : Upgrade unit :=
  d <- get_db ;;
  match d !! store with
  | None => throw (DOMException "InvalidStateError")
  | Some st =>
      match indexes st !! name with
      | Some _ => throw (DOMException "ConstraintError")
      | None =>
          emit (CreateIndex store name kp options) ;;;
          put_db (<[store := {| store_params := store_params st;
                                indexes := <[name := {| keyPath := kp; index_params := options |}]>
                                             (indexes st) |}]> d)
      end
  end.

(** ** Schema synchronisation (lines 241-265) *)

(** [config.stores.every(store => store.name !== storeName)] *)
Definition not_configured (stores : list StoreSchema) (storeName : string) : bool :=
  forallb (λ store, negb (String.eqb (store_name store) storeName)) stores.

(** [store?.index?.some(index => index.name == currentIndex)]; [undefined]
    (no [index] array) is falsy. *)
Definition index_configured (store : StoreSchema) (currentIndex : string) : bool :=
  match store_index store with
  | None => false
  | Some l => existsb (λ index, String.eqb (index_name index) currentIndex) l
  end.

(** [store?.index?.forEach(...)] runs over nothing when [index] is absent. *)
Definition configured_indexes (store : StoreSchema) : list IndexSchema :=
  default [] (store_index store).

Definition sync_store (store : StoreSchema) : Upgrade unit :=
  present <- objectStoreNames_contains (store_name store) ;;
  when (negb present) (createObjectStore (store_name store) (store_options store)) ;;;
  currentStore <- objectStore (store_name store) ;;
  names <- indexNames currentStore ;;
  for_each names (λ currentIndex,
    when (negb (index_configured store currentIndex))
         (deleteIndex currentStore currentIndex)) ;;;
  for_each (configured_indexes store) (λ index,
    present <- indexNames_contains currentStore (index_name index) ;;
    when (negb present)
         (createIndex currentStore (index_name index) (index_keyPath index) (index_options index))).

Definition synchronize (stores : list StoreSchema) : Upgrade unit :=
  names <- objectStoreNames ;;
  for_each names (λ storeName,
    when (not_configured stores storeName) (deleteObjectStore storeName)) ;;;
  for_each stores sync_store.

(** ** The migration pipeline (lines 231-239) *)

(** [Array.prototype.sort(compare)]: the sort is stable, and for a comparator
    that is a total preorder the stable sorted arrangement is unique; it is
    computed here by insertion. *)
Fixpoint insert_by {A} (compare : A → A → Z) (x : A) (l : list A) : list A :=
  match l with
  | [] => [x]
  | y :: l' => if 0 <? compare x y then y :: insert_by compare x l' else x :: l
  end.

Definition array_sort {A} (compare : A → A → Z) (l : list A) : list A :=
  foldr (insert_by compare) [] l.

(** [(a, b) => a.version - b.version] *)
Definition by_version (a b : Migration) : Z := version a - version b.

(** [migration.version > oldVersion && migration.version <= newVersion] *)
Definition applies (oldVersion newVersion : Z) (m : Migration) : bool :=
  (oldVersion <? version m) && (version m <=? newVersion).

(** [await migration.migration({ db, transaction, oldVersion, newVersion,
    migrationVersion: migration.version })] *)
Definition run_migration (oldVersion newVersion : Z) (m : Migration) : Upgrade unit :=
  emit (CallMigration oldVersion newVersion (version m)) ;;;
  d <- get_db ;;
  match migration m oldVersion newVersion (version m) d with
  | Returns d' => put_db d'
  | Throws e => throw e
  end.

Definition run_migrations (oldVersion newVersion : Z) (migrations : list Migration) : Upgrade unit :=
  for_each migrations (λ m,
    when (applies oldVersion newVersion m) (run_migration oldVersion newVersion m)).

(** ** [indexedDBRequest.onupgradeneeded] (lines 223-269) *)

Record IDBVersionChangeEvent := {
  ev_oldVersion : Z;
  ev_newVersion : option Z }.

(** [await config.events?.cb?.(args)] inside the upgrade handler. *)
Definition await_callback (call : option (effect * outcome unit)) : Upgrade unit :=
  match call with
  | None => ret tt
  | Some (eff, Returns _) => emit eff
  | Some (eff, Throws e) => emit eff ;;; throw e
  end.

Definition set_migrations (config : IndexedDBConfig) (ms : option (list Migration)) : IndexedDBConfig :=
  {| cfg_name := cfg_name config; cfg_version := cfg_version config;
     cfg_stores := cfg_stores config; cfg_migrations := ms;
     cfg_transactionTimeout := cfg_transactionTimeout config;
     cfg_events := cfg_events config |}.

(** [await config.events?.onUpgradeStart?.({ db, oldVersion, newVersion })] *)
Definition upgrade_start (config : IndexedDBConfig) (oldVersion newVersion : Z) : Upgrade unit :=
  await_callback ((λ cb, (CallOnUpgradeStart oldVersion newVersion, cb oldVersion newVersion))
                    <$> callback config onUpgradeStart).

(** [await config.events?.onUpgradeEnd?.({ db, oldVersion, newVersion })] *)
Definition upgrade_end (config : IndexedDBConfig) (oldVersion newVersion : Z) : Upgrade unit :=
  await_callback ((λ cb, (CallOnUpgradeEnd oldVersion newVersion, cb oldVersion newVersion))
                    <$> callback config onUpgradeEnd).

(** The handler returns the configuration object as it leaves it: the sort of
    line 233 is in place.  [Array.isArray(config.migrations)] holds of every
    array, the empty one too. *)
Definition onupgradeneeded (config : IndexedDBConfig) (event : IDBVersionChangeEvent)
    (w : world) : IndexedDBConfig * (outcome unit * world) :=
  let oldVersion := ev_oldVersion event in
  let newVersion := default (cfg_version config) (ev_newVersion event) in
  match upgrade_start config oldVersion newVersion w with
  | (Throws e, w1) => (config, (Throws e, w1))
  | (Returns _, w1) =>
      match cfg_migrations config with
      | Some ms =>
          let migrations := array_sort by_version ms in
          (set_migrations config (Some migrations),
           (run_migrations oldVersion newVersion migrations ;;;
            upgrade_end config oldVersion newVersion) w1)
      | None =>
          (config, (synchronize (cfg_stores config) ;;;
                    upgrade_end config oldVersion newVersion) w1)
      end
  end.

(** ** Promises and suspended handlers *)

Inductive promise (A : Type) : Type :=
| Pending
| Fulfilled (a : A)
| Rejected (e : error).
Arguments Pending {A}.
Arguments Fulfilled {A} a.
Arguments Rejected {A} e.

(** The state one [new Promise(async (resolve, reject) => ...)] of the source
    leaves behind: the promise itself, the handlers suspended at an [await]
    (each identified by what it still has to do), and the calls made so far. *)
Record cell (K A : Type) : Type := {
  settled : promise A;
  waiting : list K;
  log : list effect }.
Arguments settled {K A} c.
Arguments waiting {K A} c.
Arguments log {K A} c.

Definition new_cell {K A} : cell K A :=
  {| settled := Pending; waiting := []; log := [] |}.

(** [resolve] and [reject] of a native promise: the first call settles it,
    every later call is ignored. *)
Definition settle {A} (p new : promise A) : promise A :=
  match p with Pending => new | _ => p end.

Definition note {K A} (eff : effect) (c : cell K A) : cell K A :=
  {| settled := settled c; waiting := waiting c; log := log c ++ [eff] |}.

Definition resolve {K A} (a : A) (c : cell K A) : cell K A :=
  {| settled := settle (settled c) (Fulfilled a); waiting := waiting c;
     log := log c ++ [CallResolve] |}.

Definition reject {K A} (e : error) (c : cell K A) : cell K A :=
  {| settled := settle (settled c) (Rejected e); waiting := waiting c;
     log := log c ++ [CallReject e] |}.

Definition suspend {K A} (k : K) (c : cell K A) : cell K A :=
  {| settled := settled c; waiting := waiting c ++ [k]; log := log c |}.

Definition unsuspend {K A} (i : nat) (c : cell K A) : cell K A :=
  {| settled := settled c; waiting := delete i (waiting c); log := log c |}.

(** [await config.events?.cb?.(args); rest].  Without a callback the handler
    goes on in the same turn: [await undefined] yields to a microtask, which
    runs before the next event, and [rest] is run at once where it reads
    nothing the engine changes in between.  A callback is called at once and
    the handler is suspended on its promise: [rest] runs when the scheduler
    resumes it, which may be after other events; if the callback's promise
    rejects, [rest] never runs. *)
Definition await {K A} (call : option (effect * outcome unit)) (k : K)
    (rest : cell K A → cell K A) (c : cell K A) : cell K A :=
  match call with
  | None => rest c
  | Some (eff, Returns _) => suspend k (note eff c)
  | Some (eff, Throws _) => note eff c
  end.

(** The same [await], for a continuation that reads what the engine may
    still change before it runs: [await undefined] yields too, so the handler
    is suspended whether or not there is a callback. *)
Definition await_yielding {K A} (call : option (effect * outcome unit)) (k : K)
    (c : cell K A) : cell K A :=
  match call with
  | None => suspend k c
  | Some (eff, Returns _) => suspend k (note eff c)
  | Some (eff, Throws _) => note eff c
  end.

(** [await config.events?.onError?.(error)] *)
Definition call_onError (config : IndexedDBConfig) (e : option error) : option (effect * outcome unit) :=
  (λ cb, (CallOnError e, cb e)) <$> callback config onError.

(** [await config.events?.onTransactionTimeout?.({ db, storeNames, timeout:
    config.transactionTimeout! })] *)
Definition call_onTransactionTimeout (config : IndexedDBConfig) (db : connection)
    (storeNames : list string) : option (effect * outcome unit) :=
  (λ cb, (CallOnTransactionTimeout db storeNames (cfg_transactionTimeout config),
          cb db storeNames (cfg_transactionTimeout config)))
    <$> callback config onTransactionTimeout.

(** [setTimeout] / [clearTimeout]: a timer fires at most once, and not at all
    once cleared. *)
Inductive timer_state : Type := Armed | Cleared | Fired.

Definition clearTimeout (t : timer_state) : timer_state :=
  match t with Armed => Cleared | _ => t end.

(** ** [iDBPromise] (lines 284-307): one request raced against the timer *)

Module OperationAdapter.

(** What is left of a handler suspended at its [await]. *)
Inductive continuation : Type :=
| KReject (e : error).            (* reject(e) *)

Record state := {
  finished : bool;
  timer : timer_state;
  request_done : bool;            (* the engine has fired the request's one event *)
  race : cell continuation value }.

Inductive event : Type :=
| TimerFires
| RequestSuccess (result : value)
| RequestError (name : string)
| Resume (i : nat).

Section iDBPromise.
Variable config : IndexedDBConfig.
Variable db : connection.
Variable storeName : string.

Definition iDBPromise : state :=
  {| finished := false; timer := Armed; request_done := false; race := new_cell |}.

Definition resume (k : continuation) (c : cell continuation value) : cell continuation value :=
  match k with
  | KReject e => reject e c
  end.

(** The [setTimeout] callback. *)
Definition ontimeout (s : state) : state :=
  if finished s then s
  else {| finished := finished s; timer := timer s; request_done := request_done s;
          race := await (call_onTransactionTimeout config db [storeName])
                        (KReject TransactionTimeout) (reject TransactionTimeout) (race s) |}.

Definition onsuccess (result : value) (s : state) : state :=
  {| finished := true; timer := clearTimeout (timer s); request_done := request_done s;
     race := resolve result (race s) |}.

Definition onerror (e : error) (s : state) : state :=
  {| finished := finished s; timer := clearTimeout (timer s); request_done := request_done s;
     race := await (call_onError config (Some e)) (KReject e) (reject e) (race s) |}.

Definition deliver (s : state) : state :=
  {| finished := finished s; timer := timer s; request_done := true; race := race s |}.

Definition fire (s : state) : state :=
  {| finished := finished s; timer := Fired; request_done := request_done s; race := race s |}.

(** One turn of the event loop; [None] when the event cannot occur: the timer
    fires only while armed, the request fires one event, success or error, and
    a handler is resumed only if it is suspended. *)
Definition step (s : state) (ev : event) : option state :=
  match ev with
  | TimerFires =>
      match timer s with Armed => Some (ontimeout (fire s)) | _ => None end
  | RequestSuccess result =>
      if request_done s then None else Some (onsuccess result (deliver s))
  | RequestError name =>
      if request_done s then None else Some (onerror (DOMException name) (deliver s))
  | Resume i =>
      k ← waiting (race s) !! i;
      Some {| finished := finished s; timer := timer s; request_done := request_done s;
              race := resume k (unsuspend i (race s)) |}
  end.

Fixpoint run (s : state) (schedule : list event) : option state :=
  match schedule with
  | [] => Some s
  | ev :: rest => s' ← step s ev; run s' rest
  end.

End iDBPromise.
End OperationAdapter.

(** ** [iDBCursorPromise] (lines 309-335): a cursor walked to exhaustion *)

Module CursorAdapter.

Inductive continuation : Type :=
| KReject (e : error).

Section iDBCursorPromise.
Variable config : IndexedDBConfig.
Variable Cursor : Type.
(** The caller's per-step transform, taken to return. *)
Variable callback_fn : Cursor → value.

Record state := {
  data : list value;
  expecting : bool;      (* the request will fire again: opened, or [continue()] was called *)
  race : cell continuation (list value) }.

(** The request's events: [success] with the cursor or [null], or [error]. *)
Inductive event : Type :=
| RequestSuccess (cursor : option Cursor)
| RequestError (name : string)
| Resume (i : nat).

Definition iDBCursorPromise : state :=
  {| data := []; expecting := true; race := new_cell |}.

Definition resume (k : continuation) (c : cell continuation (list value))
    : cell continuation (list value) :=
  match k with
  | KReject e => reject e c
  end.

Definition onsuccess (cursor : option Cursor) (s : state) : state :=
  match cursor with
  | None =>
      {| data := data s; expecting := false; race := resolve (data s) (race s) |}
  | Some c =>
      let result := callback_fn c in
      {| data := if truthy result then data s ++ [result] else data s;
         expecting := true;
         race := note CallContinue (race s) |}
  end.

Definition onerror (e : error) (s : state) : state :=
  {| data := data s; expecting := false;
     race := await (call_onError config (Some e)) (KReject e) (reject e) (race s) |}.

Definition step (s : state) (ev : event) : option state :=
  match ev with
  | RequestSuccess cursor => if expecting s then Some (onsuccess cursor s) else None
  | RequestError name => if expecting s then Some (onerror (DOMException name) s) else None
  | Resume i =>
      k ← waiting (race s) !! i;
      Some {| data := data s; expecting := expecting s;
              race := resume k (unsuspend i (race s)) |}
  end.

Fixpoint run (s : state) (schedule : list event) : option state :=
  match schedule with
  | [] => Some s
  | ev :: rest => s' ← step s ev; run s' rest
  end.

(** The cursors a schedule has delivered, in order. *)
Definition visited (schedule : list event) : list Cursor :=
  omap (λ ev, match ev with RequestSuccess (Some c) => Some c | _ => None end) schedule.

End iDBCursorPromise.
End CursorAdapter.

(** ** [transaction] (lines 429-477): one shared transaction and its [done] *)

Module TransactionCoordinator.

Inductive continuation : Type :=
| KReject (e : error)             (* reject(e) *)
| KRejectTransactionError.        (* reject(transaction.error ?? new Error("Transaction aborted")) *)

(** The engine's side of the transaction.  A transaction is active until
    every request placed on it has been answered; the engine then commits it
    ([Committing]) and fires [complete] when the commit is done.  After
    [abort()] it is [Aborting] until the abort event is fired. *)
Inductive transaction_state : Type := Active | Committing | Aborting | Finished.

Record state := {
  finished : bool;
  timer : timer_state;
  tx : transaction_state;
  tx_error : option error;        (* transaction.error *)
  done : cell continuation unit }.

(** The engine beginning to commit (no handler of the library runs, but
    [abort()] is refused from then on), [complete], [error] (a request's error
    bubbling up, any number of times before the transaction ends) and [abort]
    (with the [transaction.error] the engine sets, [null] after a plain
    [abort()]). *)
Inductive event : Type :=
| TimerFires
| CommitBegins
| Complete
| ErrorEvent
| AbortEvent (name : option string)
| Resume (i : nat).

Section transaction.
Variable config : IndexedDBConfig.
Variable db : connection.
Variable storeNames : list string.

Definition transaction : state :=
  {| finished := false; timer := Armed; tx := Active; tx_error := None; done := new_cell |}.

Definition reject_transaction_error (s : state) : cell continuation unit → cell continuation unit :=
  reject (default TransactionAborted (tx_error s)).

Definition resume (s : state) (k : continuation) : cell continuation unit → cell continuation unit :=
  match k with
  | KReject e => reject e
  | KRejectTransactionError => reject_transaction_error s
  end.

(** The [setTimeout] callback.  [transaction.abort()] throws
    [InvalidStateError] unless the transaction is still active: on a
    transaction that is committing, aborting or finished the rest of the
    callback is skipped, and nobody listens to the promise of the [async]
    callback. *)
Definition ontimeout (s : state) : state :=
  if finished s then s
  else match tx s with
       | Active =>
           {| finished := finished s; timer := timer s; tx := Aborting; tx_error := tx_error s;
              done := await (call_onTransactionTimeout config db storeNames)
                            (KReject TransactionTimeout) (reject TransactionTimeout)
                            (note CallAbort (done s)) |}
       | _ => s
       end.

Definition oncomplete (s : state) : state :=
  {| finished := true; timer := clearTimeout (timer s); tx := tx s; tx_error := tx_error s;
     done := resolve tt (done s) |}.

(** [transaction.onerror].  The error callback gets [transaction.error] as it
    is when the event is handled; the [reject] after the [await] reads it
    again.  While a request's error bubbles the engine has not set it yet, and
    sets it when it aborts the transaction for that error: what the
    continuation reads depends on when it runs, so it is suspended even when
    there is no callback to wait for. *)
Definition onerror (s : state) : state :=
  {| finished := true; timer := clearTimeout (timer s); tx := tx s; tx_error := tx_error s;
     done := await_yielding (call_onError config (tx_error s)) KRejectTransactionError (done s) |}.

(** [transaction.onabort] has the same body.  When the abort event is
    fired [transaction.error] has its final value, so that its continuation
    reads the same whenever it runs. *)
Definition onabort (s : state) : state :=
  {| finished := true; timer := clearTimeout (timer s); tx := tx s; tx_error := tx_error s;
     done := await (call_onError config (tx_error s)) KRejectTransactionError
                   (reject_transaction_error s) (done s) |}.

Definition with_tx (t : transaction_state) (e : option error) (s : state) : state :=
  {| finished := finished s; timer := timer s; tx := t; tx_error := e; done := done s |}.

Definition fire (s : state) : state :=
  {| finished := finished s; timer := Fired; tx := tx s; tx_error := tx_error s; done := done s |}.

(** One turn of the event loop; [None] when the event cannot occur.  The
    commit begins on an active transaction, and [complete] ends it (a commit
    that begins and ends between two turns of the library shows as [complete]
    on an active transaction).  Requests are answered, and their errors bubble,
    before the commit begins.  A transaction is aborted, by the engine or on
    request, at any time before it has ended. *)
Definition step (s : state) (ev : event) : option state :=
  match ev with
  | TimerFires =>
      match timer s with Armed => Some (ontimeout (fire s)) | _ => None end
  | CommitBegins =>
      match tx s with Active => Some (with_tx Committing (tx_error s) s) | _ => None end
  | Complete =>
      match tx s with
      | Active | Committing => Some (oncomplete (with_tx Finished (tx_error s) s))
      | _ => None
      end
  | ErrorEvent =>
      match tx s with Active | Aborting => Some (onerror s) | _ => None end
  | AbortEvent name =>
      match tx s with
      | Finished => None
      | _ => Some (onabort (with_tx Finished (DOMException <$> name) s))
      end
  | Resume i =>
      k ← waiting (done s) !! i;
      Some {| finished := finished s; timer := timer s; tx := tx s; tx_error := tx_error s;
              done := resume s k (unsuspend i (done s)) |}
  end.

Fixpoint run (s : state) (schedule : list event) : option state :=
  match schedule with
  | [] => Some s
  | ev :: rest => s' ← step s ev; run s' rest
  end.

End transaction.
End TransactionCoordinator.

(** ** [openIndexedDB] (lines 196-282): the open request and its handlers *)

Module Lifecycle.

Inductive continuation : Type :=
| KReject (e : error)             (* reject(e) *)
| KErrorThenReject (e : error)    (* await config.events?.onError?.(e); reject(e) *)
| KClose.                         (* db.close() *)

Record state := {
  config : IndexedDBConfig;       (* the caller's object, as mutated so far *)
  db : structure;
  request_done : bool;            (* the open request has fired success or error *)
  opened : bool;                  (* db.onversionchange is installed *)
  open : cell continuation connection }.

(** The signals of the open request, and [versionchange] on the connection.
    The request ends with [success] or [error]; [blocked] and [upgradeneeded]
    come before, and a blocked request goes on once the other connections
    have closed. *)
Inductive event : Type :=
| RequestError (name : string)
| Blocked (oldVersion : Z) (newVersion : option Z)
| UpgradeNeeded (oldVersion : Z) (newVersion : option Z)
| RequestSuccess
| VersionChange (oldVersion : Z) (newVersion : option Z)
| Resume (i : nat).

Definition set_transactionTimeout (c : IndexedDBConfig) (t : option Z) : IndexedDBConfig :=
  {| cfg_name := cfg_name c; cfg_version := cfg_version c; cfg_stores := cfg_stores c;
     cfg_migrations := cfg_migrations c; cfg_transactionTimeout := t;
     cfg_events := cfg_events c |}.

Section openIndexedDB.
(** The connection the engine hands out on success. *)
Variable conn : connection.

(** Line 197, then [indexedDB.open(config.name, config.version)]; [stored] is
    the structure the engine holds for that name. *)
Definition openIndexedDB (c : IndexedDBConfig) (stored : structure) : state :=
  {| config := set_transactionTimeout c (Some (default 5000 (cfg_transactionTimeout c)));
     db := stored; request_done := false; opened := false;
     open := note (CallOpen (cfg_name c) (cfg_version c)) new_cell |}.

Definition with_open (s : state) (c : cell continuation connection) : state :=
  {| config := config s; db := db s; request_done := request_done s; opened := opened s;
     open := c |}.

Definition error_then_reject (s : state) (e : error)
    : cell continuation connection → cell continuation connection :=
  await (call_onError (config s) (Some e)) (KReject e) (reject e).

Definition resume (s : state) (k : continuation)
    : cell continuation connection → cell continuation connection :=
  match k with
  | KReject e => reject e
  | KErrorThenReject e => error_then_reject s e
  | KClose => note CallClose
  end.

Definition onerror (e : error) (s : state) : state :=
  with_open s (error_then_reject s e (open s)).

Definition onblocked (oldVersion : Z) (new : option Z) (s : state) : state :=
  let newVersion := default (cfg_version (config s)) new in
  let error := UpgradeBlocked (cfg_name (config s)) newVersion oldVersion in
  match callback (config s) onBlocked with
  | None => with_open s (error_then_reject s error (open s))
  | Some cb =>
      let c := note (CallOnBlocked oldVersion newVersion) (open s) in
      match cb oldVersion newVersion with
      | Returns r => with_open s (suspend (KErrorThenReject (default error r)) c)
      | Throws _ => with_open s c
      end
  end.

(** The upgrade handler, run to its end in the turn of the event.  The
    engine keeps the upgrade transaction alive while the handler runs and
    through the microtasks that follow: this is the handler when the promises
    it awaits (the two upgrade callbacks, the migrations) are settled by then.
    A callback or a migration that waits for a later task resumes the handler
    after the upgrade transaction has ended, when the engine refuses every
    structural call; those runs are not described here, and what is proved of
    this handler either does not depend on when its awaits complete or is
    stated for configurations in which nothing is awaited before the work is
    done.  The handler is [async]: if it throws, its promise rejects and nobody
    listens; what it has done to the structure, the log and the configuration
    stays. *)
Definition onupgradeneeded_handler (oldVersion : Z) (new : option Z) (s : state) : state :=
  let '(config', (_, w)) :=
    onupgradeneeded (config s) {| ev_oldVersion := oldVersion; ev_newVersion := new |}
                    {| w_db := db s; w_log := log (open s) |} in
  {| config := config'; db := w_db w; request_done := request_done s; opened := opened s;
     open := {| settled := settled (open s); waiting := waiting (open s); log := w_log w |} |}.

Definition onsuccess (s : state) : state :=
  {| config := config s; db := db s; request_done := request_done s; opened := true;
     open := resolve conn (open s) |}.

Definition onversionchange (oldVersion : Z) (new : option Z) (s : state) : state :=
  let newVersion := default (cfg_version (config s)) new in
  with_open s
    (await ((λ cb, (CallOnVersionChange oldVersion newVersion, cb oldVersion newVersion))
              <$> callback (config s) onVersionChange)
           KClose (note CallClose) (open s)).

Definition deliver (s : state) : state :=
  {| config := config s; db := db s; request_done := true; opened := opened s; open := open s |}.

Definition step (s : state) (ev : event) : option state :=
  match ev with
  | RequestError name =>
      if request_done s then None else Some (onerror (DOMException name) (deliver s))
  | Blocked oldVersion newVersion =>
      if request_done s then None else Some (onblocked oldVersion newVersion s)
  | UpgradeNeeded oldVersion newVersion =>
      if request_done s then None else Some (onupgradeneeded_handler oldVersion newVersion s)
  | RequestSuccess =>
      if request_done s then None else Some (onsuccess (deliver s))
  | VersionChange oldVersion newVersion =>
      if opened s then Some (onversionchange oldVersion newVersion s) else None
  | Resume i =>
      k ← waiting (open s) !! i;
      Some (with_open s (resume s k (unsuspend i (open s))))
  end.

Fixpoint run (s : state) (schedule : list event) : option state :=
  match schedule with
  | [] => Some s
  | ev :: rest => s' ← step s ev; run s' rest
  end.

End openIndexedDB.
End Lifecycle.

(** ** [useStore] (lines 283-427): which bridge each operation goes through *)

Inductive IDBTransactionMode : Type := readonly | readwrite.

Inductive bridge : Type := ViaIDBPromise | ViaIDBCursorPromise.

Inductive store_operation : Type :=
| OpAdd | OpPut | OpGet | OpGetAll | OpGetKey | OpGetAllKeys
| OpOpenCursor | OpOpenKeyCursor | OpCount | OpClear | OpDelete.

(** Each operation opens its own [db.transaction(storeName, mode)], the
    engine's plain transaction, and hands its request to one of the bridges. *)
Definition useStore (op : store_operation) : IDBTransactionMode * bridge :=
  match op with
  | OpAdd | OpPut | OpCount | OpClear | OpDelete => (readwrite, ViaIDBPromise)
  | OpGet | OpGetAll | OpGetKey | OpGetAllKeys => (readonly, ViaIDBPromise)
  | OpOpenCursor | OpOpenKeyCursor => (readonly, ViaIDBCursorPromise)
  end.

(** ** The connection at run time *)

(** [db.transaction(storeNames, mode)]: the engine refuses a connection that
    has been closed, then a name that is no store of the database, then an
    empty scope. *)
Definition db_transaction (closed : bool) (stored : structure) (storeNames : list string)
    : outcome unit :=
  if closed then Throws (DOMException "InvalidStateError")
  else if forallb (λ name, bool_decide (is_Some (stored !! name))) storeNames
  then match storeNames with
       | [] => Throws (DOMException "InvalidAccessError")
       | _ => Returns tt
       end
  else Throws (DOMException "NotFoundError").

(** ** The operations of [useStore], up to their bridge (lines 336-411) *)

(** An operation bridged by [iDBPromise] is an [async] function: what the
    engine throws while the transaction is opened rejects the promise the
    operation returns, and no bridge is set up.  The request itself is taken
    to be one the engine accepts. *)
Definition start_operation (closed : bool) (stored : structure) (storeName : string)
    : outcome OperationAdapter.state :=
  match db_transaction closed stored [storeName] with
  | Throws e => Throws e
  | Returns _ => Returns OperationAdapter.iDBPromise
  end.

(** ** [clearDatabase] (lines 480-485): one [clear()] after the other *)

Module DatabaseClearing.

(** The loop awaits one [clear()] at a time.  Each [clear()] is an operation
    of [useStore] (lines 402-406), started as [start_operation] says.  The
    operations issued stay alive after the loop has moved on: the engine may
    still deliver their late events. *)
Record state := {
  remaining : list StoreSchema;                       (* the stores the loop has not reached *)
  issued : list (string * OperationAdapter.state);    (* the requests issued, oldest first *)
  cleared : promise unit }.                           (* the promise [clearDatabase] returned *)

(** An event of the [i]-th operation issued. *)
Inductive event : Type :=
| Operation (i : nat) (ev : OperationAdapter.event).

Section clearDatabase.
Variable config : IndexedDBConfig.
Variable db : connection.
(** The connection as the engine sees it while the loop runs. *)
Variable closed : bool.
Variable stored : structure.

(** One iteration, up to its [await]: past the last store the function
    returns; a transaction the engine refuses makes [clear()] reject, and the
    [await] throws. *)
Definition next (stores : list StoreSchema) (ops : list (string * OperationAdapter.state))
    : state :=
  match stores with
  | [] => {| remaining := []; issued := ops; cleared := Fulfilled tt |}
  | store :: rest =>
      match start_operation closed stored (store_name store) with
      | Throws e => {| remaining := rest; issued := ops; cleared := Rejected e |}
      | Returns op =>
          {| remaining := rest; issued := ops ++ [(store_name store, op)]; cleared := Pending |}
      end
  end.

Definition clearDatabase : state := next (cfg_stores config) [].

(** The loop is suspended on the promise of the last operation issued, and
    goes on as soon as that promise settles. *)
Definition wake (s : state) : state :=
  match cleared s, last (issued s) with
  | Pending, Some (_, op) =>
      match settled (OperationAdapter.race op) with
      | Pending => s
      | Fulfilled _ => next (remaining s) (issued s)
      | Rejected e => {| remaining := remaining s; issued := issued s; cleared := Rejected e |}
      end
  | _, _ => s
  end.

Definition step (s : state) (ev : event) : option state :=
  match ev with
  | Operation i ev =>
      '(name, op) ← issued s !! i;
      op' ← OperationAdapter.step config db name op ev;
      Some (wake {| remaining := remaining s;
                    issued := <[i := (name, op')]> (issued s);
                    cleared := cleared s |})
  end.

Fixpoint run (s : state) (schedule : list event) : option state :=
  match schedule with
  | [] => Some s
  | ev :: rest => s' ← step s ev; run s' rest
  end.

End clearDatabase.
End DatabaseClearing.

(** ** [deleteDatabase] (lines 487-499) *)

Module DatabaseDeletion.

Inductive continuation : Type :=
| KReject (e : error).

Record state := {
  target : string;                (* the name passed to [indexedDB.deleteDatabase] *)
  request_done : bool;            (* the delete request has fired success or error *)
  deleted : cell continuation unit }.

(** The signals of the delete request: [success], [error], and [blocked]
    while other connections keep the database open. *)
Inductive event : Type :=
| RequestSuccess
| RequestError (name : string)
| Blocked
| Resume (i : nat).

Section deleteDatabase.
Variable config : IndexedDBConfig.

(** [db.close()], then [indexedDB.deleteDatabase(config.name)]. *)
Definition deleteDatabase : state :=
  {| target := cfg_name config; request_done := false; deleted := note CallClose new_cell |}.

Definition resume (k : continuation) (c : cell continuation unit) : cell continuation unit :=
  match k with
  | KReject e => reject e c
  end.

Definition onsuccess (s : state) : state :=
  {| target := target s; request_done := request_done s; deleted := resolve tt (deleted s) |}.

Definition onerror (e : error) (s : state) : state :=
  {| target := target s; request_done := request_done s;
     deleted := await (call_onError config (Some e)) (KReject e) (reject e) (deleted s) |}.

Definition deliver (s : state) : state :=
  {| target := target s; request_done := true; deleted := deleted s |}.

(** No handler is installed for [blocked]: the signal changes nothing. *)
Definition step (s : state) (ev : event) : option state :=
  match ev with
  | RequestSuccess => if request_done s then None else Some (onsuccess (deliver s))
  | RequestError name =>
      if request_done s then None else Some (onerror (DOMException name) (deliver s))
  | Blocked => if request_done s then None else Some s
  | Resume i =>
      k ← waiting (deleted s) !! i;
      Some {| target := target s; request_done := request_done s;
              deleted := resume k (unsuspend i (deleted s)) |}
  end.

Fixpoint run (s : state) (schedule : list event) : option state :=
  match schedule with
  | [] => Some s
  | ev :: rest => s' ← step s ev; run s' rest
  end.

End deleteDatabase.
End DatabaseDeletion.

(** ** Cursors, up to their bridge (lines 372-394) *)

Record CursorOptions := {
  co_query : option value;
  co_direction : option string;
  co_index : option string }.

(** [{}] *)
Definition no_options : CursorOptions :=
  {| co_query := None; co_direction := None; co_index := None |}.

(** [openCursor(callback)] and [openCursor(options, callback)] (lines
    375-376): a function in first place is the callback, and the options are
    empty. *)
Definition cursor_arguments {F : Type} (arg1 : F + CursorOptions) (arg2 : option F)
    : option F * CursorOptions :=
  match arg1 with
  | inl callback => (Some callback, no_options)
  | inr options => (arg2, options)
  end.

Inductive cursor_source : Type :=
| OverStore
| OverIndex (name : string).

(** [index ? store.index(index) : store] (line 380): an absent name is
    falsy, and so is the empty one. *)
Definition cursor_source_of (options : CursorOptions) : cursor_source :=
  match co_index options with
  | Some name => if String.eqb name EmptyString then OverStore else OverIndex name
  | None => OverStore
  end.

(** Lines 378-380: the transaction, the store, and [store.index(name)], which
    throws [NotFoundError] when the store has no index of that name. *)
Definition open_cursor_request (closed : bool) (stored : structure) (storeName : string)
    (options : CursorOptions) : outcome cursor_source :=
  match db_transaction closed stored [storeName] with
  | Throws e => Throws e
  | Returns _ =>
      match cursor_source_of options with
      | OverStore => Returns OverStore
      | OverIndex name =>
          match stored !! storeName ≫= λ st, indexes st !! name with
          | Some _ => Returns (OverIndex name)
          | None => Throws (DOMException "NotFoundError")
          end
      end
  end.

(** ** [transaction], up to [done] (lines 434-438) *)

(** [Object.fromEntries(storeNames.map((name) => [name,
    transaction.objectStore(name)]))]: one property per name, a later entry
    replacing an earlier one of the same name; a store handle is the store's
    name. *)
Definition transaction_stores (storeNames : list string) : gmap string string :=
  foldl (λ stores name, <[name := name]> stores) ∅ storeNames.

(** The function is not [async]: what [db.transaction] throws is thrown to
    the caller, before the timer is armed.  Otherwise the caller gets the
    [stores] record and the coordinator. *)
Definition open_transaction (closed : bool) (stored : structure) (storeNames : list string)
    : outcome (gmap string string * TransactionCoordinator.state) :=
  match db_transaction closed stored storeNames with
  | Throws e => Throws e
  | Returns _ => Returns (transaction_stores storeNames, TransactionCoordinator.transaction)
  end.

(** * Specifications *)

(** ** Schema synchronisation *)

Definition index_of (ix : IndexSchema) : IDBIndex :=
  {| keyPath := index_keyPath ix; index_params := index_options ix |}.

Definition old_indexes (old : option IDBObjectStore) : gmap string IDBIndex :=
  match old with Some o => indexes o | None => ∅ end.

(** The store [st] found under a configured name after the pass, [old] being
    what was there before: options of the old store, or the configured ones
    for a new store; exactly the configured index names; an old index whose
    name is configured is kept as it was, every other index is built from a
    configured entry of that name. *)
Record reconciled (store : StoreSchema) (old : option IDBObjectStore) (st : IDBObjectStore) : Prop := {
  rec_params :
    store_params st = match old with Some o => store_params o | None => store_options store end;
  rec_index_set :
    ∀ i, is_Some (indexes st !! i) ↔ i ∈ index_name <$> configured_indexes store;
  rec_kept :
    ∀ i d, old_indexes old !! i = Some d → i ∈ index_name <$> configured_indexes store →
           indexes st !! i = Some d;
  rec_created :
    ∀ i d, indexes st !! i = Some d →
           old_indexes old !! i = Some d ∨
           (old_indexes old !! i = None ∧
            ∃ ix, ix ∈ configured_indexes store ∧ index_name ix = i ∧ d = index_of ix) }.

(** Total correctness of an upgrade computation: it returns, in a world that
    satisfies [Q]. *)
Definition runs {A} (c : Upgrade A) (w : world) (Q : A → world → Prop) : Prop :=
  ∃ a w', c w = (Returns a, w') ∧ Q a w'.

(** A computation only appends to the log, and only effects of one kind. *)
Definition logs_only (P : effect → Prop) {A} (c : Upgrade A) : Prop :=
  ∀ w, ∃ l, w_log (snd (c w)) = w_log w ++ l ∧ Forall P l.

(** ** Migrations *)

(** The pipeline in the words of the specification: the selected migrations
    one after the other, each on the structure its predecessor left, nothing
    after one that fails.  It yields the versions started, the structure
    reached and the outcome. *)
Fixpoint in_sequence (oldVersion newVersion : Z) (l : list Migration) (d : structure)
    : list Z * structure * outcome unit :=
  match l with
  | [] => ([], d, Returns tt)
  | m :: l' =>
      match migration m oldVersion newVersion (version m) d with
      | Returns d' =>
          let '(started, d'', r) := in_sequence oldVersion newVersion l' d' in
          (version m :: started, d'', r)
      | Throws e => ([version m], d, Throws e)
      end
  end.

Definition version_le (a b : Migration) : Prop := version a ≤ version b.
Definition version_lt (a b : Migration) : Prop := version a < version b.

(** The migrations the loop of line 235 lets through, in the order it meets
    them. *)
Definition chosen (oldVersion newVersion : Z) (ms : list Migration) : list Migration :=
  filter (λ m, applies oldVersion newVersion m = true) (array_sort by_version ms).

(** The handler as one computation, whatever becomes of the configuration. *)
Definition upgrade_body (config : IndexedDBConfig) (oldVersion newVersion : Z) : Upgrade unit :=
  upgrade_start config oldVersion newVersion ;;;
  match cfg_migrations config with
  | Some ms => run_migrations oldVersion newVersion (array_sort by_version ms)
  | None => synchronize (cfg_stores config)
  end ;;;
  upgrade_end config oldVersion newVersion.

(** ** Logs *)

Definition is_timeout_call (eff : effect) : bool :=
  match eff with CallOnTransactionTimeout _ _ _ => true | _ => false end.

Definition is_error_call (eff : effect) : bool :=
  match eff with CallOnError _ => true | _ => false end.

Definition is_abort (eff : effect) : bool :=
  match eff with CallAbort => true | _ => false end.

Definition is_open (eff : effect) : bool :=
  match eff with CallOpen _ _ => true | _ => false end.

(** What only the timer path does: abort, and call the timeout callback. *)
Definition is_timeout_effect (eff : effect) : bool := is_abort eff || is_timeout_call eff.

(** How many logged calls satisfy [p]. *)
Definition calls (p : effect → bool) (l : list effect) : nat := length (List.filter p l).

(** [a] has been logged before every [b]. *)
Definition before (a b : effect) (l : list effect) : Prop :=
  ∀ l1 l2, l = l1 ++ b :: l2 → a ∈ l1.

(** ** Invariants of [iDBPromise] *)

Section operation_adapter_invariants.
Import OperationAdapter.
Variables (config : IndexedDBConfig) (db : connection) (storeName : string).

(** A delivered request has cleared the timer; each callback has been called
    at most once, the timeout callback only once the timer has fired, the
    error callback only once the request is done; nothing is ever aborted. *)
Definition op_inv (s : state) : Prop :=
  (request_done s = true → timer s ≠ Armed) ∧
  (calls is_timeout_call (log (race s)) ≤ if timer s is Armed then 0 else 1)%nat ∧
  (calls is_error_call (log (race s)) ≤ if request_done s then 1 else 0)%nat ∧
  calls is_abort (log (race s)) = 0%nat.

(** The timeout rejection, done or still suspended, comes after the call of
    the timeout callback. *)
Definition op_order_inv (s : state) : Prop :=
  (KReject TransactionTimeout ∈ waiting (race s) →
   CallOnTransactionTimeout db [storeName] (cfg_transactionTimeout config) ∈ log (race s)) ∧
  before (CallOnTransactionTimeout db [storeName] (cfg_transactionTimeout config))
         (CallReject TransactionTimeout) (log (race s)).

End operation_adapter_invariants.

(** ** Invariants of [transaction] *)

(** While the timer is armed nothing has been signalled and nothing has been
    done to [done]: the transaction is active, or the engine is committing it;
    once [finished] is set the timer is not armed any more. *)
Definition tc_inv (s : TransactionCoordinator.state) : Prop :=
  (TransactionCoordinator.finished s = true → TransactionCoordinator.timer s ≠ Armed) ∧
  (TransactionCoordinator.timer s = Armed →
   TransactionCoordinator.finished s = false ∧
   (TransactionCoordinator.tx s = TransactionCoordinator.Active ∨
    TransactionCoordinator.tx s = TransactionCoordinator.Committing) ∧
   TransactionCoordinator.done s = new_cell).

(** No rejection with the timeout error has happened or is suspended, and
    the timeout error is not the transaction's. *)
Definition tc_no_timeout (s : TransactionCoordinator.state) : Prop :=
  (TransactionCoordinator.KReject TransactionTimeout
     ∉ waiting (TransactionCoordinator.done s)) ∧
  settled (TransactionCoordinator.done s) ≠ Rejected TransactionTimeout ∧
  TransactionCoordinator.tx_error s ≠ Some TransactionTimeout.

(** ** The cursor walk *)

Section cursor_adapter_specification.
Import CursorAdapter.
Context {Cursor : Type} (f : Cursor → value).

(** The sequence the adapter is to resolve with: the transform's results in
    traversal order, the falsy ones dropped. *)
Definition collected (cursors : list Cursor) : list value :=
  filter (λ v, truthy v = true) (f <$> cursors).

(** The engine yielding these cursors one after the other. *)
Definition steps (cursors : list Cursor) : list (event Cursor) :=
  (λ c, RequestSuccess Cursor (Some c)) <$> cursors.

(** Where a cursor request stands after the events of [history]. *)
Inductive phase (history : list (event Cursor)) (s : state) : Prop :=
| walking :
    expecting s = true → settled (race s) = Pending → waiting (race s) = [] →
    (∀ name, RequestError Cursor name ∉ history) →
    phase history s
| exhausted :
    expecting s = false → settled (race s) = Fulfilled (data s) → waiting (race s) = [] →
    (∀ name, RequestError Cursor name ∉ history) →
    phase history s
| failed name :
    expecting s = false →
    (settled (race s) = Pending ∨ settled (race s) = Rejected (DOMException name)) →
    (∀ k, k ∈ waiting (race s) → k = KReject (DOMException name)) →
    (∀ name', RequestError Cursor name' ∈ history → name' = name) →
    phase history s.

Definition cursor_inv (history : list (event Cursor)) (s : state) : Prop :=
  data s = collected (visited Cursor history) ∧
  calls is_timeout_effect (log (race s)) = 0%nat ∧
  phase history s.

End cursor_adapter_specification.

(** ** The open request *)

(** Every field but [migrations] and [transactionTimeout]. *)
Definition same_identity (c c' : IndexedDBConfig) : Prop :=
  cfg_name c' = cfg_name c ∧ cfg_version c' = cfg_version c ∧
  cfg_stores c' = cfg_stores c ∧ cfg_events c' = cfg_events c.

Definition sorted_migrations (c : IndexedDBConfig) : option (list Migration) :=
  array_sort by_version <$> cfg_migrations c.

(** The upgrade-start callback, if any, completes. *)
Definition upgrade_start_returns (c : IndexedDBConfig) : Prop :=
  ∀ cb oldVersion newVersion,
    callback c onUpgradeStart = Some cb → ∃ u, cb oldVersion newVersion = Returns u.

(** The error the blocked handler ends up with: what [onBlocked] returns, or
    the default. *)
Definition blocked_error (c : IndexedDBConfig) (oldVersion newVersion : Z) : error :=
  let default_error := UpgradeBlocked (cfg_name c) newVersion oldVersion in
  match callback c onBlocked with
  | Some cb =>
      match cb oldVersion newVersion with
      | Returns r => default default_error r
      | Throws _ => default_error
      end
  | None => default_error
  end.

Section lifecycle_specification.
Import Lifecycle.
Variable conn : connection.

(** Resuming what is suspended before anything else is delivered: the
    callbacks' promises resolve ahead of the engine's next signal. *)
Fixpoint settle_down (fuel : nat) (s : state) : state :=
  match fuel with
  | O => s
  | S fuel' =>
      match step conn s (Resume 0) with
      | Some s' => settle_down fuel' s'
      | None => s
      end
  end.

(** What a run leaves of the caller's configuration [c]. *)
Definition frame_inv (c : IndexedDBConfig) (history : list event) (s : state) : Prop :=
  same_identity c (config s) ∧
  cfg_transactionTimeout (config s) = Some (default 5000 (cfg_transactionTimeout c)) ∧
  (cfg_migrations (config s) = cfg_migrations c ∨
   cfg_migrations (config s) = sorted_migrations c) ∧
  ((∀ o n, UpgradeNeeded o n ∉ history) → cfg_migrations (config s) = cfg_migrations c) ∧
  (upgrade_start_returns c → (∃ o n, UpgradeNeeded o n ∈ history) →
   cfg_migrations (config s) = sorted_migrations c).

End lifecycle_specification.

(** ** Schema synchronisation, for any configuration *)

(** The entry of the configuration that decides the indexes of the store
    named [n]: the last one of that name. *)
Definition last_entry (stores : list StoreSchema) (n : string) : option StoreSchema :=
  last (filter (λ s, store_name s = n) stores).

(** The index names of [st] are the ones [store] configures. *)
Definition has_configured_indexes (store : StoreSchema) (st : IDBObjectStore) : Prop :=
  ∀ i, is_Some (indexes st !! i) ↔ i ∈ index_name <$> configured_indexes store.

(** A structure the configuration already describes. *)
Definition in_sync (stores : list StoreSchema) (d : structure) : Prop :=
  (∀ n, is_Some (d !! n) → n ∈ store_name <$> stores) ∧
  (∀ s, s ∈ stores → ∃ st, d !! store_name s = Some st ∧ has_configured_indexes s st).

(** The structural calls a configuration licenses: deleting a store or an
    index it does not name, creating a store or an index it names, with the
    configured options and key path. *)
Definition licensed (stores : list StoreSchema) (eff : effect) : Prop :=
  match eff with
  | DeleteObjectStore n => n ∉ store_name <$> stores
  | CreateObjectStore n o => ∃ s, s ∈ stores ∧ n = store_name s ∧ o = store_options s
  | DeleteIndex n i =>
      ∃ s, s ∈ stores ∧ n = store_name s ∧ i ∉ index_name <$> configured_indexes s
  | CreateIndex n i kp o =>
      ∃ s ix, s ∈ stores ∧ ix ∈ configured_indexes s ∧ n = store_name s ∧
              i = index_name ix ∧ kp = index_keyPath ix ∧ o = index_options ix
  | _ => False
  end.

(** ** The upgrade handler *)

Definition is_migration_call (eff : effect) : bool :=
  match eff with CallMigration _ _ _ => true | _ => false end.

(** All the upgrade handler can do: structural calls, migrations and the two
    upgrade callbacks. *)
Definition is_upgrade_effect (eff : effect) : bool :=
  match eff with
  | CallOnUpgradeStart _ _ | CallOnUpgradeEnd _ _ => true
  | _ => is_structural eff || is_migration_call eff
  end.

(** The handler up to its last statement: [onUpgradeStart], then the
    migrations or the synchronisation. *)
Definition upgrade_work (config : IndexedDBConfig) (oldVersion newVersion : Z) : Upgrade unit :=
  upgrade_start config oldVersion newVersion ;;;
  match cfg_migrations config with
  | Some ms => run_migrations oldVersion newVersion (array_sort by_version ms)
  | None => synchronize (cfg_stores config)
  end.

(** The call of an optional callback, as it appears in the log. *)
Definition logged {T} (cb : option T) (eff : effect) : list effect :=
  match cb with Some _ => [eff] | None => [] end.

(** ** The open request and the connection *)

Definition is_close (eff : effect) : bool :=
  match eff with CallClose => true | _ => false end.

Definition is_versionchange (ev : Lifecycle.event) : bool :=
  match ev with Lifecycle.VersionChange _ _ => true | _ => false end.

(** The upgrade being signalled, with whatever versions. *)
Definition is_upgradeneeded (ev : Lifecycle.event) : Prop :=
  ∃ o n, ev = Lifecycle.UpgradeNeeded o n.

Definition is_close_pending (k : Lifecycle.continuation) : bool :=
  match k with Lifecycle.KClose => true | _ => false end.

(** The calls of [db.close()] made so far, and those a suspended
    [onversionchange] handler still has to make. *)
Definition closes (s : Lifecycle.state) : nat :=
  (calls is_close (log (Lifecycle.open s)) +
   length (List.filter is_close_pending (waiting (Lifecycle.open s))))%nat.

(** ** [clearDatabase] *)

Definition fulfilled (op : string * OperationAdapter.state) : Prop :=
  ∃ v, settled (OperationAdapter.race op.2) = Fulfilled v.

(** Every operation but the last one issued has been fulfilled. *)
Definition earlier_fulfilled (ops : list (string * OperationAdapter.state)) : Prop :=
  ∀ j op, ops !! j = Some op → (S j < length ops)%nat → fulfilled op.

(** The engine answering every request with [success], in the order the
    requests are issued. *)
Definition successes (from n : nat) : list DatabaseClearing.event :=
  (λ i, DatabaseClearing.Operation i (OperationAdapter.RequestSuccess VUndefined)) <$> seq from n.

(** An operation whose request has succeeded, and nothing else. *)
Definition succeeded : OperationAdapter.state :=
  OperationAdapter.onsuccess VUndefined (OperationAdapter.deliver OperationAdapter.iDBPromise).

Section clearDatabase_invariant.
Import DatabaseClearing.
Variables (config : IndexedDBConfig) (closed : bool) (stored : structure).

(** Where the loop stands: the requests issued are those of the first
    stores of the configuration, in order; each was awaited before the next
    was issued; the promise is pending while the last one is, fulfilled when
    every store has had its request fulfilled, and rejected with the error of
    the first operation that failed or was refused. *)
Definition clear_inv (s : state) : Prop :=
  earlier_fulfilled (issued s) ∧
  match cleared s with
  | Pending =>
      store_name <$> cfg_stores config = (fst <$> issued s) ++ (store_name <$> remaining s) ∧
      ∃ op, last (issued s) = Some op ∧ settled (OperationAdapter.race op.2) = Pending
  | Fulfilled _ =>
      store_name <$> cfg_stores config = fst <$> issued s ∧ remaining s = [] ∧
      Forall fulfilled (issued s)
  | Rejected e =>
      (store_name <$> cfg_stores config = (fst <$> issued s) ++ (store_name <$> remaining s) ∧
       ∃ op, last (issued s) = Some op ∧ settled (OperationAdapter.race op.2) = Rejected e) ∨
      (∃ name,
         store_name <$> cfg_stores config =
           (fst <$> issued s) ++ name :: (store_name <$> remaining s) ∧
         start_operation closed stored name = Throws e ∧ Forall fulfilled (issued s))
  end.
End clearDatabase_invariant.

(** ** [deleteDatabase] *)

Definition is_blocked (ev : DatabaseDeletion.event) : bool :=
  match ev with DatabaseDeletion.Blocked => true | _ => false end.

(** The promise is pending, fulfilled, or rejected with an error of the
    engine; so is every rejection still suspended. *)
Definition deletion_inv (s : DatabaseDeletion.state) : Prop :=
  (∃ l, log (DatabaseDeletion.deleted s) = CallClose :: l ∧
        calls is_close l = 0%nat ∧ calls is_timeout_effect l = 0%nat) ∧
  (∀ e, settled (DatabaseDeletion.deleted s) = Rejected e → ∃ name, e = DOMException name) ∧
  (∀ k, k ∈ waiting (DatabaseDeletion.deleted s) →
        ∃ name, k = DatabaseDeletion.KReject (DOMException name)).

(** ** Cursors *)

Definition is_continue (eff : effect) : bool :=
  match eff with CallContinue => true | _ => false end.

(** * Concrete inputs *)

Definition users_store : StoreSchema :=
  {| store_name := "users";
     store_options := Some {| sp_keyPath := Some "id"; sp_autoIncrement := false |};
     store_index := Some [ {| index_name := "by_name"; index_keyPath := "name";
                              index_options := None |} ] |}.

Definition empty_world : world := {| w_db := ∅; w_log := [] |}.

(** Every callback configured, each completing. *)
Definition all_events : Events :=
  {| onBlocked := Some (λ _ _, Returns None);
     onError := Some (λ _, Returns tt);
     onTransactionTimeout := Some (λ _ _ _, Returns tt);
     onUpgradeStart := Some (λ _ _, Returns tt);
     onUpgradeEnd := Some (λ _ _, Returns tt);
     onVersionChange := Some (λ _ _, Returns tt) |}.

(** The blocked callback and the error callback configured, each completing. *)
Definition blocked_events : Events :=
  {| onBlocked := Some (λ _ _, Returns None); onError := Some (λ _, Returns tt);
     onTransactionTimeout := None;
     onUpgradeStart := None; onUpgradeEnd := None; onVersionChange := None |}.

(** Only the timeout callback configured. *)
Definition timeout_events : Events :=
  {| onBlocked := None; onError := None;
     onTransactionTimeout := Some (λ _ _ _, Returns tt);
     onUpgradeStart := None; onUpgradeEnd := None; onVersionChange := None |}.

Definition config_with (migrations : option (list Migration)) (events : option Events)
    : IndexedDBConfig :=
  {| cfg_name := "d1"; cfg_version := 2; cfg_stores := [users_store];
     cfg_migrations := migrations; cfg_transactionTimeout := Some 5000;
     cfg_events := events |}.

(** A migration that creates one store. *)
Definition creates (v : Z) (store : string) : Migration :=
  {| version := v;
     migration := λ _ _ _ d, Returns (<[store := {| store_params := None; indexes := ∅ |}]> d) |}.

Definition orders_store : StoreSchema :=
  {| store_name := "orders"; store_options := None; store_index := None |}.

(** A structure with a store and an index the configuration does not know. *)
Definition stale_world : world :=
  {| w_db :=
       <["legacy" := {| store_params := None; indexes := ∅ |}]>
         (<["users" := {| store_params := None;
                          indexes := {["by_age" := {| keyPath := "age";
                                                      index_params := None |}]} |}]> ∅);
     w_log := [] |}.

(** The structure the configuration of the examples describes. *)
Definition users_structure : structure :=
  {["users" := {| store_params := Some {| sp_keyPath := Some "id"; sp_autoIncrement := false |};
                  indexes := {["by_name" := {| keyPath := "name"; index_params := None |}]} |}]}.

(** The connection handle of the examples. *)
Definition db7 : connection := 7%nat.

(** A migration that rejects. *)
Definition fails (v : Z) : Migration :=
  {| version := v; migration := λ _ _ _ _, Throws (UserError "migration") |}.

(** Every callback configured, each throwing. *)
Definition failing_events : Events :=
  {| onBlocked := Some (λ _ _, Throws (UserError "blocked"));
     onError := Some (λ _, Throws (UserError "error"));
     onTransactionTimeout := Some (λ _ _ _, Throws (UserError "timeout"));
     onUpgradeStart := Some (λ _ _, Throws (UserError "start"));
     onUpgradeEnd := Some (λ _ _, Throws (UserError "end"));
     onVersionChange := Some (λ _ _, Throws (UserError "versionchange")) |}.

(** An operation whose timer has fired, the timeout callback still running. *)
Definition timed_out : OperationAdapter.state :=
  OperationAdapter.ontimeout (config_with None (Some all_events)) db7 "users"
    (OperationAdapter.fire OperationAdapter.iDBPromise).

(** A transaction whose timer has fired: the abort is asked for, the timeout
    callback still running. *)
Definition aborting : TransactionCoordinator.state :=
  TransactionCoordinator.ontimeout (config_with None (Some all_events)) db7 ["users"]
    (TransactionCoordinator.fire TransactionCoordinator.transaction).

(** An open connection. *)
Definition opened_connection : Lifecycle.state :=
  Lifecycle.onsuccess db7
    (Lifecycle.deliver (Lifecycle.openIndexedDB (config_with None (Some all_events))
                          users_structure)).

(** A configuration with two stores, for a database that has one of them. *)
Definition two_stores : IndexedDBConfig :=
  {| cfg_name := "d1"; cfg_version := 2; cfg_stores := [users_store; orders_store];
     cfg_migrations := None; cfg_transactionTimeout := Some 5000; cfg_events := None |}.

(** The structure with both stores. *)
Definition both_stores : structure :=
  <["orders" := {| store_params := None; indexes := ∅ |}]> users_structure.

(** * Proofs *)

(** ** Logs of upgrade computations *)

Section logs_only.
Context (P : effect → Prop).

Lemma logs_only_ret {A} (a : A) : logs_only P (ret a).
Proof. intros w. exists []. by rewrite app_nil_r. Qed.

Lemma logs_only_throw {A} e : logs_only P (throw (A:=A) e).
Proof. intros w. exists []. by rewrite app_nil_r. Qed.

Lemma logs_only_get_db : logs_only P get_db.
Proof. intros w. exists []. by rewrite app_nil_r. Qed.

Lemma logs_only_put_db d : logs_only P (put_db d).
Proof. intros w. exists []. by rewrite app_nil_r. Qed.

Lemma logs_only_emit eff : P eff → logs_only P (emit eff).
Proof. intros HP w. exists [eff]. split; [done | by constructor]. Qed.

Lemma logs_only_bind {A B} (c : Upgrade A) (k : A → Upgrade B) :
  logs_only P c → (∀ a, logs_only P (k a)) → logs_only P (bind c k).
Proof.
  intros Hc Hk w. unfold bind. destruct (Hc w) as (l1 & Hl1 & HP1).
  destruct (c w) as [[a|e] w1]; simpl in *.
  - destruct (Hk a w1) as (l2 & Hl2 & HP2). exists (l1 ++ l2).
    split; [by rewrite Hl2, Hl1, app_assoc | by apply Forall_app].
  - by exists l1.
Qed.

Lemma logs_only_when b c : logs_only P c → logs_only P (when b c).
Proof. destruct b; simpl; [done | intros _; apply logs_only_ret]. Qed.

Lemma logs_only_for_each {A} (l : list A) body :
  (∀ x, logs_only P (body x)) → logs_only P (for_each l body).
Proof.
  intros Hbody. induction l as [|x l IH]; simpl; [apply logs_only_ret|].
  apply logs_only_bind; [apply Hbody | by intros _].
Qed.
End logs_only.

Ltac logs_only_step :=
  first [ apply logs_only_ret | apply logs_only_throw | apply logs_only_get_db
        | apply logs_only_put_db | apply logs_only_when | apply logs_only_for_each; intros ?
        | apply logs_only_bind; [|intros ?]
        | apply logs_only_emit; done ].

Lemma synchronize_logs_only stores :
  logs_only (λ eff, is_structural eff = true) (synchronize stores).
Proof.
  unfold synchronize, sync_store, objectStoreNames, objectStoreNames_contains,
    deleteObjectStore, createObjectStore, objectStore, indexNames, indexNames_contains,
    deleteIndex, createIndex.
  repeat (logs_only_step || match goal with |- logs_only _ (match ?x with _ => _ end) => destruct x end).
Qed.

(** Two phases, each with its own kind of effect. *)
Lemma logs_only_then (P Q : effect → Prop) (c1 c2 : Upgrade unit) :
  logs_only P c1 → logs_only Q c2 →
  ∀ w, ∃ l1 l2, w_log (snd ((c1 ;;; c2) w)) = w_log w ++ l1 ++ l2 ∧
                Forall P l1 ∧ Forall Q l2.
Proof.
  intros H1 H2 w. unfold bind. destruct (H1 w) as (l1 & Hl1 & HP).
  destruct (c1 w) as [[[]|e] w1]; simpl in *.
  - destruct (H2 w1) as (l2 & Hl2 & HQ). exists l1, l2.
    split; [by rewrite Hl2, Hl1, app_assoc | done].
  - exists l1, []. by rewrite app_nil_r.
Qed.

(** The first loop of the pass only deletes stores; the second never does. *)
Lemma synchronize_log_phases stores w :
  ∃ l1 l2, w_log (snd (synchronize stores w)) = w_log w ++ l1 ++ l2 ∧
           Forall (λ eff, ∃ n, eff = DeleteObjectStore n) l1 ∧
           Forall (λ eff, is_structural eff = true ∧ ∀ n, eff ≠ DeleteObjectStore n) l2.
Proof.
  change (synchronize stores w) with
    ((for_each (sorted_names (w_db w))
        (λ storeName, when (not_configured stores storeName) (deleteObjectStore storeName)) ;;;
      for_each stores sync_store) w).
  apply logs_only_then.
  - unfold deleteObjectStore.
    repeat (logs_only_step ||
            match goal with |- logs_only _ (match ?x with _ => _ end) => destruct x end).
    apply logs_only_emit. eauto.
  - unfold sync_store, objectStoreNames_contains, createObjectStore, objectStore,
      indexNames, indexNames_contains, deleteIndex, createIndex.
    repeat (logs_only_step ||
            match goal with |- logs_only _ (match ?x with _ => _ end) => destruct x end).
Qed.

(** ** Schema synchronisation *)

Lemma sorted_names_elem {V} (m : gmap string V) (x : string) :
  x ∈ sorted_names m ↔ is_Some (m !! x).
Proof.
  unfold sorted_names. rewrite merge_sort_Permutation, elem_of_elements.
  apply elem_of_dom.
Qed.

Lemma sorted_names_NoDup {V} (m : gmap string V) : NoDup (sorted_names m).
Proof.
  unfold sorted_names. rewrite merge_sort_Permutation. apply NoDup_elements.
Qed.

Lemma runs_ret {A} (a : A) w (Q : A → world → Prop) : Q a w → runs (ret a) w Q.
Proof. intros HQ. by exists a, w. Qed.

Lemma runs_bind {A B} (c : Upgrade A) (k : A → Upgrade B) w (Q : B → world → Prop) :
  runs c w (λ a w', runs (k a) w' Q) → runs (bind c k) w Q.
Proof.
  intros (a & w' & Hc & b & w'' & Hk & HQ).
  exists b, w''. unfold bind. by rewrite Hc.
Qed.

Lemma runs_mono {A} (c : Upgrade A) w (Q Q' : A → world → Prop) :
  runs c w Q → (∀ a w', Q a w' → Q' a w') → runs c w Q'.
Proof. intros (a & w' & Hc & HQ) Himp. exists a, w'. auto. Qed.

Lemma runs_for_each {A} (I : list A → world → Prop) (body : A → Upgrade unit) l w :
  I l w →
  (∀ x l' w0, I (x :: l') w0 → runs (body x) w0 (λ _ w1, I l' w1)) →
  runs (for_each l body) w (λ _ w', I [] w').
Proof.
  intros HI Hbody. revert w HI.
  induction l as [|x l IH]; intros w HI; simpl.
  - by apply runs_ret.
  - apply runs_bind. eapply runs_mono; [by apply Hbody|].
    intros [] w1 HI1. by apply IH.
Qed.

(** Primitive steps at the level of the structure. *)
Lemma runs_deleteObjectStore n w (Q : unit → world → Prop) :
  is_Some (w_db w !! n) →
  (∀ w', w_db w' = delete n (w_db w) → Q tt w') →
  runs (deleteObjectStore n) w Q.
Proof.
  intros [st Hst] HQ. unfold runs, deleteObjectStore, bind, get_db. simpl.
  rewrite Hst. simpl. eexists _, _. split; [reflexivity|]. by apply HQ.
Qed.

Lemma runs_createObjectStore n o w (Q : unit → world → Prop) :
  w_db w !! n = None →
  (∀ w', w_db w' = <[n := {| store_params := o; indexes := ∅ |}]> (w_db w) → Q tt w') →
  runs (createObjectStore n o) w Q.
Proof.
  intros Hn HQ. unfold runs, createObjectStore, bind, get_db. simpl.
  rewrite Hn. simpl. eexists _, _. split; [reflexivity|]. by apply HQ.
Qed.

Lemma runs_objectStoreNames w (Q : list string → world → Prop) :
  Q (sorted_names (w_db w)) w → runs objectStoreNames w Q.
Proof. intros HQ. by eexists _, _. Qed.

Lemma runs_objectStoreNames_contains n w (Q : bool → world → Prop) :
  Q (bool_decide (is_Some (w_db w !! n))) w → runs (objectStoreNames_contains n) w Q.
Proof. intros HQ. by eexists _, _. Qed.

Lemma runs_objectStore n w (Q : string → world → Prop) :
  is_Some (w_db w !! n) → Q n w → runs (objectStore n) w Q.
Proof.
  intros [st Hst] HQ. unfold runs, objectStore, bind, get_db. simpl.
  rewrite Hst. by eexists _, _.
Qed.

Lemma runs_indexNames n st w (Q : list string → world → Prop) :
  w_db w !! n = Some st → Q (sorted_names (indexes st)) w → runs (indexNames n) w Q.
Proof.
  intros Hst HQ. unfold runs, indexNames, bind, get_db. simpl.
  rewrite Hst. by eexists _, _.
Qed.

Lemma runs_indexNames_contains n i st w (Q : bool → world → Prop) :
  w_db w !! n = Some st →
  Q (bool_decide (is_Some (indexes st !! i))) w →
  runs (indexNames_contains n i) w Q.
Proof.
  intros Hst HQ. unfold runs, indexNames_contains, bind, get_db. simpl.
  rewrite Hst. by eexists _, _.
Qed.

Lemma runs_deleteIndex n i st w (Q : unit → world → Prop) :
  w_db w !! n = Some st → is_Some (indexes st !! i) →
  (∀ w', w_db w' = <[n := {| store_params := store_params st;
                             indexes := delete i (indexes st) |}]> (w_db w) → Q tt w') →
  runs (deleteIndex n i) w Q.
Proof.
  intros Hst [d Hd] HQ. unfold runs, deleteIndex, bind, get_db. simpl.
  rewrite Hst, Hd. simpl. eexists _, _. split; [reflexivity|]. by apply HQ.
Qed.

Lemma runs_createIndex n i kp o st w (Q : unit → world → Prop) :
  w_db w !! n = Some st → indexes st !! i = None →
  (∀ w', w_db w' = <[n := {| store_params := store_params st;
                             indexes := <[i := {| keyPath := kp; index_params := o |}]>
                                          (indexes st) |}]> (w_db w) → Q tt w') →
  runs (createIndex n i kp o) w Q.
Proof.
  intros Hst Hd HQ. unfold runs, createIndex, bind, get_db. simpl.
  rewrite Hst, Hd. simpl. eexists _, _. split; [reflexivity|]. by apply HQ.
Qed.

Lemma not_configured_spec stores n :
  not_configured stores n = true ↔ n ∉ store_name <$> stores.
Proof.
  unfold not_configured. induction stores as [|s stores IH]; simpl.
  - split; [intros _; apply not_elem_of_nil | done].
  - rewrite andb_true_iff, IH, not_elem_of_cons, negb_true_iff.
    rewrite <- not_true_iff_false, String.eqb_eq. intuition congruence.
Qed.

Lemma index_configured_spec store i :
  index_configured store i = true ↔ i ∈ index_name <$> configured_indexes store.
Proof.
  unfold index_configured, configured_indexes.
  destruct (store_index store) as [l|]; simpl.
  - induction l as [|x l IH]; simpl.
    + split; [done | by intros ?%elem_of_nil].
    + rewrite orb_true_iff, IH, elem_of_cons, String.eqb_eq. intuition congruence.
  - split; [done | by intros ?%elem_of_nil].
Qed.

Lemma runs_when (b : bool) (c : Upgrade unit) w (Q : unit → world → Prop) :
  (b = true → runs c w Q) → (b = false → Q tt w) → runs (when b c) w Q.
Proof. destruct b; simpl; intros H1 H2; [auto | apply runs_ret; auto]. Qed.

(** First loop: stale stores go, nothing else changes. *)
Lemma delete_stale_stores stores w :
  runs (for_each (sorted_names (w_db w))
          (λ storeName, when (not_configured stores storeName) (deleteObjectStore storeName))) w
    (λ _ w', ∀ n, w_db w' !! n = if not_configured stores n then None else w_db w !! n).
Proof.
  eapply runs_mono.
  - apply (runs_for_each (λ rem w',
      NoDup rem ∧
      (∀ n, n ∈ rem → is_Some (w_db w !! n)) ∧
      ∀ n, w_db w' !! n =
           if bool_decide (n ∉ rem) && not_configured stores n then None else w_db w !! n)).
    + split; [apply sorted_names_NoDup|]. split; [by intros n ?%sorted_names_elem|].
      intros n. case_bool_decide as Hn; simpl; [|done].
      destruct (not_configured stores n); [|done].
      rewrite sorted_names_elem in Hn. by apply eq_None_not_Some.
    + intros x l' w0 (Hnd & Hin & Hlk).
      apply NoDup_cons in Hnd as [Hx Hnd].
      assert (Hcur : w_db w0 !! x = w_db w !! x).
      { rewrite Hlk. rewrite bool_decide_eq_false_2; [done|]. intros Hc. apply Hc. by left. }
      apply runs_when.
      * intros Hnc. apply runs_deleteObjectStore.
        { rewrite Hcur. apply Hin. by left. }
        intros w' Hw'. split; [done|]. split; [intros n Hn; apply Hin; by right|].
        intros n. rewrite Hw'. destruct (decide (n = x)) as [->|Hne].
        -- rewrite lookup_delete_eq, bool_decide_eq_true_2 by done. by rewrite Hnc.
        -- rewrite lookup_delete_ne by done. rewrite Hlk.
           rewrite (bool_decide_ext (n ∉ x :: l') (n ∉ l')); [done|].
           rewrite not_elem_of_cons. tauto.
      * intros Hnc. split; [done|]. split; [intros n Hn; apply Hin; by right|].
        intros n. destruct (decide (n = x)) as [->|Hne].
        -- rewrite Hcur, Hnc. by rewrite andb_false_r.
        -- rewrite Hlk.
           rewrite (bool_decide_ext (n ∉ x :: l') (n ∉ l')); [done|].
           rewrite not_elem_of_cons. tauto.
  - intros [] w' (_ & _ & Hlk) n. rewrite Hlk.
    rewrite bool_decide_eq_true_2; [done | apply not_elem_of_nil].
Qed.

(** Second loop of [sync_store]: stale indexes of the current store go. *)
Lemma delete_stale_indexes store n st w :
  w_db w !! n = Some st →
  runs (for_each (sorted_names (indexes st))
          (λ currentIndex, when (negb (index_configured store currentIndex))
                                (deleteIndex n currentIndex))) w
    (λ _ w', ∃ st', w_db w' = <[n := st']> (w_db w) ∧
                    store_params st' = store_params st ∧
                    ∀ i, indexes st' !! i =
                         if index_configured store i then indexes st !! i else None).
Proof.
  intros Hst. eapply runs_mono.
  - apply (runs_for_each (λ rem w',
      NoDup rem ∧
      (∀ i, i ∈ rem → is_Some (indexes st !! i)) ∧
      ∃ st', w_db w' = <[n := st']> (w_db w) ∧
             store_params st' = store_params st ∧
             ∀ i, indexes st' !! i =
                  if bool_decide (i ∉ rem) && negb (index_configured store i)
                  then None else indexes st !! i)).
    + split; [apply sorted_names_NoDup|]. split; [by intros i ?%sorted_names_elem|].
      exists st. split; [by rewrite insert_id|]. split; [done|].
      intros i. case_bool_decide as Hi; simpl; [|done].
      destruct (index_configured store i); simpl; [done|].
      rewrite sorted_names_elem in Hi. by apply eq_None_not_Some.
    + intros x l' w0 (Hnd & Hin & st0 & Hdb & Hpar & Hlk).
      apply NoDup_cons in Hnd as [Hx Hnd].
      assert (Hst0 : w_db w0 !! n = Some st0) by (rewrite Hdb; apply lookup_insert_eq).
      assert (Hcur : indexes st0 !! x = indexes st !! x).
      { rewrite Hlk. rewrite bool_decide_eq_false_2; [done|]. intros Hc. apply Hc. by left. }
      assert (Hrest : ∀ i, i ≠ x →
                bool_decide (i ∉ x :: l') = bool_decide (i ∉ l')).
      { intros i Hne. apply bool_decide_ext. rewrite not_elem_of_cons. tauto. }
      apply runs_when.
      * intros Hnc. eapply runs_deleteIndex; [exact Hst0 | |].
        { rewrite Hcur. apply Hin. by left. }
        intros w' Hw'. split; [done|]. split; [intros i Hi; apply Hin; by right|].
        eexists. split; [rewrite Hw', Hdb; apply insert_insert_eq|].
        split; [done|]. simpl. intros i. destruct (decide (i = x)) as [->|Hne].
        -- rewrite lookup_delete_eq, bool_decide_eq_true_2 by done. by rewrite Hnc.
        -- rewrite lookup_delete_ne by done. rewrite Hlk. by rewrite Hrest.
      * intros Hnc. split; [done|]. split; [intros i Hi; apply Hin; by right|].
        exists st0. split; [done|]. split; [done|].
        intros i. destruct (decide (i = x)) as [->|Hne].
        -- rewrite Hcur, Hnc. by rewrite andb_false_r.
        -- rewrite Hlk. by rewrite Hrest.
  - intros [] w' (_ & _ & st' & Hdb & Hpar & Hlk). exists st'.
    split; [done|]. split; [done|]. intros i. rewrite Hlk.
    rewrite bool_decide_eq_true_2 by apply not_elem_of_nil. simpl.
    by destruct (index_configured store i).
Qed.

(** Third loop of [sync_store]: configured indexes that are missing are created. *)
Lemma create_missing_indexes (l : list IndexSchema) n st w :
  w_db w !! n = Some st →
  runs (for_each l (λ index,
          present <- indexNames_contains n (index_name index) ;;
          when (negb present)
               (createIndex n (index_name index) (index_keyPath index) (index_options index)))) w
    (λ _ w', ∃ st', w_db w' = <[n := st']> (w_db w) ∧
       store_params st' = store_params st ∧
       (∀ i, is_Some (indexes st' !! i) ↔ is_Some (indexes st !! i) ∨ i ∈ index_name <$> l) ∧
       (∀ i d, indexes st !! i = Some d → indexes st' !! i = Some d) ∧
       (∀ i d, indexes st' !! i = Some d →
               indexes st !! i = Some d ∨
               (indexes st !! i = None ∧
                ∃ ix, ix ∈ l ∧ index_name ix = i ∧ d = index_of ix))).
Proof.
  intros Hst. eapply runs_mono.
  - apply (runs_for_each (λ rem w',
      (∀ ix, ix ∈ rem → ix ∈ l) ∧
      ∃ st', w_db w' = <[n := st']> (w_db w) ∧
        store_params st' = store_params st ∧
        (∀ i, is_Some (indexes st' !! i) ∨ i ∈ index_name <$> rem ↔
              is_Some (indexes st !! i) ∨ i ∈ index_name <$> l) ∧
        (∀ i d, indexes st !! i = Some d → indexes st' !! i = Some d) ∧
        (∀ i d, indexes st' !! i = Some d →
                indexes st !! i = Some d ∨
                (indexes st !! i = None ∧
                 ∃ ix, ix ∈ l ∧ index_name ix = i ∧ d = index_of ix)))).
    + split; [done|]. exists st. split; [by rewrite insert_id|]. repeat split; auto.
    + intros x rem w0 (Hsub & st0 & Hdb & Hpar & Hset & Hmono & Horig).
      assert (Hst0 : w_db w0 !! n = Some st0) by (rewrite Hdb; apply lookup_insert_eq).
      apply runs_bind. eapply runs_indexNames_contains; [exact Hst0|].
      apply runs_when.
      * intros Habs%negb_true_iff%bool_decide_eq_false. apply eq_None_not_Some in Habs.
        eapply runs_createIndex; [exact Hst0 | exact Habs |].
        intros w' Hw'. split; [intros ix Hix; apply Hsub; by right|].
        eexists. split; [rewrite Hw', Hdb; apply insert_insert_eq|].
        split; [done|]. simpl. split; [|split].
        -- intros i. rewrite <- Hset, fmap_cons, elem_of_cons.
           rewrite lookup_insert_is_Some.
           destruct (decide (index_name x = i)); intuition congruence.
        -- intros i d Hi. apply Hmono in Hi.
           rewrite lookup_insert_ne; [done | congruence].
        -- intros i d. destruct (decide (i = index_name x)) as [->|Hne].
           ++ rewrite lookup_insert_eq. intros [= <-]. right. split.
              ** destruct (indexes st !! index_name x) as [d'|] eqn:Hd'; [|done].
                 apply Hmono in Hd'. congruence.
              ** exists x. split; [apply Hsub; by left | done].
           ++ rewrite lookup_insert_ne by done. apply Horig.
      * intros Hpres%negb_false_iff%bool_decide_eq_true.
        split; [intros ix Hix; apply Hsub; by right|].
        exists st0. split; [done|]. split; [done|]. split; [|split; done].
        intros i. rewrite <- Hset, fmap_cons, elem_of_cons.
        destruct (decide (i = index_name x)) as [->|]; intuition congruence.
  - intros [] w' (_ & st' & Hdb & Hpar & Hset & Hmono & Horig). exists st'.
    split; [done|]. split; [done|]. split; [|split; done].
    intros i. rewrite <- Hset, fmap_nil, elem_of_nil. tauto.
Qed.

(** The index reconciliation of one store that exists. *)
Lemma reconcile_indexes store base w (Q : unit → world → Prop) :
  w_db w !! store_name store = Some base →
  (∀ w' st, w_db w' = <[store_name store := st]> (w_db w) →
            store_params st = store_params base →
            reconciled store (Some base) st → Q tt w') →
  runs (currentStore <- objectStore (store_name store) ;;
        names <- indexNames currentStore ;;
        for_each names (λ currentIndex,
          when (negb (index_configured store currentIndex))
               (deleteIndex currentStore currentIndex)) ;;;
        for_each (configured_indexes store) (λ index,
          present <- indexNames_contains currentStore (index_name index) ;;
          when (negb present)
               (createIndex currentStore (index_name index) (index_keyPath index)
                            (index_options index)))) w Q.
Proof.
  intros Hbase HQ.
  apply runs_bind, runs_objectStore; [by rewrite Hbase|].
  apply runs_bind. eapply runs_indexNames; [exact Hbase|].
  apply runs_bind. eapply runs_mono; [by apply delete_stale_indexes|].
  intros [] w2 (st2 & Hdb2 & Hpar2 & Hlk2). simpl.
  assert (Hst2 : w_db w2 !! store_name store = Some st2)
    by (rewrite Hdb2; apply lookup_insert_eq).
  eapply runs_mono; [by apply create_missing_indexes|].
  intros [] w3 (st3 & Hdb3 & Hpar3 & Hset & Hmono & Horig). simpl.
  apply (HQ w3 st3).
  - rewrite Hdb3, Hdb2. apply insert_insert_eq.
  - congruence.
  - split; simpl.
    + congruence.
    + intros i. rewrite Hset, Hlk2. split; [|by right].
      intros [Hi|Hi]; [|done]. apply index_configured_spec.
      destruct (index_configured store i); [done | by destruct Hi].
    + intros i d Hi Hin. apply Hmono. rewrite Hlk2.
      apply index_configured_spec in Hin. by rewrite Hin.
    + intros i d Hi. destruct (Horig i d Hi) as [H2|[H2 (ix & Hix & <- & ->)]].
      * left. rewrite Hlk2 in H2. by destruct (index_configured store i).
      * right. split; [|by exists ix].
        rewrite Hlk2 in H2.
        assert (Hc : index_configured store (index_name ix) = true).
        { apply index_configured_spec, list_elem_of_fmap. by exists ix. }
        by rewrite Hc in H2.
Qed.

Lemma sync_store_reconciles store w :
  runs (sync_store store) w
    (λ _ w', ∃ st, w_db w' = <[store_name store := st]> (w_db w) ∧
                   reconciled store (w_db w !! store_name store) st).
Proof.
  unfold sync_store. apply runs_bind, runs_objectStoreNames_contains.
  apply runs_bind, runs_when.
  - intros Habs%negb_true_iff%bool_decide_eq_false. apply eq_None_not_Some in Habs.
    apply runs_createObjectStore; [done|]. intros w1 Hw1.
    eapply reconcile_indexes; [rewrite Hw1; apply lookup_insert_eq|].
    intros w' st Hw' Hpar [_ Hset Hkept Horig]. exists st.
    split; [rewrite Hw', Hw1; apply insert_insert_eq|].
    rewrite Habs. split; simpl in *; auto.
  - intros [base Hbase]%negb_false_iff%bool_decide_eq_true.
    eapply reconcile_indexes; [exact Hbase|].
    intros w' st Hw' Hpar Hrec. exists st. split; [done|]. by rewrite Hbase.
Qed.

Lemma NoDup_fmap_eq {A B} (f : A → B) (l : list A) x y :
  NoDup (f <$> l) → x ∈ l → y ∈ l → f x = f y → x = y.
Proof.
  induction l as [|a l IH]; [by intros _ ?%elem_of_nil|].
  rewrite fmap_cons, NoDup_cons, !elem_of_cons.
  intros [Ha Hnd] [->|Hx] [->|Hy] Heq; auto.
  - exfalso. apply Ha. rewrite Heq. apply list_elem_of_fmap. by exists y.
  - exfalso. apply Ha. rewrite <- Heq. apply list_elem_of_fmap. by exists x.
Qed.

(** The whole pass, as one step on the structure. *)
Lemma synchronize_runs (stores : list StoreSchema) (w : world) :
  NoDup (store_name <$> stores) →
  runs (synchronize stores) w (λ _ w',
    (∀ n, n ∉ store_name <$> stores → w_db w' !! n = None) ∧
    (∀ s, s ∈ stores →
          ∃ st, w_db w' !! store_name s = Some st ∧
                reconciled s (w_db w !! store_name s) st)).
Proof.
  intros Hnd.
  unfold synchronize. apply runs_bind, runs_objectStoreNames.
  apply runs_bind. eapply runs_mono; [apply delete_stale_stores|].
  intros [] w1 Hw1. simpl.
  eapply runs_mono.
  - apply (runs_for_each (λ rem w',
      NoDup (store_name <$> rem) ∧
      (∀ s, s ∈ rem → s ∈ stores) ∧
      (∀ n, n ∈ store_name <$> rem → w_db w' !! n = w_db w1 !! n) ∧
      (∀ n, n ∉ store_name <$> stores → w_db w' !! n = None) ∧
      (∀ s, s ∈ stores → store_name s ∉ store_name <$> rem →
            ∃ st, w_db w' !! store_name s = Some st ∧
                  reconciled s (w_db w1 !! store_name s) st))).
    + split; [done|]. split; [done|]. split; [done|]. split.
      * intros n Hn%not_configured_spec. by rewrite Hw1, Hn.
      * intros s Hs Hno. exfalso. apply Hno, list_elem_of_fmap. by exists s.
    + intros x rem w0 (Hnd0 & Hsub & Hsame & Hout & Hdone).
      rewrite fmap_cons in Hnd0. apply NoDup_cons in Hnd0 as [Hx Hnd0].
      eapply runs_mono; [apply sync_store_reconciles|].
      intros [] w' (st & Hw' & Hrec). simpl.
      assert (Hxin : x ∈ stores) by (apply Hsub; by left).
      split; [done|]. split; [intros s Hs; apply Hsub; by right|]. split; [|split].
      * intros n Hn. rewrite Hw', lookup_insert_ne; [|by intros <-].
        apply Hsame. rewrite fmap_cons. by right.
      * intros n Hn. rewrite Hw', lookup_insert_ne; [by apply Hout|].
        intros <-. apply Hn, list_elem_of_fmap. by exists x.
      * intros s Hs Hno. destruct (decide (store_name s = store_name x)) as [Heq|Hne].
        -- assert (s = x) as -> by (by apply (NoDup_fmap_eq store_name stores)).
           exists st. split; [rewrite Hw'; apply lookup_insert_eq|].
           rewrite <- Hsame; [done|]. rewrite fmap_cons. by left.
        -- rewrite Hw', lookup_insert_ne by done. apply Hdone; [done|].
           rewrite fmap_cons, not_elem_of_cons. by split.
  - intros [] w' (_ & _ & _ & Hout & Hdone). split; [done|].
    intros s Hs.
    destruct (Hdone s Hs) as (st & Hst & Hrec); [rewrite fmap_nil; apply not_elem_of_nil|].
    exists st. split; [done|]. rewrite Hw1 in Hrec.
    assert (Hc : not_configured stores (store_name s) = false).
    { apply not_true_iff_false. rewrite not_configured_spec. intros Hc. apply Hc.
      apply list_elem_of_fmap. by exists s. }
    by rewrite Hc in Hrec.
Qed.

(** C4.  Schema synchronisation reconciles the structure with the
    configuration.  For every starting structure and every configured store
    list whose names are unique, the pass returns (so each index reconciliation
    found its store in place), and afterwards

    - the stores are exactly the configured ones: every store missing from
      the configuration is gone, every configured store is there;
    - each configured store is [reconciled]: a store that did not exist has
      the configured options, one that did keeps its own; its indexes are
      exactly the configured index names; an existing index whose name is
      configured is kept, and every other index was created from a configured
      entry of that name, with its key path and options;
    - the calls the pass has logged are store deletions first, then calls
      that delete no store: once the indexes of a store are reconciled, the
      store is there to stay. *)
Theorem synchronize_reconciles (stores : list StoreSchema) (w : world) :
  NoDup (store_name <$> stores) →
  ∃ w', synchronize stores w = (Returns tt, w') ∧
    (∀ n, is_Some (w_db w' !! n) ↔ n ∈ store_name <$> stores) ∧
    (∀ s, s ∈ stores →
          ∃ st, w_db w' !! store_name s = Some st ∧
                reconciled s (w_db w !! store_name s) st) ∧
    (∃ l1 l2, w_log w' = w_log w ++ l1 ++ l2 ∧
              Forall (λ eff, ∃ n, eff = DeleteObjectStore n) l1 ∧
              Forall (λ eff, is_structural eff = true ∧ ∀ n, eff ≠ DeleteObjectStore n) l2).
Proof.
  intros Hnd.
  destruct (synchronize_runs stores w Hnd) as ([] & w' & Hrun & Hout & Hin).
  exists w'. split; [done|]. split; [|split; [done|]].
  - intros n. split.
    + intros Hn. destruct (decide (n ∈ store_name <$> stores)) as [|Hno]; [done|].
      apply Hout in Hno. rewrite Hno in Hn. by destruct Hn.
    + intros (s & -> & Hs)%list_elem_of_fmap. destruct (Hin s Hs) as (st & -> & _). eauto.
  - pose proof (synchronize_log_phases stores w) as Hlog. by rewrite Hrun in Hlog.
Qed.

(** ** The migration pipeline *)

Section array_sort.
Context {A : Type} (key : A → Z).
Let compare (a b : A) : Z := key a - key b.

Lemma insert_by_Permutation x l : insert_by compare x l ≡ₚ x :: l.
Proof.
  induction l as [|y l IH]; simpl; [done|].
  destruct (0 <? compare x y); [|done].
  rewrite IH. apply Permutation_swap.
Qed.

Lemma array_sort_Permutation l : array_sort compare l ≡ₚ l.
Proof.
  induction l as [|x l IH]; simpl; [done|].
  by rewrite insert_by_Permutation, IH.
Qed.

Lemma insert_by_sorted x l :
  StronglySorted (λ a b, key a ≤ key b) l →
  StronglySorted (λ a b, key a ≤ key b) (insert_by compare x l).
Proof.
  induction 1 as [|y l Hl IH Hy]; simpl.
  - repeat constructor.
  - destruct (0 <? compare x y) eqn:Hc; unfold compare in Hc.
    + apply Z.ltb_lt in Hc. constructor; [done|].
      rewrite insert_by_Permutation. constructor; [lia | done].
    + apply Z.ltb_ge in Hc. constructor; [by constructor|].
      constructor; [lia|]. eapply Forall_impl; [exact Hy|]. simpl. intros z Hz. lia.
Qed.

Lemma array_sort_sorted l : StronglySorted (λ a b, key a ≤ key b) (array_sort compare l).
Proof.
  induction l as [|x l IH]; simpl; [constructor | by apply insert_by_sorted].
Qed.

(** Stability: elements with equal keys keep their order. *)
Lemma insert_by_stable v x l :
  filter (λ a, key a = v) (insert_by compare x l) = filter (λ a, key a = v) (x :: l).
Proof.
  induction l as [|y l IH]; simpl; [done|].
  destruct (0 <? compare x y) eqn:Hc; [|done]. unfold compare in Hc.
  apply Z.ltb_lt in Hc.
  rewrite (filter_cons _ y), IH, !filter_cons.
  repeat case_decide; try done; lia.
Qed.

Lemma array_sort_stable v l :
  filter (λ a, key a = v) (array_sort compare l) = filter (λ a, key a = v) l.
Proof.
  induction l as [|x l IH]; simpl; [done|].
  rewrite insert_by_stable, !filter_cons, IH. done.
Qed.

(** Sorting what is sorted changes nothing. *)
Lemma array_sort_idem l :
  StronglySorted (λ a b, key a ≤ key b) l → array_sort compare l = l.
Proof.
  induction 1 as [|x l Hl IH Hx]; simpl; [done|].
  rewrite IH. destruct l as [|y l]; simpl; [done|].
  apply Forall_cons in Hx as [Hxy _]. unfold compare.
  destruct (0 <? key x - key y) eqn:Hc; [apply Z.ltb_lt in Hc; lia | done].
Qed.

Lemma sorted_filter (R : relation A) (P : A → Prop) `{∀ x, Decision (P x)} l :
  StronglySorted R l → StronglySorted R (filter P l).
Proof.
  induction 1 as [|x l Hl IH Hx]; [constructor|].
  rewrite filter_cons. case_decide; [|done].
  constructor; [done|]. apply Forall_forall. intros y [_ Hy]%list_elem_of_filter.
  rewrite Forall_forall in Hx. auto.
Qed.

Lemma sorted_strict l :
  NoDup (key <$> l) →
  StronglySorted (λ a b, key a ≤ key b) l → StronglySorted (λ a b, key a < key b) l.
Proof.
  intros Hnd. induction 1 as [|x l Hl IH Hx]; [constructor|].
  rewrite fmap_cons in Hnd. apply NoDup_cons in Hnd as [Hx' Hnd].
  constructor; [auto|]. apply Forall_forall. intros y Hy.
  rewrite Forall_forall in Hx. specialize (Hx y Hy).
  assert (key x ≠ key y); [|lia].
  intros Heq. apply Hx'. rewrite Heq. apply list_elem_of_fmap. by exists y.
Qed.
End array_sort.

Lemma applies_spec oldVersion newVersion m :
  applies oldVersion newVersion m = true ↔ oldVersion < version m ≤ newVersion.
Proof. unfold applies. rewrite andb_true_iff, Z.ltb_lt, Z.leb_le. done. Qed.

(** The loop of lines 235-239 is the sequential pipeline over the migrations
    that apply. *)
Lemma run_migrations_in_sequence oldVersion newVersion l w :
  run_migrations oldVersion newVersion l w =
  let '(started, d, r) :=
    in_sequence oldVersion newVersion
      (filter (λ m, applies oldVersion newVersion m = true) l) (w_db w) in
  (r, {| w_db := d; w_log := w_log w ++ (CallMigration oldVersion newVersion <$> started) |}).
Proof.
  unfold run_migrations. revert w.
  induction l as [|m l IH]; intros [d0 log0]; simpl.
  - by rewrite app_nil_r.
  - rewrite filter_cons. unfold bind at 1.
    destruct (applies oldVersion newVersion m) eqn:Ha; simpl.
    + unfold run_migration, bind, emit, get_db, put_db, throw. simpl.
      destruct (migration m oldVersion newVersion (version m) d0) as [d1|e]; simpl.
      * rewrite IH. simpl.
        destruct (in_sequence _ _ _ d1) as [[started d2] r]. simpl.
        by rewrite <- app_assoc.
      * done.
    + by rewrite IH.
Qed.

Lemma in_sequence_started oldVersion newVersion l d :
  let '(started, _, r) := in_sequence oldVersion newVersion l d in
  started `prefix_of` (version <$> l) ∧ (r = Returns tt → started = version <$> l).
Proof.
  revert d. induction l as [|m l IH]; intros d; simpl.
  - done.
  - destruct (migration m oldVersion newVersion (version m) d) as [d1|e].
    + specialize (IH d1). destruct (in_sequence _ _ _ d1) as [[started d2] r].
      destruct IH as [Hp Hr]. split; [by apply prefix_cons | intros ->%Hr; done].
    + split; [|done]. by apply prefix_cons, prefix_nil.
Qed.

Lemma filter_comm {A} (P Q : A → Prop) `{∀ x, Decision (P x)} `{∀ x, Decision (Q x)} (l : list A) :
  filter P (filter Q l) = filter Q (filter P l).
Proof.
  rewrite !list_filter_filter. apply list_filter_iff. tauto.
Qed.

(** C3 (as amended).  The migration pipeline.  For every migration list and
    every pair of versions, the migrations that run are exactly those with
    [oldVersion < version <= newVersion] (as a multiset, [selected] is the
    configured list filtered); they run in ascending version order, migrations
    of equal version in the order they were configured, and in strictly
    ascending order when the configured versions are pairwise distinct.  They
    run one after the other ([in_sequence]): each on the structure left by the
    one before, none after one that fails; the calls logged are those of the
    migrations started, and nothing structural is logged by the runner. *)
Theorem migrations_run_in_version_order
    (ms : list Migration) (oldVersion newVersion : Z) (w : world) :
  let selected := chosen oldVersion newVersion ms in
  (selected ≡ₚ filter (λ m, applies oldVersion newVersion m = true) ms) ∧
  (∀ m, m ∈ selected ↔ m ∈ ms ∧ oldVersion < version m ≤ newVersion) ∧
  StronglySorted version_le selected ∧
  (∀ v, filter (λ m, version m = v) selected =
        filter (λ m, version m = v) (filter (λ m, applies oldVersion newVersion m = true) ms)) ∧
  (NoDup (version <$> ms) → StronglySorted version_lt selected) ∧
  ∃ started d r,
    in_sequence oldVersion newVersion selected (w_db w) = (started, d, r) ∧
    run_migrations oldVersion newVersion (array_sort by_version ms) w =
      (r, {| w_db := d; w_log := w_log w ++ (CallMigration oldVersion newVersion <$> started) |}) ∧
    started `prefix_of` (version <$> selected) ∧
    (r = Returns tt → started = version <$> selected) ∧
    filter is_structural (CallMigration oldVersion newVersion <$> started) = [].
Proof.
  intros selected. unfold selected, chosen.
  assert (Hperm : array_sort by_version ms ≡ₚ ms) by apply (array_sort_Permutation version).
  assert (Hsorted : StronglySorted version_le
            (filter (λ m, applies oldVersion newVersion m = true) (array_sort by_version ms))).
  { apply sorted_filter, (array_sort_sorted version). }
  split; [by rewrite Hperm|]. split; [|split; [done|split; [|split]]].
  - intros m. rewrite list_elem_of_filter, Hperm, applies_spec. tauto.
  - intros v. rewrite !(filter_comm (λ m, version m = v)). f_equal.
    apply (array_sort_stable version).
  - intros Hnd. apply (sorted_strict version); [|done].
    eapply sublist_NoDup; [|apply fmap_sublist, sublist_filter].
    by rewrite Hperm.
  - pose proof (run_migrations_in_sequence oldVersion newVersion
                  (array_sort by_version ms) w) as Hrun.
    pose proof (in_sequence_started oldVersion newVersion
                  (filter (λ m, applies oldVersion newVersion m = true)
                          (array_sort by_version ms)) (w_db w)) as Hstarted.
    destruct (in_sequence _ _ _ (w_db w)) as [[started d] r].
    exists started, d, r. destruct Hstarted as [Hp Hr].
    repeat split; try done.
    clear. induction started as [|v l IH]; [done | by rewrite fmap_cons, filter_cons].
Qed.

(** ** Promise cells *)

Lemma calls_snoc p l eff : calls p (l ++ [eff]) = (calls p l + if p eff then 1 else 0)%nat.
Proof.
  unfold calls. rewrite List.filter_app, length_app. simpl. by destruct (p eff).
Qed.

Section cells.
Context {K A : Type}.
Implicit Types (c : cell K A) (k : K).

Lemma settle_final (p new : promise A) : p ≠ Pending → settle p new = p.
Proof. by destruct p. Qed.

Lemma await_settled call k rest c :
  (∀ c', settled c' ≠ Pending → settled (rest c') = settled c') →
  settled c ≠ Pending → settled (await call k rest c) = settled c.
Proof. intros Hrest Hc. destruct call as [[eff [u|e]]|]; simpl; auto. Qed.

Lemma reject_settled e c : settled c ≠ Pending → settled (reject (K:=K) e c) = settled c.
Proof. intros Hc. simpl. by apply settle_final. Qed.

Lemma await_yielding_settled call k c : settled (await_yielding call k c) = settled c.
Proof. by destruct call as [[eff [u|e]]|]. Qed.

End cells.

Lemma call_onError_effect config e eff o :
  call_onError config e = Some (eff, o) → eff = CallOnError e.
Proof.
  unfold call_onError. destruct (callback config onError); simpl; by intros [= <- _].
Qed.

Lemma call_onTransactionTimeout_effect config db names eff o :
  call_onTransactionTimeout config db names = Some (eff, o) →
  eff = CallOnTransactionTimeout db names (cfg_transactionTimeout config).
Proof.
  unfold call_onTransactionTimeout.
  destruct (callback config onTransactionTimeout); simpl; by intros [= <- _].
Qed.

Lemma before_nil a b : before a b [].
Proof. intros l1 l2 H. by destruct l1. Qed.

Lemma before_snoc a b l x :
  before a b l → (x = b → a ∈ l) → before a b (l ++ [x]).
Proof.
  intros Hb Hx l1 l2 Heq.
  destruct l2 as [|y l2 _] using rev_ind.
  - apply app_inj_tail in Heq as [-> ->]. auto.
  - rewrite app_comm_cons, app_assoc in Heq.
    apply app_inj_tail in Heq as [-> _]. by eapply Hb.
Qed.

(** ** [iDBPromise] *)

Section operation_adapter.
Import OperationAdapter.
Variables (config : IndexedDBConfig) (db : connection) (storeName : string).
Local Abbreviation step := (OperationAdapter.step config db storeName).
Local Abbreviation run := (OperationAdapter.run config db storeName).

Lemma op_run_invariant (P : state → Prop) :
  (∀ s ev s', P s → step s ev = Some s' → P s') →
  ∀ schedule s s', P s → run s schedule = Some s' → P s'.
Proof.
  intros Hstep schedule. induction schedule as [|ev rest IH]; intros s s' HP; simpl.
  - by intros [= <-].
  - destruct (step s ev) as [s1|] eqn:Hs1; simpl; [|done]. eauto.
Qed.

Lemma op_step_settled s ev s' :
  step s ev = Some s' → settled (race s) ≠ Pending → settled (race s') = settled (race s).
Proof.
  intros Hstep Hset. destruct ev as [|result|name|i]; simpl in Hstep.
  - destruct (timer s); try done. injection Hstep as <-.
    unfold ontimeout. simpl. destruct (finished s); simpl; [done|].
    apply await_settled; [|done]. intros c'. apply reject_settled.
  - destruct (request_done s); [done|]. injection Hstep as <-. simpl.
    by apply settle_final.
  - destruct (request_done s); [done|]. injection Hstep as <-. simpl.
    apply await_settled; [|done]. intros c'. apply reject_settled.
  - destruct (waiting (race s) !! i) as [[e]|]; simpl in Hstep; [|done].
    injection Hstep as <-. simpl. by apply settle_final.
Qed.

Lemma op_inv_init : op_inv iDBPromise.
Proof. repeat split; simpl; try done; lia. Qed.

Lemma op_inv_step s ev s' : op_inv s → step s ev = Some s' → op_inv s'.
Proof.
  intros (Hdone & Htc & Hec & Hab) Hstep.
  destruct ev as [|result|name|i]; simpl in Hstep.
  - destruct (timer s) eqn:Ht; try done. injection Hstep as <-.
    assert (Hrd : request_done s = false).
    { destruct (request_done s); [|done]. by destruct Hdone. }
    unfold ontimeout. simpl. destruct (finished s); simpl.
    { rewrite Hrd in *. repeat split; simpl; try done; lia. }
    destruct (call_onTransactionTimeout config db [storeName]) as [[eff [u|e]]|] eqn:Hcall;
      simpl; rewrite ?Hrd in *;
      try (apply call_onTransactionTimeout_effect in Hcall as ->);
      repeat split; simpl; rewrite ?calls_snoc; simpl; try done; lia.
  - destruct (request_done s) eqn:Hrd; [done|]. injection Hstep as <-.
    repeat split; simpl; rewrite ?calls_snoc; simpl; try lia.
    + by destruct (timer s).
    + destruct (timer s); simpl; lia.
  - destruct (request_done s) eqn:Hrd; [done|]. injection Hstep as <-.
    unfold onerror. simpl.
    destruct (call_onError config (Some (DOMException name))) as [[eff [u|e]]|] eqn:Hcall;
      try (apply call_onError_effect in Hcall as ->);
      simpl; repeat split; simpl; rewrite ?calls_snoc; simpl; try lia;
      try (by destruct (timer s)); destruct (timer s); simpl; lia.
  - destruct (waiting (race s) !! i) as [[e]|]; simpl in Hstep; [|done].
    injection Hstep as <-.
    repeat split; simpl; rewrite ?calls_snoc; simpl; try done; lia.
Qed.

Lemma op_reachable_inv schedule s : run iDBPromise schedule = Some s → op_inv s.
Proof. apply op_run_invariant; [apply op_inv_step | apply op_inv_init]. Qed.
Local Abbreviation timeout_call :=
  (CallOnTransactionTimeout db [storeName] (cfg_transactionTimeout config)).

Lemma op_run_settled schedule : ∀ s s',
  settled (race s) ≠ Pending → run s schedule = Some s' → settled (race s') = settled (race s).
Proof.
  induction schedule as [|ev rest IH]; intros s s' Hset; simpl.
  - by intros [= <-].
  - destruct (step s ev) as [s1|] eqn:Hs1; simpl; [|done]. intros Hrun.
    pose proof (op_step_settled _ _ _ Hs1 Hset) as Hset1.
    rewrite <- Hset1. apply IH; [by rewrite Hset1 | done].
Qed.

(** The [finished] flag is set by the success handler only, which clears the
    timer. *)
Lemma op_armed_unfinished schedule s :
  run iDBPromise schedule = Some s → timer s = Armed → finished s = false.
Proof.
  intros Hrun Ht.
  assert (Hinv : finished s = true → timer s ≠ Armed).
  { refine (op_run_invariant (λ s, finished s = true → timer s ≠ Armed) _
              schedule iDBPromise s _ Hrun); [|done].
    clear. intros s ev s' HP Hstep. destruct ev as [|result|name|i]; simpl in Hstep.
    - destruct (timer s); try done. injection Hstep as <-.
      unfold ontimeout. simpl. by destruct (finished s).
    - destruct (request_done s); [done|]. injection Hstep as <-. simpl.
      intros _. by destruct (timer s).
    - destruct (request_done s); [done|]. injection Hstep as <-. simpl.
      intros _. by destruct (timer s).
    - destruct (waiting (race s) !! i) as [[e]|]; simpl in Hstep; [|done].
      by injection Hstep as <-. }
  destruct (finished s); [by destruct Hinv | done].
Qed.

(** C1 (as amended).  Settlement of an [iDBPromise] race.  In every state a
    schedule of events can lead to:

    - each of the three paths ends in a call of [resolve] or [reject], and the
      call settles the promise if it is still pending: the request's success
      calls [resolve] with the result; the request's error and the timer call
      [reject], with the request's error and the timeout error, at once when
      no callback is configured; with a callback they call it and suspend
      their [reject] behind it (nothing is suspended when the callback
      throws); a suspended [reject] that is resumed is carried out;
    - the promise, once settled, is never changed by a later event: a later
      call is ignored;
    - once the request's success or error has been delivered the timer cannot
      fire: the handlers have cleared it;
    - the timeout callback and the error callback have each been called at
      most once;
    - but the request's handlers check no flag: the conjuncts on the request's
      success and error hold whatever has settled the promise before, so that
      a late error still calls the error callback and [reject], and a late
      success still calls [resolve]. *)
Theorem iDBPromise_settles_once schedule s :
  run iDBPromise schedule = Some s →
  (∀ result, request_done s = false →
     ∃ s', step s (RequestSuccess result) = Some s' ∧
           log (race s') = log (race s) ++ [CallResolve] ∧
           (settled (race s) = Pending → settled (race s') = Fulfilled result)) ∧
  (∀ name, request_done s = false →
     ∃ s', step s (RequestError name) = Some s' ∧
       match callback config onError with
       | None =>
           log (race s') = log (race s) ++ [CallReject (DOMException name)] ∧
           (settled (race s) = Pending → settled (race s') = Rejected (DOMException name))
       | Some cb =>
           log (race s') = log (race s) ++ [CallOnError (Some (DOMException name))] ∧
           settled (race s') = settled (race s) ∧
           waiting (race s') = waiting (race s) ++
             match cb (Some (DOMException name)) with
             | Returns _ => [KReject (DOMException name)]
             | Throws _ => []
             end
       end) ∧
  (timer s = Armed →
     ∃ s', step s TimerFires = Some s' ∧
       match callback config onTransactionTimeout with
       | None =>
           log (race s') = log (race s) ++ [CallReject TransactionTimeout] ∧
           (settled (race s) = Pending → settled (race s') = Rejected TransactionTimeout)
       | Some cb =>
           log (race s') = log (race s) ++ [timeout_call] ∧
           settled (race s') = settled (race s) ∧
           waiting (race s') = waiting (race s) ++
             match cb db [storeName] (cfg_transactionTimeout config) with
             | Returns _ => [KReject TransactionTimeout]
             | Throws _ => []
             end
       end) ∧
  (∀ i e, waiting (race s) !! i = Some (KReject e) →
     ∃ s', step s (Resume i) = Some s' ∧
           log (race s') = log (race s) ++ [CallReject e] ∧
           (settled (race s) = Pending → settled (race s') = Rejected e)) ∧
  (∀ ev s', step s ev = Some s' → settled (race s) ≠ Pending →
            settled (race s') = settled (race s)) ∧
  (request_done s = true → step s TimerFires = None) ∧
  (calls is_timeout_call (log (race s)) ≤ 1)%nat ∧
  (calls is_error_call (log (race s)) ≤ 1)%nat.
Proof.
  intros Hrun. pose proof (op_armed_unfinished _ _ Hrun) as Harm.
  apply op_reachable_inv in Hrun as (Hdone & Htc & Hec & _).
  split; [|split; [|split; [|split; [|split; [|split; [|split]]]]]].
  - intros result Hrd. simpl. rewrite Hrd. eexists. split; [done|]. simpl.
    split; [done|]. by intros ->.
  - intros name Hrd. simpl. rewrite Hrd. eexists. split; [done|].
    unfold onerror, call_onError. simpl.
    destruct (callback config onError) as [cb|]; simpl.
    + destruct (cb _); simpl; by rewrite ?app_nil_r.
    + split; [done|]. by intros ->.
  - intros Ht. simpl. rewrite Ht. eexists. split; [done|].
    unfold ontimeout, call_onTransactionTimeout. simpl. rewrite (Harm Ht). simpl.
    destruct (callback config onTransactionTimeout) as [cb|]; simpl.
    + destruct (cb _ _ _); simpl; by rewrite ?app_nil_r.
    + split; [done|]. by intros ->.
  - intros i e Hi. simpl. rewrite Hi. simpl. eexists. split; [done|]. simpl.
    split; [done|]. by intros ->.
  - intros ev s'. apply op_step_settled.
  - intros Hrd. simpl. specialize (Hdone Hrd). by destruct (timer s).
  - destruct (timer s); lia.
  - destruct (request_done s); lia.
Qed.

Lemma op_order_inv_step cb s ev s' :
  callback config onTransactionTimeout = Some cb →
  op_order_inv config db storeName s → step s ev = Some s' →
  op_order_inv config db storeName s'.
Proof.
  intros Hcb [Hw Hb] Hstep. destruct ev as [|result|name|i]; simpl in Hstep.
  - destruct (timer s); try done. injection Hstep as <-.
    unfold ontimeout, call_onTransactionTimeout. simpl. rewrite Hcb.
    destruct (finished s); simpl; [done|].
    destruct (cb _ _ _); simpl; (split; [|by apply before_snoc]).
    + intros _. apply elem_of_app. right. by left.
    + intros H. apply elem_of_app. left. auto.
  - destruct (request_done s); [done|]. injection Hstep as <-. simpl.
    split; [intros H; apply elem_of_app; left; auto | by apply before_snoc].
  - destruct (request_done s); [done|]. injection Hstep as <-. unfold onerror. simpl.
    destruct (call_onError config (Some (DOMException name))) as [[eff [u|e]]|] eqn:Hcall;
      try (apply call_onError_effect in Hcall as ->); simpl.
    + split; [|by apply before_snoc].
      intros [H|H%list_elem_of_singleton]%elem_of_app; [|done].
      apply elem_of_app. left. auto.
    + split; [|by apply before_snoc]. intros H. apply elem_of_app. left. auto.
    + split; [|by apply before_snoc]. intros H. apply elem_of_app. left. auto.
  - destruct (waiting (race s) !! i) as [[e]|] eqn:Hi; simpl in Hstep; [|done].
    injection Hstep as <-. simpl. split.
    + intros H. apply elem_of_app. left. apply Hw.
      eapply elem_of_sublist; [exact H | apply sublist_delete].
    + apply before_snoc; [done|]. intros [= ->]. apply Hw.
      by eapply list_elem_of_lookup_2.
Qed.

(** C7 (as amended).  Timeout of an [iDBPromise] race, with a timeout
    callback configured that completes.  When the timer fires first, the
    callback is called with the connection, the one store name and the
    configured timeout, while the promise is still pending; the rejection with
    the timeout error follows when the callback has completed, and the request
    is still outstanding.  In every run the timeout rejection comes after the
    callback's call and nothing is ever aborted.  The request may still
    complete after a rejection, and the promise stays rejected as it was,
    then and ever after.  A late success is discarded: it suspends nothing and
    calls no callback, the late [resolve] is all it logs.  A late error is
    not: its handler calls the error callback with the request's error, if one
    is configured, and suspends its [reject] behind it; without a callback it
    calls [reject] at once. *)
Theorem iDBPromise_timeout_calls_back_without_abort cb :
  callback config onTransactionTimeout = Some cb →
  cb db [storeName] (cfg_transactionTimeout config) = Returns tt →
  (∃ s1 s2,
     step iDBPromise TimerFires = Some s1 ∧
     log (race s1) = [timeout_call] ∧ settled (race s1) = Pending ∧
     request_done s1 = false ∧
     step s1 (Resume 0) = Some s2 ∧
     log (race s2) = [timeout_call; CallReject TransactionTimeout] ∧
     settled (race s2) = Rejected TransactionTimeout ∧
     request_done s2 = false) ∧
  (∀ schedule s, run iDBPromise schedule = Some s →
     before timeout_call (CallReject TransactionTimeout) (log (race s)) ∧
     calls is_abort (log (race s)) = 0%nat ∧
     (∀ e result, settled (race s) = Rejected e → request_done s = false →
        ∃ s', step s (RequestSuccess result) = Some s' ∧
              settled (race s') = Rejected e ∧
              waiting (race s') = waiting (race s) ∧
              log (race s') = log (race s) ++ [CallResolve] ∧
              ∀ rest s'', run s' rest = Some s'' → settled (race s'') = Rejected e) ∧
     (∀ e name, settled (race s) = Rejected e → request_done s = false →
        ∃ s', step s (RequestError name) = Some s' ∧
              settled (race s') = Rejected e ∧
              match callback config onError with
              | Some cbe =>
                  log (race s') = log (race s) ++ [CallOnError (Some (DOMException name))] ∧
                  waiting (race s') = waiting (race s) ++
                    match cbe (Some (DOMException name)) with
                    | Returns _ => [KReject (DOMException name)]
                    | Throws _ => []
                    end
              | None =>
                  log (race s') = log (race s) ++ [CallReject (DOMException name)] ∧
                  waiting (race s') = waiting (race s)
              end ∧
              ∀ rest s'', run s' rest = Some s'' → settled (race s'') = Rejected e)).
Proof.
  intros Hcb Hret. split.
  - simpl. unfold ontimeout, call_onTransactionTimeout. simpl. rewrite Hcb. simpl.
    rewrite Hret. simpl. eexists _, _. repeat split; reflexivity.
  - intros schedule s Hrun. split; [|split; [|split]].
    + eapply (op_run_invariant (op_order_inv config db storeName)) in Hrun as [_ Hb]; [done| |].
      * intros s0 ev s0'. by apply op_order_inv_step with cb.
      * split; [by intros ?%elem_of_nil | apply before_nil].
    + by apply op_reachable_inv in Hrun as (_ & _ & _ & Hab).
    + intros e result Hset Hrd.
      assert (Hstep : step s (RequestSuccess result) = Some (onsuccess result (deliver s)))
        by (simpl; by rewrite Hrd).
      eexists. split; [exact Hstep|].
      assert (Hset' : settled (race (onsuccess result (deliver s))) = Rejected e)
        by (simpl; by rewrite Hset).
      split; [done|]. split; [done|]. split; [done|].
      intros rest s'' Hrest. rewrite <- Hset'. apply (op_run_settled rest); [|done].
      by rewrite Hset'.
    + intros e name Hset Hrd.
      assert (Hstep : step s (RequestError name)
                      = Some (onerror config (DOMException name) (deliver s)))
        by (simpl; by rewrite Hrd).
      eexists. split; [exact Hstep|].
      assert (Hset' : settled (race (onerror config (DOMException name) (deliver s)))
                      = Rejected e).
      { erewrite op_step_settled; [exact Hset | exact Hstep | by rewrite Hset]. }
      split; [done|]. split.
      * unfold onerror, call_onError. simpl.
        destruct (callback config onError) as [cbe|]; simpl; [|done].
        destruct (cbe _); simpl; by rewrite ?app_nil_r.
      * intros rest s'' Hrest. rewrite <- Hset'. apply (op_run_settled rest); [|done].
        by rewrite Hset'.
Qed.
End operation_adapter.

(** ** [transaction] *)

Section transaction_coordinator.
Import TransactionCoordinator.
Variables (config : IndexedDBConfig) (db : connection) (storeNames : list string).
Local Abbreviation step := (TransactionCoordinator.step config db storeNames).
Local Abbreviation run := (TransactionCoordinator.run config db storeNames).
Local Abbreviation timeout_call :=
  (CallOnTransactionTimeout db storeNames (cfg_transactionTimeout config)).

Lemma tc_run_invariant (P : state → Prop) :
  (∀ s ev s', P s → step s ev = Some s' → P s') →
  ∀ schedule s s', P s → run s schedule = Some s' → P s'.
Proof.
  intros Hstep schedule. induction schedule as [|ev rest IH]; intros s s' HP; simpl.
  - by intros [= <-].
  - destruct (step s ev) as [s1|] eqn:Hs1; simpl; [|done]. eauto.
Qed.

Lemma tc_step_settled s ev s' :
  step s ev = Some s' → settled (done s) ≠ Pending → settled (done s') = settled (done s).
Proof.
  intros Hstep Hset. destruct ev as [| | | |name|i]; simpl in Hstep.
  - destruct (timer s); try done. injection Hstep as <-.
    unfold ontimeout. simpl. destruct (finished s); simpl; [done|].
    destruct (tx s); simpl; try done.
    etrans; [apply await_settled; [intros c'; apply reject_settled | done] | done].
  - destruct (tx s); try done. by injection Hstep as <-.
  - destruct (tx s); try done; injection Hstep as <-; simpl; by apply settle_final.
  - destruct (tx s); try done; injection Hstep as <-; simpl; apply await_yielding_settled.
  - destruct (tx s); try done; injection Hstep as <-; simpl;
      (apply await_settled; [intros c'; apply reject_settled | done]).
  - destruct (waiting (done s) !! i) as [k|]; simpl in Hstep; [|done].
    injection Hstep as <-. destruct k; simpl; by apply settle_final.
Qed.

Lemma tc_inv_step s ev s' : tc_inv s → step s ev = Some s' → tc_inv s'.
Proof.
  intros [Hfin Harm] Hstep. destruct ev as [| | | |name|i]; simpl in Hstep.
  - destruct (timer s) eqn:Ht; try done. injection Hstep as <-.
    unfold ontimeout. simpl. destruct (finished s) eqn:Hf; simpl.
    { split; simpl; done. }
    destruct (tx s); simpl; (split; simpl; done).
  - destruct (tx s) eqn:Htx; try done. injection Hstep as <-. split; simpl; [done|].
    intros Ht. destruct (Harm Ht) as (Hf & _ & Hd). split; [done|]. split; [by right | done].
  - destruct (tx s); try done; injection Hstep as <-; (split; simpl;
      [intros _; by destruct (timer s) | by destruct (timer s)]).
  - destruct (tx s); try done; injection Hstep as <-; (split; simpl;
      [intros _; by destruct (timer s) | by destruct (timer s)]).
  - destruct (tx s); try done; injection Hstep as <-; (split; simpl;
      [intros _; by destruct (timer s) | by destruct (timer s)]).
  - destruct (waiting (done s) !! i) as [k|] eqn:Hi; simpl in Hstep; [|done].
    injection Hstep as <-. split; simpl; [done|].
    intros Ht. destruct (Harm Ht) as (_ & _ & Hd). by rewrite Hd in Hi.
Qed.

Lemma tc_reachable_inv schedule s : run transaction schedule = Some s → tc_inv s.
Proof.
  apply tc_run_invariant; [apply tc_inv_step|]. split; [done|]. intros _. split; [done|].
  split; [by left | done].
Qed.

Lemma calls_await_reject {K A} p call (k : K) e (c : cell K A) eff0 :
  (∀ eff o, call = Some (eff, o) → eff = eff0) → p eff0 = false → p (CallReject e) = false →
  calls p (log (await call k (reject e) c)) = calls p (log c).
Proof.
  intros Hcall Heff Hrej. destruct call as [[eff [u|e']]|]; simpl.
  - rewrite (Hcall eff (Returns u)), calls_snoc, Heff by done. lia.
  - rewrite (Hcall eff (Throws e')), calls_snoc, Heff by done. lia.
  - rewrite calls_snoc, Hrej. lia.
Qed.

Lemma calls_await_yielding {K A} p call (k : K) (c : cell K A) eff0 :
  (∀ eff o, call = Some (eff, o) → eff = eff0) → p eff0 = false →
  calls p (log (await_yielding call k c)) = calls p (log c).
Proof.
  intros Hcall Heff. destruct call as [[eff [u|e']]|]; simpl.
  - rewrite (Hcall eff (Returns u)), calls_snoc, Heff by done. lia.
  - rewrite (Hcall eff (Throws e')), calls_snoc, Heff by done. lia.
  - done.
Qed.

(** Once the timer is not armed, no step aborts or calls the timeout callback. *)
Lemma tc_timer_dead_step s ev s' :
  timer s ≠ Armed → step s ev = Some s' →
  timer s' ≠ Armed ∧
  calls is_timeout_effect (log (done s')) = calls is_timeout_effect (log (done s)).
Proof.
  intros Ht Hstep. destruct ev as [| | | |name|i]; simpl in Hstep.
  - by destruct (timer s).
  - destruct (tx s); try done. by injection Hstep as <-.
  - destruct (tx s); try done; injection Hstep as <-; simpl;
      (split; [by destruct (timer s)|]); rewrite calls_snoc; simpl; lia.
  - destruct (tx s); try done; injection Hstep as <-; simpl;
      (split; [by destruct (timer s)|]);
      apply (calls_await_yielding _ _ _ _ (CallOnError (tx_error s))); try done;
      intros eff o; apply call_onError_effect.
  - destruct (tx s); try done; injection Hstep as <-; simpl;
      (split; [by destruct (timer s)|]);
      apply (calls_await_reject _ _ _ _ _ (CallOnError (DOMException <$> name))); try done;
      intros eff o; apply call_onError_effect.
  - destruct (waiting (done s) !! i) as [k|]; simpl in Hstep; [|done].
    injection Hstep as <-. simpl. split; [done|].
    destruct k; simpl; rewrite calls_snoc; simpl; lia.
Qed.

Lemma tc_timer_dead_run schedule s s' :
  timer s ≠ Armed → run s schedule = Some s' →
  calls is_timeout_effect (log (done s')) = calls is_timeout_effect (log (done s)).
Proof.
  revert s. induction schedule as [|ev rest IH]; intros s Ht; simpl.
  - by intros [= <-].
  - destruct (step s ev) as [s1|] eqn:Hs1; simpl; [|done].
    destruct (tc_timer_dead_step _ _ _ Ht Hs1) as [Ht1 Heq]. intros Hrun.
    rewrite <- Heq. by apply IH.
Qed.

(** Once the timer is not armed, nothing new rejects with the timeout error. *)
Lemma tc_no_timeout_step s ev s' :
  timer s ≠ Armed → tc_no_timeout s → step s ev = Some s' →
  timer s' ≠ Armed ∧ tc_no_timeout s'.
Proof.
  intros Ht (Hw & Hset & Herr) Hstep. unfold tc_no_timeout.
  assert (Hsnoc : ∀ l : list continuation,
            KReject TransactionTimeout ∉ l →
            KReject TransactionTimeout ∉ l ++ [KRejectTransactionError]).
  { intros l Hl. rewrite not_elem_of_app, not_elem_of_cons.
    split; [done|]. split; [done | apply not_elem_of_nil]. }
  assert (Hrej : ∀ (p : promise unit) e,
            p ≠ Rejected TransactionTimeout → e ≠ TransactionTimeout →
            settle p (Rejected e) ≠ Rejected TransactionTimeout).
  { intros p e Hp He. destruct p; simpl; congruence. }
  assert (Hdef : ∀ o : option error,
            o ≠ Some TransactionTimeout → default TransactionAborted o ≠ TransactionTimeout).
  { intros [e|] Ho; simpl; congruence. }
  destruct ev as [| | | |name|i]; simpl in Hstep.
  - by destruct (timer s).
  - destruct (tx s); try done. by injection Hstep as <-.
  - destruct (tx s); try done; injection Hstep as <-; simpl;
      (split; [by destruct (timer s)|]); (split; [done|]); (split; [|done]);
      by destruct (settled (done s)).
  - destruct (tx s); try done; injection Hstep as <-; simpl;
      (split; [by destruct (timer s)|]);
      destruct (call_onError config (tx_error s)) as [[eff [u|e]]|]; simpl; auto.
  - assert (Hname : DOMException <$> name ≠ Some TransactionTimeout) by (by destruct name).
    destruct (tx s); try done; injection Hstep as <-; simpl;
      (split; [by destruct (timer s)|]);
      destruct (call_onError config (DOMException <$> name)) as [[eff [u|e]]|]; simpl; auto.
  - destruct (waiting (done s) !! i) as [k|] eqn:Hi; simpl in Hstep; [|done].
    injection Hstep as <-. simpl. split; [done|]. split; [|split; [|done]].
    + intros Hin. apply Hw. destruct k; simpl in Hin;
        (eapply elem_of_sublist; [exact Hin | apply sublist_delete]).
    + destruct k as [e|]; simpl.
      * apply Hrej; [done|]. intros ->. apply Hw. by eapply list_elem_of_lookup_2.
      * apply Hrej; auto.
Qed.

Lemma tc_no_timeout_run schedule : ∀ s s',
  timer s ≠ Armed → tc_no_timeout s → run s schedule = Some s' →
  settled (done s') ≠ Rejected TransactionTimeout.
Proof.
  induction schedule as [|ev rest IH]; intros s s' Ht Hno; simpl.
  - intros [= <-]. by destruct Hno as (_ & Hset & _).
  - destruct (step s ev) as [s1|] eqn:Hs1; simpl; [|done].
    destruct (tc_no_timeout_step _ _ _ Ht Hno Hs1) as [Ht1 Hno1]. by apply IH.
Qed.

(** C5, on the code.  Timeout of a transaction.  On a transaction that is
    still active the timer does what the claim says: the coordinator aborts
    the transaction, then calls the timeout callback (if one is configured)
    with the connection, the store names and the timeout, and calls [reject]
    with the timeout error once the callback has completed, at once when there
    is no callback and on resumption otherwise.

    The engine may have begun to commit the transaction when the timer fires,
    [complete] being still to come: [finished] is not set yet, the guard lets
    the callback through, and [transaction.abort()] throws.  Then nothing is
    aborted, the timeout callback is not called and [reject] is not called, in
    that turn or in any later one; [done] is never rejected with the timeout
    error, and the [complete] that follows fulfils it.

    In every run: [done], once settled, is never changed; the suspended timeout
    rejection, resumed while [done] is still pending, rejects it with the
    timeout error; while the timer is armed [finished] is not set and the
    transaction is active or committing; and once [finished] is set the timer
    cannot fire, nothing is aborted and no timeout callback is called from then
    on. *)
Theorem transaction_timeout_misses_a_committing_transaction :
  (∃ s1, step transaction TimerFires = Some s1 ∧ tx s1 = Aborting ∧
     match call_onTransactionTimeout config db storeNames with
     | None =>
         log (done s1) = [CallAbort; CallReject TransactionTimeout] ∧
         settled (done s1) = Rejected TransactionTimeout
     | Some (eff, Returns _) =>
         eff = timeout_call ∧
         log (done s1) = [CallAbort; eff] ∧ settled (done s1) = Pending ∧
         ∃ s2, step s1 (Resume 0) = Some s2 ∧
               log (done s2) = [CallAbort; eff; CallReject TransactionTimeout] ∧
               settled (done s2) = Rejected TransactionTimeout
     | Some (eff, Throws _) =>
         eff = timeout_call ∧
         log (done s1) = [CallAbort; eff] ∧ settled (done s1) = Pending ∧
         waiting (done s1) = []
     end) ∧
  (∃ s1 s2 s3,
     step transaction CommitBegins = Some s1 ∧
     finished s1 = false ∧ timer s1 = Armed ∧ tx s1 = Committing ∧
     step s1 TimerFires = Some s2 ∧
     tx s2 = Committing ∧ log (done s2) = [] ∧ waiting (done s2) = [] ∧
     settled (done s2) = Pending ∧
     (∀ rest s', run s2 rest = Some s' →
        calls is_timeout_effect (log (done s')) = 0%nat ∧
        settled (done s') ≠ Rejected TransactionTimeout) ∧
     step s2 Complete = Some s3 ∧
     settled (done s3) = Fulfilled tt ∧ log (done s3) = [CallResolve]) ∧
  (∀ schedule s, run transaction schedule = Some s →
     (∀ ev s', step s ev = Some s' → settled (done s) ≠ Pending →
               settled (done s') = settled (done s)) ∧
     (∀ i, waiting (done s) !! i = Some (KReject TransactionTimeout) →
           settled (done s) = Pending →
           ∃ s', step s (Resume i) = Some s' ∧
                 settled (done s') = Rejected TransactionTimeout) ∧
     (timer s = Armed → finished s = false ∧ (tx s = Active ∨ tx s = Committing)) ∧
     (finished s = true → step s TimerFires = None) ∧
     (finished s = true → ∀ rest s', run s rest = Some s' →
        calls is_timeout_effect (log (done s')) = calls is_timeout_effect (log (done s)))).
Proof.
  split; [|split].
  - eexists. split; [reflexivity|]. split; [reflexivity|]. simpl.
    destruct (call_onTransactionTimeout config db storeNames) as [[eff [u|e]]|] eqn:Hcall;
      simpl; try (apply call_onTransactionTimeout_effect in Hcall as ->).
    + repeat split. eexists. repeat split.
    + repeat split.
    + repeat split.
  - eexists _, _, _. split; [reflexivity|]. repeat (split; [reflexivity|]).
    split; [|by repeat split].
    intros rest s' Hrun. split.
    + apply tc_timer_dead_run in Hrun as ->; done.
    + eapply tc_no_timeout_run; [| |exact Hrun]; [done|].
      split; [apply not_elem_of_nil | by split].
  - intros schedule s Hrun.
    destruct (tc_reachable_inv _ _ Hrun) as [Hfin Harm].
    split; [intros ev s'; apply tc_step_settled|]. split; [|split; [|split]].
    + intros i Hi Hset. simpl. rewrite Hi. simpl. eexists. split; [done|].
      simpl. by rewrite Hset.
    + intros (Hf & Htx & _)%Harm. by split.
    + intros Hf%Hfin. simpl. by destruct (timer s).
    + intros Hf%Hfin rest s'. by apply tc_timer_dead_run.
Qed.
End transaction_coordinator.

(** ** [iDBCursorPromise] *)

Section cursor_adapter.
Import CursorAdapter.
Context (config : IndexedDBConfig) {Cursor : Type} (f : Cursor → value).
Local Abbreviation step := (CursorAdapter.step config Cursor f).
Local Abbreviation run := (CursorAdapter.run config Cursor f).
Local Abbreviation start := (CursorAdapter.iDBCursorPromise).

Lemma collected_snoc cursors c :
  collected f (cursors ++ [c]) =
  if truthy (f c) then collected f cursors ++ [f c] else collected f cursors.
Proof.
  unfold collected. rewrite fmap_app, filter_app.
  change (f <$> [c]) with [f c]. destruct (truthy (f c)) eqn:Ht.
  - by rewrite filter_cons_True.
  - rewrite filter_cons_False by (by rewrite Ht). apply app_nil_r.
Qed.

Lemma cursor_step_timeout_free s ev s' :
  step s ev = Some s' →
  calls is_timeout_effect (log (race s')) = calls is_timeout_effect (log (race s)).
Proof.
  intros Hstep. destruct ev as [[c|]|name|i]; simpl in Hstep.
  - destruct (expecting s); [|done]. injection Hstep as <-. simpl.
    rewrite calls_snoc. simpl. lia.
  - destruct (expecting s); [|done]. injection Hstep as <-. simpl.
    rewrite calls_snoc. simpl. lia.
  - destruct (expecting s); [|done]. injection Hstep as <-. simpl.
    destruct (call_onError config (Some (DOMException name))) as [[eff [u|e]]|] eqn:Hcall;
      try (apply call_onError_effect in Hcall as ->); simpl;
      rewrite calls_snoc; simpl; lia.
  - destruct (waiting (race s) !! i) as [[e]|]; simpl in Hstep; [|done].
    injection Hstep as <-. simpl. rewrite calls_snoc. simpl. lia.
Qed.

Lemma cursor_inv_step history s ev s' :
  cursor_inv f history s → step s ev = Some s' → cursor_inv f (history ++ [ev]) s'.
Proof.
  intros (Hdata & Hfree & Hphase) Hstep. unfold cursor_inv, visited. rewrite omap_app.
  rewrite (cursor_step_timeout_free _ _ _ Hstep). simpl.
  destruct Hphase as [Hexp Hset Hwait Hno | Hexp Hset Hwait Hno | name Hexp Hset Hwait Hone].
  - destruct ev as [[c|]|name|i]; simpl in Hstep; rewrite ?Hexp, ?Hwait in Hstep;
      try done; injection Hstep as <-; simpl.
    + split; [|split; [done|]].
      * fold (visited Cursor history). by rewrite collected_snoc, <- Hdata.
      * apply walking; simpl; try done.
        intros name [H|H%list_elem_of_singleton]%elem_of_app; [by eapply Hno | done].
    + rewrite app_nil_r. split; [done|]. split; [done|]. apply exhausted; simpl; try done.
      * by rewrite Hset.
      * intros name [H|H%list_elem_of_singleton]%elem_of_app; [by eapply Hno | done].
    + rewrite app_nil_r. split; [done|]. split; [done|].
      apply (failed _ _ name); simpl; try done.
      * destruct (call_onError config (Some (DOMException name))) as [[eff [u|e]]|];
          simpl; rewrite ?Hset; auto.
      * destruct (call_onError config (Some (DOMException name))) as [[eff [u|e]]|];
          simpl; rewrite ?Hwait; simpl.
        -- by intros k ->%list_elem_of_singleton.
        -- by intros k ?%elem_of_nil.
        -- by intros k ?%elem_of_nil.
      * intros name' [H|H%list_elem_of_singleton]%elem_of_app;
          [by apply Hno in H | congruence].
  - destruct ev as [[c|]|name|i]; simpl in Hstep; rewrite ?Hexp, ?Hwait in Hstep; done.
  - destruct ev as [[c|]|name'|i]; simpl in Hstep; rewrite ?Hexp in Hstep; try done.
    destruct (waiting (race s) !! i) as [k|] eqn:Hi; simpl in Hstep; [|done].
    injection Hstep as <-. simpl. rewrite app_nil_r. split; [done|]. split; [done|].
    assert (k = KReject (DOMException name)) as ->
      by (apply Hwait; by eapply list_elem_of_lookup_2).
    apply (failed _ _ name); simpl; try done.
    + destruct Hset as [-> | ->]; simpl; auto.
    + intros k Hk. apply Hwait. eapply elem_of_sublist; [exact Hk | apply sublist_delete].
    + intros name' [H|H%list_elem_of_singleton]%elem_of_app; [auto | done].
Qed.

Lemma cursor_inv_run schedule : ∀ history s s',
  cursor_inv f history s → run s schedule = Some s' → cursor_inv f (history ++ schedule) s'.
Proof.
  induction schedule as [|ev rest IH]; intros history s s' Hinv; simpl.
  - intros [= <-]. by rewrite app_nil_r.
  - destruct (step s ev) as [s1|] eqn:Hs1; simpl; [|done]. intros Hrun.
    rewrite (cons_middle ev), app_assoc. eapply IH; [|exact Hrun].
    by eapply cursor_inv_step.
Qed.

Lemma cursor_inv_start : cursor_inv f [] start.
Proof.
  split; [done|]. split; [done|]. apply walking; try done.
  intros name ?%elem_of_nil. done.
Qed.

Lemma cursor_run_app schedule1 schedule2 s :
  run s (schedule1 ++ schedule2) = s' ← run s schedule1; run s' schedule2.
Proof.
  revert s. induction schedule1 as [|ev rest IH]; intros s; simpl; [done|].
  destruct (step s ev); simpl; [apply IH | done].
Qed.

(** Walking over the cursors the engine yields. *)
Lemma run_steps cursors : ∀ s,
  expecting s = true →
  ∃ s', run s (steps cursors) = Some s' ∧ expecting s' = true ∧
        data s' = data s ++ collected f cursors ∧
        settled (race s') = settled (race s) ∧ waiting (race s') = waiting (race s) ∧
        log (race s') = log (race s) ++ replicate (length cursors) CallContinue.
Proof.
  induction cursors as [|c cursors IH]; intros s Hexp; simpl.
  - exists s. by rewrite !app_nil_r.
  - rewrite Hexp. simpl.
    destruct (IH (onsuccess Cursor f (Some c) s))
      as (s' & Hrun & Hexp' & Hdata & Hset & Hw & Hlog); [done|].
    exists s'. split; [done|]. split; [done|]. split; [|split; [done|split; [done|]]].
    + rewrite Hdata. simpl. unfold collected at 2. rewrite fmap_cons.
      destruct (truthy (f c)) eqn:Ht.
      * rewrite filter_cons_True by done. by rewrite <- app_assoc.
      * by rewrite filter_cons_False by (by rewrite Ht).
    + rewrite Hlog. simpl. by rewrite <- app_assoc.
Qed.

(** C8.  The cursor adapter.  When the engine yields the cursors of a
    traversal and then signals exhaustion, the promise resolves with the
    transform's results in traversal order, the falsy ones dropped.  When it
    signals an error after any number of steps, the error callback (if
    configured) is called with that error and the promise is rejected with it:
    at once without a callback, on resumption once the callback has completed.
    And in every run the data gathered are the results for all the cursors
    delivered so far, a fulfilled promise holds exactly those and no error was
    delivered, and after an error the promise is pending or rejected with that
    error: no partial sequence is ever delivered. *)
Theorem iDBCursorPromise_collects :
  (∀ cursors, ∃ s,
     run start (steps cursors ++ [RequestSuccess Cursor None]) = Some s ∧
     settled (race s) = Fulfilled (collected f cursors)) ∧
  (∀ cursors name, ∃ s,
     run start (steps cursors ++ [RequestError Cursor name]) = Some s ∧
     match call_onError config (Some (DOMException name)) with
     | None =>
         settled (race s) = Rejected (DOMException name) ∧
         log (race s) =
           replicate (length cursors) CallContinue ++ [CallReject (DOMException name)]
     | Some (eff, Returns _) =>
         eff = CallOnError (Some (DOMException name)) ∧
         log (race s) = replicate (length cursors) CallContinue ++ [eff] ∧
         settled (race s) = Pending ∧
         ∃ s', step s (Resume Cursor 0) = Some s' ∧
               settled (race s') = Rejected (DOMException name)
     | Some (eff, Throws _) =>
         eff = CallOnError (Some (DOMException name)) ∧
         log (race s) = replicate (length cursors) CallContinue ++ [eff] ∧
         settled (race s) = Pending
     end) ∧
  (∀ schedule s, run start schedule = Some s →
     data s = collected f (visited Cursor schedule) ∧
     (∀ d, settled (race s) = Fulfilled d →
           d = collected f (visited Cursor schedule) ∧
           ∀ name, RequestError Cursor name ∉ schedule) ∧
     (∀ name, RequestError Cursor name ∈ schedule →
           settled (race s) = Pending ∨ settled (race s) = Rejected (DOMException name))).
Proof.
  split; [|split].
  - intros cursors.
    destruct (run_steps cursors start) as (s1 & Hrun & Hexp & Hdata & Hset & _); [done|].
    eexists. rewrite cursor_run_app, Hrun. simpl. rewrite Hexp. simpl. split; [done|].
    simpl. by rewrite Hset, Hdata.
  - intros cursors name.
    destruct (run_steps cursors start) as (s1 & Hrun & Hexp & _ & Hset & Hw & Hlog); [done|].
    eexists. rewrite cursor_run_app, Hrun. simpl. rewrite Hexp. simpl. split; [done|].
    unfold onerror. simpl. simpl in Hlog, Hset, Hw.
    destruct (call_onError config (Some (DOMException name))) as [[eff [u|e]]|] eqn:Hcall;
      try (apply call_onError_effect in Hcall as ->); simpl; rewrite Hlog, Hset, ?Hw.
    + repeat split. eexists. split; [reflexivity|]. simpl. by rewrite Hset.
    + done.
    + done.
  - intros schedule s Hrun.
    apply (cursor_inv_run schedule [] start s cursor_inv_start) in Hrun
      as (Hdata & _ & Hphase).
    simpl in *. split; [done|]. split.
    + intros d Hd. destruct Hphase as [_ Hset _ _ | _ Hset _ Hno | name _ Hset _ _].
      * congruence.
      * split; [congruence | done].
      * destruct Hset; congruence.
    + intros name Hin. destruct Hphase as [_ _ _ Hno | _ _ _ Hno | name' _ Hset _ Hone].
      * by apply Hno in Hin.
      * by apply Hno in Hin.
      * by rewrite (Hone name Hin).
Qed.

(** C6, on the code.  The cursor operations of [useStore] go through
    [iDBCursorPromise], every other operation through [iDBPromise].  A request
    bridged by [iDBPromise] is raced against an armed timer.  A cursor request
    is not: there is no timer event to deliver; whatever the engine signals, or
    fails to signal, the promise is never rejected with the timeout error,
    the timeout callback is never called and nothing is aborted; and as long
    as the engine stays silent the promise stays pending. *)
Theorem cursor_operations_never_time_out :
  (∀ op, snd (useStore op) = ViaIDBCursorPromise ↔ op = OpOpenCursor ∨ op = OpOpenKeyCursor) ∧
  (∀ db storeName,
     OperationAdapter.timer OperationAdapter.iDBPromise = Armed ∧
     is_Some (OperationAdapter.step config db storeName OperationAdapter.iDBPromise
                OperationAdapter.TimerFires)) ∧
  (∀ schedule s, run start schedule = Some s →
     settled (race s) ≠ Rejected TransactionTimeout ∧
     calls is_timeout_effect (log (race s)) = 0%nat) ∧
  settled (race start) = Pending.
Proof.
  split; [|split; [|split]].
  - intros op. split.
    + destruct op; simpl; intros [=]; auto.
    + by intros [-> | ->].
  - intros db storeName. split; [done|]. simpl. eauto.
  - intros schedule s Hrun.
    apply (cursor_inv_run schedule [] start s cursor_inv_start) in Hrun
      as (_ & Hfree & Hphase).
    split; [|done].
    destruct Hphase as [_ Hset _ _ | _ Hset _ _ | name _ [Hset|Hset] _ _];
      rewrite Hset; done.
  - done.
Qed.
End cursor_adapter.

(** ** [onupgradeneeded] *)

Lemma run_migrations_logs_only oldVersion newVersion ms :
  logs_only (λ eff, ∃ v, eff = CallMigration oldVersion newVersion v)
            (run_migrations oldVersion newVersion ms).
Proof.
  unfold run_migrations, run_migration.
  repeat (logs_only_step || match goal with |- logs_only _ (match ?x with _ => _ end) => destruct x end).
  apply logs_only_emit. eauto.
Qed.

Lemma logs_only_weaken (P Q : effect → Prop) {A} (c : Upgrade A) :
  (∀ eff, P eff → Q eff) → logs_only P c → logs_only Q c.
Proof.
  intros HPQ Hc w. destruct (Hc w) as (l & Hl & HP). exists l. split; [done|].
  by eapply Forall_impl.
Qed.

Lemma await_callback_logs_only (P : effect → Prop) call :
  (∀ eff o, call = Some (eff, o) → P eff) → logs_only P (await_callback call).
Proof.
  intros HP. destruct call as [[eff [u|e]]|]; simpl.
  - apply logs_only_emit. by eapply HP.
  - apply logs_only_bind; [apply logs_only_emit; by eapply HP | intros _; apply logs_only_throw].
  - apply logs_only_ret.
Qed.

Lemma await_callback_db call w : w_db (snd (await_callback call w)) = w_db w.
Proof. by destruct call as [[eff [u|e]]|]. Qed.

Lemma upgrade_start_logs_only (P : effect → Prop) config oldVersion newVersion :
  P (CallOnUpgradeStart oldVersion newVersion) →
  logs_only P (upgrade_start config oldVersion newVersion).
Proof.
  intros HP. apply await_callback_logs_only. intros eff o.
  destruct (callback config onUpgradeStart); simpl; [|done]. by intros [= <- _].
Qed.

Lemma upgrade_end_logs_only (P : effect → Prop) config oldVersion newVersion :
  P (CallOnUpgradeEnd oldVersion newVersion) →
  logs_only P (upgrade_end config oldVersion newVersion).
Proof.
  intros HP. apply await_callback_logs_only. intros eff o.
  destruct (callback config onUpgradeEnd); simpl; [|done]. by intros [= <- _].
Qed.

Lemma onupgradeneeded_body config event w :
  snd (onupgradeneeded config event w) =
  upgrade_body config (ev_oldVersion event)
               (default (cfg_version config) (ev_newVersion event)) w.
Proof.
  unfold onupgradeneeded, upgrade_body, bind.
  destruct (upgrade_start _ _ _ w) as [[[]|e] w1]; [|done].
  by destruct (cfg_migrations config).
Qed.

Lemma upgrade_body_logs_only config oldVersion newVersion :
  logs_only (λ eff, is_open eff = false ∧
                    (is_Some (cfg_migrations config) → is_structural eff = false))
            (upgrade_body config oldVersion newVersion).
Proof.
  unfold upgrade_body.
  apply logs_only_bind; [by apply upgrade_start_logs_only | intros _].
  apply logs_only_bind; [|intros _; by apply upgrade_end_logs_only].
  destruct (cfg_migrations config) as [ms|].
  - eapply logs_only_weaken; [|apply run_migrations_logs_only]. by intros eff [v ->].
  - eapply logs_only_weaken; [|apply synchronize_logs_only].
    intros eff Heff. split; [by destruct eff | by intros []].
Qed.

Lemma filter_log_app (p : effect → bool) l l' :
  Forall (λ eff, p eff = false) l' → List.filter p (l ++ l') = List.filter p l.
Proof.
  intros Hl'. rewrite List.filter_app.
  induction Hl' as [|eff l' Heff _ IH]; simpl; [apply app_nil_r|]. by rewrite Heff.
Qed.

(** C2 (as amended).  Which reconciliation an upgrade runs.  When
    [migrations] is absent the handler is the synchroniser, between the two
    upgrade callbacks.  When [migrations] is an array, the empty one included,
    the synchroniser does not run: the handler logs no structural call of its
    own, and if no migration applies the structure is left as it was. *)
Theorem synchroniser_runs_iff_migrations_absent
    (config : IndexedDBConfig) (event : IDBVersionChangeEvent) (w : world) :
  let oldVersion := ev_oldVersion event in
  let newVersion := default (cfg_version config) (ev_newVersion event) in
  let w' := snd (snd (onupgradeneeded config event w)) in
  (cfg_migrations config = None →
     snd (onupgradeneeded config event w) =
       (upgrade_start config oldVersion newVersion ;;;
        synchronize (cfg_stores config) ;;;
        upgrade_end config oldVersion newVersion) w) ∧
  (∀ ms, cfg_migrations config = Some ms →
     List.filter is_structural (w_log w') = List.filter is_structural (w_log w) ∧
     ((∀ m, m ∈ ms → applies oldVersion newVersion m = false) → w_db w' = w_db w)).
Proof.
  cbv zeta. rewrite onupgradeneeded_body.
  generalize (ev_oldVersion event) (default (cfg_version config) (ev_newVersion event)).
  intros oldVersion newVersion. split.
  - intros Hnone. unfold upgrade_body. by rewrite Hnone.
  - intros ms Hms. split.
    + destruct (upgrade_body_logs_only config oldVersion newVersion w) as (l & -> & Hl).
      apply filter_log_app. eapply Forall_impl; [exact Hl|].
      intros eff [_ Hs]. apply Hs. by rewrite Hms.
    + intros Hnone. unfold upgrade_body. rewrite Hms. unfold bind.
      pose proof (await_callback_db
        ((λ cb, (CallOnUpgradeStart oldVersion newVersion, cb oldVersion newVersion))
           <$> callback config onUpgradeStart) w) as Hdb1.
      fold (upgrade_start config oldVersion newVersion) in Hdb1.
      destruct (upgrade_start config oldVersion newVersion w) as [[[]|e] w1]; [|done].
      rewrite run_migrations_in_sequence.
      assert (Hfil : filter (λ m, applies oldVersion newVersion m = true)
                            (array_sort by_version ms) = []).
      { apply Permutation_nil_r. rewrite (array_sort_Permutation version).
        apply Permutation_nil_r.
        clear -Hnone. induction ms as [|m ms IH]; [done|].
        rewrite filter_cons_False.
        - apply IH. intros m' Hm'. apply Hnone. by right.
        - rewrite Hnone; [done | by left]. }
      rewrite Hfil. simpl.
      unfold upgrade_end. rewrite await_callback_db. done.
Qed.

(** ** [openIndexedDB] *)

Lemma by_version_sort_idem ms :
  array_sort by_version (array_sort by_version ms) = array_sort by_version ms.
Proof. apply (array_sort_idem version), (array_sort_sorted version). Qed.

Lemma upgrade_start_result config oldVersion newVersion w :
  (∀ cb, callback config onUpgradeStart = Some cb → ∃ u, cb oldVersion newVersion = Returns u) →
  fst (upgrade_start config oldVersion newVersion w) = Returns tt.
Proof.
  intros Hret. unfold upgrade_start.
  destruct (callback config onUpgradeStart) as [cb|]; simpl; [|done].
  destruct (Hret cb eq_refl) as [[] ->]. done.
Qed.

Lemma onupgradeneeded_config config event w :
  let config' := fst (onupgradeneeded config event w) in
  same_identity config config' ∧
  cfg_transactionTimeout config' = cfg_transactionTimeout config ∧
  (cfg_migrations config' = cfg_migrations config ∨
   cfg_migrations config' = sorted_migrations config) ∧
  (fst (upgrade_start config (ev_oldVersion event)
          (default (cfg_version config) (ev_newVersion event)) w) = Returns tt →
   cfg_migrations config' = sorted_migrations config).
Proof.
  unfold onupgradeneeded, sorted_migrations, same_identity.
  destruct (upgrade_start _ _ _ w) as [[[]|e] w1]; simpl.
  - destruct (cfg_migrations config) as [ms|] eqn:Hms; simpl; rewrite ?Hms;
      (split; [done|]); (split; [done|]); split; auto.
  - (split; [done|]); (split; [done|]); split; [by left | done].
Qed.

Section lifecycle.
Import Lifecycle.
Variable conn : connection.
Local Abbreviation step := (Lifecycle.step conn).
Local Abbreviation run := (Lifecycle.run conn).

Lemma lc_step_config s ev s' :
  step s ev = Some s' →
  config s' = config s ∨
  ∃ oldVersion newVersion,
    ev = UpgradeNeeded oldVersion newVersion ∧
    config s' = fst (onupgradeneeded (config s)
                       {| ev_oldVersion := oldVersion; ev_newVersion := newVersion |}
                       {| w_db := db s; w_log := log (open s) |}).
Proof.
  intros Hstep. destruct ev as [name|o n|o n| |o n|i]; simpl in Hstep.
  - destruct (request_done s); [done|]. injection Hstep as <-. by left.
  - destruct (request_done s); [done|]. injection Hstep as <-. left.
    unfold onblocked. destruct (callback (config s) onBlocked) as [cb|]; [|done].
    by destruct (cb _ _).
  - destruct (request_done s); [done|]. injection Hstep as <-. right.
    exists o, n. split; [done|]. unfold onupgradeneeded_handler.
    by destruct (onupgradeneeded _ _ _) as [c' [r w']].
  - destruct (request_done s); [done|]. injection Hstep as <-. by left.
  - destruct (opened s); [|done]. injection Hstep as <-. by left.
  - destruct (waiting (open s) !! i); simpl in Hstep; [|done]. injection Hstep as <-. by left.
Qed.

Lemma frame_inv_step c history s ev s' :
  frame_inv c history s → step s ev = Some s' → frame_inv c (history ++ [ev]) s'.
Proof.
  intros (Hid & Htt & Hmig & Hnone & Hsome) Hstep. unfold frame_inv.
  destruct (lc_step_config _ _ _ Hstep) as [Hc | (o & n & -> & Hc)]; rewrite Hc.
  - split; [done|]. split; [done|]. split; [done|]. split.
    + intros Hno. apply Hnone. intros o n Hin. apply (Hno o n), elem_of_app. by left.
    + intros Hret (o & n & [Hin|Hin%list_elem_of_singleton]%elem_of_app).
      * apply Hsome; eauto.
      * subst ev. simpl in Hstep. destruct (request_done s); [done|].
        injection Hstep as <-. unfold onupgradeneeded_handler in Hc.
        destruct (onupgradeneeded _ _ _) as [c' [r w']] eqn:Hup. simpl in Hc.
        pose proof (onupgradeneeded_config (config s)
          {| ev_oldVersion := o; ev_newVersion := n |}
          {| w_db := db s; w_log := log (open s) |}) as (_ & _ & _ & Hs).
        rewrite Hup in Hs. simpl in Hs. rewrite Hc in Hs.
        assert (Hmig' : sorted_migrations (config s) = sorted_migrations c).
        { unfold sorted_migrations. destruct Hmig as [-> | ->]; [done|].
          unfold sorted_migrations. destruct (cfg_migrations c); simpl; [|done].
          by rewrite by_version_sort_idem. }
        rewrite <- Hmig'. apply Hs, upgrade_start_result. intros cb Hcb.
        apply Hret. destruct Hid as (_ & _ & _ & Hev). unfold callback in *.
        by rewrite <- Hev.
  - pose proof (onupgradeneeded_config (config s)
      {| ev_oldVersion := o; ev_newVersion := n |}
      {| w_db := db s; w_log := log (open s) |}) as ((H1 & H2 & H3 & H4) & Htt' & Hmig' & Hs).
    simpl in *. destruct Hid as (I1 & I2 & I3 & I4).
    assert (Hsorted : sorted_migrations (config s) = sorted_migrations c).
    { unfold sorted_migrations. destruct Hmig as [-> | ->]; [done|].
      unfold sorted_migrations. destruct (cfg_migrations c); simpl; [|done].
      by rewrite by_version_sort_idem. }
    split; [by repeat split; congruence|]. split; [congruence|]. split; [|split].
    + destruct Hmig' as [-> | ->]; [done | right; done].
    + intros Hno. exfalso. apply (Hno o n), elem_of_app. right. by left.
    + intros Hret _. rewrite <- Hsorted. apply Hs, upgrade_start_result.
      intros cb Hcb. apply Hret. unfold callback in *. by rewrite <- I4.
Qed.

Lemma frame_inv_run c schedule : ∀ history s s',
  frame_inv c history s → run s schedule = Some s' → frame_inv c (history ++ schedule) s'.
Proof.
  induction schedule as [|ev rest IH]; intros history s s' Hinv; simpl.
  - intros [= <-]. by rewrite app_nil_r.
  - destruct (step s ev) as [s1|] eqn:Hs1; simpl; [|done]. intros Hrun.
    rewrite (cons_middle ev), app_assoc. eapply IH; [|exact Hrun].
    by eapply frame_inv_step.
Qed.

(** C10 (as amended).  What [openIndexedDB] does to the caller's
    configuration.  After any run of the open request, [name], [version],
    [stores] and [events] are as supplied; [transactionTimeout] is the supplied
    value, or 5000 when it was absent; [migrations] is as supplied or sorted.
    It is as supplied when no upgrade was needed, and sorted (in place,
    ascending by version, a permutation of the supplied array) when an upgrade
    ran and the upgrade-start callback completed. *)
Theorem openIndexedDB_mutates_config c stored schedule s :
  run (openIndexedDB c stored) schedule = Some s →
  same_identity c (config s) ∧
  cfg_transactionTimeout (config s) = Some (default 5000 (cfg_transactionTimeout c)) ∧
  (cfg_migrations (config s) = cfg_migrations c ∨
   cfg_migrations (config s) = sorted_migrations c) ∧
  ((∀ o n, UpgradeNeeded o n ∉ schedule) → cfg_migrations (config s) = cfg_migrations c) ∧
  (upgrade_start_returns c → (∃ o n, UpgradeNeeded o n ∈ schedule) →
   cfg_migrations (config s) = sorted_migrations c) ∧
  (∀ ms, cfg_migrations c = Some ms →
     array_sort by_version ms ≡ₚ ms ∧ StronglySorted version_le (array_sort by_version ms)).
Proof.
  intros Hrun.
  apply (frame_inv_run c schedule [] _ s) in Hrun.
  - destruct Hrun as (H1 & H2 & H3 & H4 & H5). simpl in *.
    repeat (split; [done|]). intros ms _. split.
    + apply (array_sort_Permutation version).
    + apply (array_sort_sorted version).
  - repeat split; simpl; auto. intros _ (o & n & []%elem_of_nil).
Qed.

Lemma lc_step_settled s ev s' :
  step s ev = Some s' → settled (open s) ≠ Pending → settled (open s') = settled (open s).
Proof.
  intros Hstep Hset. destruct ev as [name|o n|o n| |o n|i]; simpl in Hstep.
  - destruct (request_done s); [done|]. injection Hstep as <-. simpl.
    apply await_settled; [intros c'; apply reject_settled | done].
  - destruct (request_done s); [done|]. injection Hstep as <-.
    unfold onblocked. destruct (callback (config s) onBlocked) as [cb|]; simpl.
    + by destruct (cb _ _).
    + apply await_settled; [intros c'; apply reject_settled | done].
  - destruct (request_done s); [done|]. injection Hstep as <-.
    unfold onupgradeneeded_handler. by destruct (onupgradeneeded _ _ _) as [c' [r w']].
  - destruct (request_done s); [done|]. injection Hstep as <-. simpl. by apply settle_final.
  - destruct (opened s); [|done]. injection Hstep as <-. simpl.
    apply await_settled; [done | done].
  - destruct (waiting (open s) !! i) as [k|]; simpl in Hstep; [|done].
    injection Hstep as <-. destruct k; simpl.
    + by apply settle_final.
    + unfold error_then_reject.
      etrans; [apply await_settled; [intros c'; apply reject_settled | done] | done].
    + done.
Qed.

Lemma calls_await p {K A} call (k : K) rest (c : cell K A) :
  (∀ eff o, call = Some (eff, o) → p eff = false) →
  (∀ c', calls p (log (rest c')) = calls p (log c')) →
  calls p (log (await call k rest c)) = calls p (log c).
Proof.
  intros Hcall Hrest. destruct call as [[eff [u|e']]|]; simpl.
  - rewrite calls_snoc, (Hcall eff (Returns u)) by done. lia.
  - rewrite calls_snoc, (Hcall eff (Throws e')) by done. lia.
  - apply Hrest.
Qed.

Lemma lc_step_open_calls s ev s' :
  step s ev = Some s' → calls is_open (log (open s')) = calls is_open (log (open s)).
Proof.
  assert (Hrej : ∀ e (c' : cell continuation connection),
            calls is_open (log (reject e c')) = calls is_open (log c')).
  { intros e c'. simpl. rewrite calls_snoc. simpl. lia. }
  assert (Herr : ∀ cfg e eff o, call_onError cfg e = Some (eff, o) → is_open eff = false).
  { intros cfg e eff o ->%call_onError_effect. done. }
  intros Hstep. destruct ev as [name|o n|o n| |o n|i]; simpl in Hstep.
  - destruct (request_done s); [done|]. injection Hstep as <-. simpl.
    apply calls_await; [apply Herr | apply Hrej].
  - destruct (request_done s); [done|]. injection Hstep as <-.
    unfold onblocked. destruct (callback (config s) onBlocked) as [cb|]; simpl.
    + destruct (cb _ _); simpl; rewrite calls_snoc; simpl; lia.
    + apply calls_await; [apply Herr | apply Hrej].
  - destruct (request_done s); [done|]. injection Hstep as <-.
    unfold onupgradeneeded_handler.
    pose proof (onupgradeneeded_body (config s)
      {| ev_oldVersion := o; ev_newVersion := n |}
      {| w_db := db s; w_log := log (open s) |}) as Hbody.
    destruct (onupgradeneeded _ _ _) as [c' [r w']]. simpl in *.
    destruct (upgrade_body_logs_only (config s) o (default (cfg_version (config s)) n)
                {| w_db := db s; w_log := log (open s) |}) as (l & Hl & HP).
    rewrite <- Hbody in Hl. simpl in Hl. rewrite Hl. unfold calls.
    rewrite filter_log_app; [done|]. eapply Forall_impl; [exact HP|]. by intros eff [].
  - destruct (request_done s); [done|]. injection Hstep as <-. simpl.
    rewrite calls_snoc. simpl. lia.
  - destruct (opened s); [|done]. injection Hstep as <-. simpl.
    apply calls_await.
    + intros eff o'. destruct (callback (config s) onVersionChange); simpl; [|done].
      by intros [= <- _].
    + intros c'. simpl. rewrite calls_snoc. simpl. lia.
  - destruct (waiting (open s) !! i) as [k|]; simpl in Hstep; [|done].
    injection Hstep as <-. destruct k; simpl.
    + rewrite calls_snoc. simpl. lia.
    + unfold error_then_reject. rewrite calls_await; [done | apply Herr | apply Hrej].
    + rewrite calls_snoc. simpl. lia.
Qed.

Lemma lc_run_final s schedule s' e :
  run s schedule = Some s' → settled (open s) = Rejected e →
  settled (open s') = Rejected e ∧
  calls is_open (log (open s')) = calls is_open (log (open s)).
Proof.
  revert s. induction schedule as [|ev rest IH]; intros s; simpl.
  - by intros [= <-].
  - destruct (step s ev) as [s1|] eqn:Hs1; simpl; [|done]. intros Hrun Hset.
    assert (Hset1 : settled (open s1) = Rejected e).
    { erewrite lc_step_settled; [done | exact Hs1 | by rewrite Hset]. }
    destruct (IH s1 Hrun Hset1) as [-> ->]. split; [done|]. by eapply lc_step_open_calls.
Qed.

(** A blocked open whose callbacks complete in time.  With callbacks that
    complete, and resumed before the engine signals anything else, the blocked
    handler calls
    the blocked callback with the old version and the new one (the configured
    version when the event has none), takes the error it returns or else the
    default one, calls the error callback with that error and rejects the open
    promise with it.  From then on the promise stays rejected with that error
    whatever is delivered, and [indexedDB.open] is never called again.  In
    any state, the suspended rejection, resumed while the open promise is still
    pending, rejects it with that error. *)
Theorem onblocked_rejects c stored oldVersion newVersion :
  let newV := default (cfg_version c) newVersion in
  let error := blocked_error c oldVersion newV in
  (∀ cb, callback c onBlocked = Some cb → ∃ r, cb oldVersion newV = Returns r) →
  (∀ cb, callback c onError = Some cb → ∃ u, cb (Some error) = Returns u) →
  ∃ s1, step (openIndexedDB c stored) (Blocked oldVersion newVersion) = Some s1 ∧
    let s := settle_down conn 2 s1 in
    settled (open s) = Rejected error ∧ waiting (open s) = [] ∧
    log (open s) =
      CallOpen (cfg_name c) (cfg_version c) ::
      match callback c onBlocked with Some _ => [CallOnBlocked oldVersion newV] | None => [] end ++
      match callback c onError with Some _ => [CallOnError (Some error)] | None => [] end ++
      [CallReject error] ∧
    (∀ schedule s', run s schedule = Some s' →
       settled (open s') = Rejected error ∧ calls is_open (log (open s')) = 1%nat) ∧
    (∀ s' i, waiting (open s') !! i = Some (KReject error) → settled (open s') = Pending →
       ∃ s'', step s' (Resume i) = Some s'' ∧ settled (open s'') = Rejected error).
Proof.
  intros newV error Hb He. eexists. split; [reflexivity|].
  cut (let s := settle_down conn 2 (onblocked oldVersion newVersion (openIndexedDB c stored)) in
       settled (open s) = Rejected error ∧ waiting (open s) = [] ∧
       log (open s) =
         CallOpen (cfg_name c) (cfg_version c) ::
         match callback c onBlocked with Some _ => [CallOnBlocked oldVersion newV] | None => [] end ++
         match callback c onError with Some _ => [CallOnError (Some error)] | None => [] end ++
         [CallReject error]).
  { simpl. intros (Hset & Hw & Hlog). repeat (split; [done|]). split.
    - intros schedule s' Hrun. destruct (lc_run_final _ _ _ _ Hrun Hset) as [-> ->].
      split; [done|]. rewrite Hlog. unfold calls. simpl.
      destruct (callback c onBlocked), (callback c onError); reflexivity.
    - intros s' i Hi Hpend. simpl. rewrite Hi. simpl. eexists. split; [done|].
      simpl. by rewrite Hpend. }
  subst error. unfold blocked_error in *. subst newV.
  unfold onblocked, error_then_reject, call_onError, callback in *. simpl in *.
  destruct (cfg_events c ≫= onBlocked) as [cb|] eqn:Hcb; simpl.
  - destruct (Hb cb eq_refl) as [r Hr]. rewrite Hr in *. simpl.
    unfold error_then_reject, call_onError, callback. simpl.
    destruct (cfg_events c ≫= onError) as [cbe|] eqn:Hcbe; simpl.
    + destruct (He cbe eq_refl) as [[] Hu]. rewrite Hu. simpl. done.
    + done.
  - destruct (cfg_events c ≫= onError) as [cbe|] eqn:Hcbe; simpl.
    + destruct (He cbe eq_refl) as [[] Hu]. rewrite Hu. simpl. done.
    + done.
Qed.
End lifecycle.

(** * Further properties *)

(** ** Schema synchronisation, for any configuration *)

Lemma last_entry_snoc_eq stores x : last_entry (stores ++ [x]) (store_name x) = Some x.
Proof.
  unfold last_entry. rewrite filter_app, filter_cons_True, filter_nil by done.
  apply last_snoc.
Qed.

Lemma last_entry_snoc_ne stores x n :
  store_name x ≠ n → last_entry (stores ++ [x]) n = last_entry stores n.
Proof.
  intros Hne. unfold last_entry.
  by rewrite filter_app, filter_cons_False, filter_nil, app_nil_r.
Qed.

Lemma last_entry_is_Some stores n :
  n ∈ store_name <$> stores → is_Some (last_entry stores n).
Proof.
  intros (s & -> & Hs)%list_elem_of_fmap. unfold last_entry.
  apply last_is_Some. intros Hnil.
  assert (Hin : s ∈ filter (λ s0, store_name s0 = store_name s) stores)
    by (by apply list_elem_of_filter).
  rewrite Hnil in Hin. by apply elem_of_nil in Hin.
Qed.

Lemma synchronize_runs_any (stores : list StoreSchema) (w : world) :
  runs (synchronize stores) w (λ _ w',
    (∀ n, n ∉ store_name <$> stores → w_db w' !! n = None) ∧
    (∀ n s, last_entry stores n = Some s →
            ∃ st, w_db w' !! n = Some st ∧ has_configured_indexes s st)).
Proof.
  unfold synchronize. apply runs_bind, runs_objectStoreNames.
  apply runs_bind. eapply runs_mono; [apply delete_stale_stores|].
  intros [] w1 Hw1. simpl.
  eapply runs_mono.
  - apply (runs_for_each (λ rem w',
      ∃ reached, stores = reached ++ rem ∧
        (∀ n, n ∉ store_name <$> stores → w_db w' !! n = None) ∧
        (∀ n s, last_entry reached n = Some s →
                ∃ st, w_db w' !! n = Some st ∧ has_configured_indexes s st))).
    + exists []. split; [done|]. split; [|done].
      intros n Hn%not_configured_spec. by rewrite Hw1, Hn.
    + intros x rem w0 (reached & Hst & Hout & Hlast).
      eapply runs_mono; [apply sync_store_reconciles|].
      intros [] w' (st & Hw' & Hrec). simpl. exists (reached ++ [x]).
      split; [by rewrite <- app_assoc|]. split.
      * intros n Hn. rewrite Hw', lookup_insert_ne; [by apply Hout|].
        intros <-. apply Hn. rewrite Hst, fmap_app, fmap_cons, elem_of_app.
        right. by left.
      * intros n s. destruct (decide (store_name x = n)) as [<-|Hne].
        -- rewrite last_entry_snoc_eq. intros [= <-]. exists st.
           split; [rewrite Hw'; apply lookup_insert_eq | exact (rec_index_set _ _ _ Hrec)].
        -- rewrite last_entry_snoc_ne by done. intros Hs.
           rewrite Hw', lookup_insert_ne by done. by apply Hlast.
  - intros [] w' (reached & Hst & Hout & Hlast). rewrite app_nil_r in Hst. by subst reached.
Qed.

(** X1.  The synchroniser never throws, whatever the structure it starts
    from and whatever the configuration, duplicate store names included:
    every primitive it calls is guarded by the check that makes it legal.
    Afterwards the stores are exactly the configured names, and the indexes of
    a store are the ones configured by the last entry of its name. *)
Theorem synchronize_never_throws (stores : list StoreSchema) (w : world) :
  ∃ w', synchronize stores w = (Returns tt, w') ∧
    (∀ n, is_Some (w_db w' !! n) ↔ n ∈ store_name <$> stores) ∧
    (∀ n s, last_entry stores n = Some s →
            ∃ st, w_db w' !! n = Some st ∧ has_configured_indexes s st).
Proof.
  destruct (synchronize_runs_any stores w) as ([] & w' & Hrun & Hout & Hlast).
  exists w'. split; [done|]. split; [|done].
  intros n. split.
  - intros Hn. destruct (decide (n ∈ store_name <$> stores)) as [|Hno]; [done|].
    apply Hout in Hno. rewrite Hno in Hn. by destruct Hn.
  - intros [s Hs]%last_entry_is_Some. destruct (Hlast n s Hs) as (st & -> & _). eauto.
Qed.

(** A loop whose every iteration leaves the world alone. *)
Lemma for_each_skip {A} (l : list A) (body : A → Upgrade unit) w :
  (∀ x, x ∈ l → body x w = (Returns tt, w)) → for_each l body w = (Returns tt, w).
Proof.
  induction l as [|x l IH]; intros Hbody; simpl; [done|].
  unfold bind. rewrite Hbody by (by left). apply IH. intros y Hy. apply Hbody. by right.
Qed.

Lemma bind_returns {A B} (c : Upgrade A) (k : A → Upgrade B) w a w' :
  c w = (Returns a, w') → bind c k w = k a w'.
Proof. intros Hc. unfold bind. by rewrite Hc. Qed.

Lemma sync_store_in_sync store st w :
  w_db w !! store_name store = Some st → has_configured_indexes store st →
  sync_store store w = (Returns tt, w).
Proof.
  intros Hst Hix. unfold sync_store.
  rewrite (bind_returns _ _ w true w).
  2: { unfold objectStoreNames_contains, get_db, ret, bind.
       by rewrite bool_decide_eq_true_2 by eauto. }
  rewrite (bind_returns _ _ w tt w) by done.
  rewrite (bind_returns _ _ w (store_name store) w).
  2: { unfold objectStore, get_db, ret, bind. by rewrite Hst. }
  rewrite (bind_returns _ _ w (sorted_names (indexes st)) w).
  2: { unfold indexNames, get_db, ret, bind. by rewrite Hst. }
  rewrite (bind_returns _ _ w tt w).
  - apply for_each_skip. intros ix Hin.
    rewrite (bind_returns _ _ w true w); [done|].
    unfold indexNames_contains, get_db, ret, bind. rewrite Hst.
    rewrite bool_decide_eq_true_2; [done|].
    apply Hix, list_elem_of_fmap. by exists ix.
  - apply for_each_skip.
    intros i Hi%sorted_names_elem%Hix%index_configured_spec. by rewrite Hi.
Qed.

Lemma synchronize_in_sync stores w :
  in_sync stores (w_db w) → synchronize stores w = (Returns tt, w).
Proof.
  intros [Hdom Hall]. unfold synchronize.
  rewrite (bind_returns _ _ w (sorted_names (w_db w)) w) by done.
  rewrite (bind_returns _ _ w tt w).
  - apply for_each_skip. intros s Hs. destruct (Hall s Hs) as (st & Hst & Hix).
    by apply sync_store_in_sync with st.
  - apply for_each_skip. intros n Hn%sorted_names_elem%Hdom.
    destruct (not_configured stores n) eqn:Hnc; [|done].
    by apply not_configured_spec in Hnc.
Qed.

(** X2.  A structure the configuration already describes is left alone: the
    synchroniser returns without a single structural call.  So, with store
    names that are unique, the pass is idempotent: run again on the structure
    it has produced, it does nothing. *)
Theorem synchronize_idempotent (stores : list StoreSchema) (w : world) :
  (in_sync stores (w_db w) → synchronize stores w = (Returns tt, w)) ∧
  (NoDup (store_name <$> stores) →
   ∃ w', synchronize stores w = (Returns tt, w') ∧ in_sync stores (w_db w') ∧
         synchronize stores w' = (Returns tt, w')).
Proof.
  split; [apply synchronize_in_sync|]. intros Hnd.
  destruct (synchronize_runs stores w Hnd) as ([] & w' & Hrun & Hout & Hin).
  assert (Hsync : in_sync stores (w_db w')).
  { split.
    - intros n Hn. destruct (decide (n ∈ store_name <$> stores)) as [|Hno]; [done|].
      apply Hout in Hno. rewrite Hno in Hn. by destruct Hn.
    - intros s Hs. destruct (Hin s Hs) as (st & Hst & Hrec). exists st.
      split; [done | exact (rec_index_set _ _ _ Hrec)]. }
  exists w'. split; [done|]. split; [done|]. by apply synchronize_in_sync.
Qed.

(** *** What the synchroniser never does *)

Section licensed_calls.
Context (P : effect → Prop).

Lemma logs_only_when_true b c : (b = true → logs_only P c) → logs_only P (when b c).
Proof. destruct b; simpl; [auto | intros _; apply logs_only_ret]. Qed.

Lemma logs_only_for_each_in {A} (l : list A) body :
  (∀ x, x ∈ l → logs_only P (body x)) → logs_only P (for_each l body).
Proof.
  induction l as [|x l IH]; intros Hbody; simpl; [apply logs_only_ret|].
  apply logs_only_bind; [apply Hbody; by left | intros _; apply IH].
  intros y Hy. apply Hbody. by right.
Qed.

(** What a computation returns may decide what the next one logs. *)
Lemma logs_only_bind_post {A B} (Q : A → Prop) (c : Upgrade A) (k : A → Upgrade B) :
  logs_only P c → (∀ w a w', c w = (Returns a, w') → Q a) →
  (∀ a, Q a → logs_only P (k a)) → logs_only P (bind c k).
Proof.
  intros Hc HQ Hk w. unfold bind. destruct (Hc w) as (l1 & Hl1 & HP1).
  destruct (c w) as [[a|e] w1] eqn:Hcw; simpl in *.
  - destruct (Hk a (HQ _ _ _ Hcw) w1) as (l2 & Hl2 & HP2). exists (l1 ++ l2).
    split; [by rewrite Hl2, Hl1, app_assoc | by apply Forall_app].
  - by exists l1.
Qed.
End licensed_calls.

Lemma objectStore_returns_name n w a w' : objectStore n w = (Returns a, w') → a = n.
Proof.
  unfold objectStore, bind, get_db, throw, ret. destruct (w_db w !! n); simpl; congruence.
Qed.

Lemma sync_store_licensed stores s :
  s ∈ stores → logs_only (licensed stores) (sync_store s).
Proof.
  intros Hs. unfold sync_store.
  apply logs_only_bind.
  { unfold objectStoreNames_contains. repeat logs_only_step. }
  intros present. apply logs_only_bind.
  { apply logs_only_when. unfold createObjectStore.
    apply logs_only_bind; [apply logs_only_get_db | intros d].
    destruct (d !! store_name s); [apply logs_only_throw|].
    apply logs_only_bind; [|intros _; apply logs_only_put_db].
    apply logs_only_emit. simpl. by exists s. }
  intros _. apply (logs_only_bind_post _ (λ a, a = store_name s)).
  { unfold objectStore. apply logs_only_bind; [apply logs_only_get_db | intros d].
    destruct (d !! store_name s); [apply logs_only_ret | apply logs_only_throw]. }
  { intros w a w'. apply objectStore_returns_name. }
  intros currentStore ->. apply logs_only_bind.
  { unfold indexNames. apply logs_only_bind; [apply logs_only_get_db | intros d].
    destruct (d !! store_name s); [apply logs_only_ret | apply logs_only_throw]. }
  intros names. apply logs_only_bind.
  - apply logs_only_for_each. intros i. apply logs_only_when_true.
    intros Hi%negb_true_iff. unfold deleteIndex.
    apply logs_only_bind; [apply logs_only_get_db | intros d].
    destruct (d !! store_name s) as [st|]; [|apply logs_only_throw].
    destruct (indexes st !! i); [|apply logs_only_throw].
    apply logs_only_bind; [|intros _; apply logs_only_put_db].
    apply logs_only_emit. simpl. exists s. split; [done|]. split; [done|].
    rewrite <- index_configured_spec. by rewrite Hi.
  - intros _. apply logs_only_for_each_in. intros ix Hix.
    apply logs_only_bind.
    { unfold indexNames_contains. apply logs_only_bind; [apply logs_only_get_db | intros d].
      destruct (d !! store_name s); [apply logs_only_ret | apply logs_only_throw]. }
    intros present'. apply logs_only_when. unfold createIndex.
    apply logs_only_bind; [apply logs_only_get_db | intros d].
    destruct (d !! store_name s) as [st|]; [|apply logs_only_throw].
    destruct (indexes st !! index_name ix); [apply logs_only_throw|].
    apply logs_only_bind; [|intros _; apply logs_only_put_db].
    apply logs_only_emit. simpl. by exists s, ix.
Qed.

(** X3.  What the synchroniser never does.  Whatever the structure, every
    call it makes is licensed by the configuration: it deletes a store only
    if no configured store has that name, deletes an index only from a
    configured store whose entry does not name it, and creates only the stores
    and indexes the configuration names, with the configured options and key
    path.  A configured store is never deleted, so its records survive every
    upgrade. *)
Theorem synchronize_only_licensed_calls (stores : list StoreSchema) (w : world) :
  ∃ l, w_log (snd (synchronize stores w)) = w_log w ++ l ∧
       Forall (licensed stores) l ∧
       (∀ s, s ∈ stores → DeleteObjectStore (store_name s) ∉ l).
Proof.
  assert (Hlog : logs_only (licensed stores) (synchronize stores)).
  { unfold synchronize. apply logs_only_bind.
    { unfold objectStoreNames. repeat logs_only_step. }
    intros names. apply logs_only_bind.
    - apply logs_only_for_each. intros n. apply logs_only_when_true.
      intros Hn%not_configured_spec. unfold deleteObjectStore.
      apply logs_only_bind; [apply logs_only_get_db | intros d].
      destruct (d !! n); [|apply logs_only_throw].
      apply logs_only_bind; [|intros _; apply logs_only_put_db].
      by apply logs_only_emit.
    - intros _. apply logs_only_for_each_in. intros s. apply sync_store_licensed. }
  destruct (Hlog w) as (l & Hl & HP). exists l. split; [done|]. split; [done|].
  intros s Hs Hin. rewrite Forall_forall in HP. apply HP in Hin. simpl in Hin.
  apply Hin, list_elem_of_fmap. by exists s.
Qed.

(** ** Upgrading in steps *)

Lemma filter_applies_none oldVersion newVersion l :
  Forall (λ m, newVersion < version m) l →
  filter (λ m, applies oldVersion newVersion m = true) l = [].
Proof.
  induction 1 as [|m l Hm _ IH]; [done|].
  rewrite filter_cons_False; [done|]. rewrite applies_spec. lia.
Qed.

Lemma filter_applies_split a b c l :
  a ≤ b → b ≤ c → StronglySorted version_le l →
  filter (λ m, applies a c m = true) l =
  filter (λ m, applies a b m = true) l ++ filter (λ m, applies b c m = true) l.
Proof.
  intros Hab Hbc. induction 1 as [|m l Hl IH Hm]; [done|].
  rewrite !filter_cons.
  destruct (decide (applies a b m = true)) as [H1|H1];
    destruct (decide (applies b c m = true)) as [H2|H2];
    destruct (decide (applies a c m = true)) as [H3|H3];
    rewrite ?applies_spec in H1, H2, H3; try lia.
  - simpl. by rewrite IH.
  - rewrite IH. rewrite (filter_applies_none a b); [done|].
    eapply Forall_impl; [exact Hm|]. unfold version_le. intros m'. simpl. lia.
  - done.
Qed.

(** X4.  Upgrading in steps.  For versions [a <= b <= c], the migrations an
    upgrade from [a] to [c] runs are those of an upgrade from [a] to [b]
    followed by those of an upgrade from [b] to [c], in the same order: going
    through an intermediate version neither skips nor repeats a migration. *)
Theorem migrations_compose (ms : list Migration) (a b c : Z) :
  a ≤ b → b ≤ c → chosen a c ms = chosen a b ms ++ chosen b c ms.
Proof.
  intros Hab Hbc. unfold chosen.
  apply filter_applies_split; [done | done |]. apply (array_sort_sorted version).
Qed.

(** ** The upgrade handler *)

Lemma await_callback_log {T} (cb : option T) eff (run_cb : T → outcome unit) w :
  w_log (snd (await_callback ((λ f, (eff, run_cb f)) <$> cb) w)) = w_log w ++ logged cb eff.
Proof.
  destruct cb as [f|]; simpl; [|by rewrite app_nil_r].
  by destruct (run_cb f).
Qed.

Lemma upgrade_start_log config oldVersion newVersion w :
  w_log (snd (upgrade_start config oldVersion newVersion w)) =
  w_log w ++ logged (callback config onUpgradeStart) (CallOnUpgradeStart oldVersion newVersion).
Proof. apply (await_callback_log _ _ (λ cb, cb oldVersion newVersion)). Qed.

Lemma upgrade_end_log config oldVersion newVersion w :
  w_log (snd (upgrade_end config oldVersion newVersion w)) =
  w_log w ++ logged (callback config onUpgradeEnd) (CallOnUpgradeEnd oldVersion newVersion).
Proof. apply (await_callback_log _ _ (λ cb, cb oldVersion newVersion)). Qed.

(** Between the two callbacks no callback is called. *)
Lemma reconciliation_logs_only config oldVersion newVersion :
  logs_only (λ eff, is_callback eff = false ∧ is_upgrade_effect eff = true)
    match cfg_migrations config with
    | Some ms => run_migrations oldVersion newVersion (array_sort by_version ms)
    | None => synchronize (cfg_stores config)
    end.
Proof.
  destruct (cfg_migrations config) as [ms|].
  - eapply logs_only_weaken; [|apply run_migrations_logs_only]. by intros eff [v ->].
  - eapply logs_only_weaken; [|apply synchronize_logs_only]. by intros [] Heff.
Qed.

Lemma upgrade_body_work config oldVersion newVersion w :
  upgrade_body config oldVersion newVersion w =
  (upgrade_work config oldVersion newVersion ;;;
   upgrade_end config oldVersion newVersion) w.
Proof.
  unfold upgrade_body, upgrade_work, bind.
  destruct (upgrade_start _ _ _ w) as [[[]|e] w1]; [|done].
  by destruct (cfg_migrations config).
Qed.

(** X5.  The upgrade callbacks bracket the work.  [onUpgradeStart], when
    configured, is the first call of the handler, with the old version and the
    new one (the configured version when the event carries none); between it
    and [onUpgradeEnd] none of the lifecycle callbacks is called.
    [onUpgradeEnd] is called only if everything before it completed, and is
    then the last call: when [onUpgradeStart], a migration or the
    synchronisation throws, the handler throws the same error and
    [onUpgradeEnd] is not called. *)
Theorem upgrade_callbacks_bracket_the_work
    (config : IndexedDBConfig) (event : IDBVersionChangeEvent) (w : world) :
  let oldVersion := ev_oldVersion event in
  let newVersion := default (cfg_version config) (ev_newVersion event) in
  let work := upgrade_work config oldVersion newVersion w in
  let result := snd (onupgradeneeded config event w) in
  (∃ l, w_log (snd work) =
          w_log w ++ logged (callback config onUpgradeStart)
                            (CallOnUpgradeStart oldVersion newVersion) ++ l ∧
        Forall (λ eff, is_callback eff = false) l) ∧
  match fst work with
  | Throws e => result = (Throws e, snd work)
  | Returns _ =>
      result = upgrade_end config oldVersion newVersion (snd work) ∧
      w_log (snd result) =
        w_log (snd work) ++ logged (callback config onUpgradeEnd)
                                   (CallOnUpgradeEnd oldVersion newVersion)
  end.
Proof.
  cbv zeta. rewrite onupgradeneeded_body, upgrade_body_work.
  generalize (ev_oldVersion event) (default (cfg_version config) (ev_newVersion event)).
  intros oldVersion newVersion. split.
  - unfold upgrade_work, bind.
    pose proof (upgrade_start_log config oldVersion newVersion w) as Hstart.
    destruct (upgrade_start config oldVersion newVersion w) as [[[]|e] w1]; simpl in *.
    + destruct (reconciliation_logs_only config oldVersion newVersion w1) as (l & Hl & HP).
      exists l. split; [by rewrite Hl, Hstart, app_assoc|].
      eapply Forall_impl; [exact HP|]. by intros eff [].
    + exists []. by rewrite app_nil_r.
  - destruct (upgrade_work config oldVersion newVersion w) as [[[]|e] w1] eqn:Hwork; simpl.
    + rewrite (bind_returns _ _ _ _ _ Hwork). split; [done | apply upgrade_end_log].
    + unfold bind. by rewrite Hwork.
Qed.

(** X6.  A failing [onUpgradeStart] stops the upgrade before it has begun.
    No structural call and no migration is made, the structure is as it was,
    the [migrations] array is not sorted, and the handler throws the
    callback's error. *)
Theorem upgrade_start_failure_changes_nothing
    (config : IndexedDBConfig) (event : IDBVersionChangeEvent) (w : world) cb e :
  let oldVersion := ev_oldVersion event in
  let newVersion := default (cfg_version config) (ev_newVersion event) in
  callback config onUpgradeStart = Some cb →
  cb oldVersion newVersion = Throws e →
  onupgradeneeded config event w =
    (config, (Throws e, {| w_db := w_db w;
                           w_log := w_log w ++ [CallOnUpgradeStart oldVersion newVersion] |})).
Proof.
  intros oldVersion newVersion Hcb Hthrows.
  unfold onupgradeneeded, upgrade_start. fold oldVersion newVersion.
  rewrite Hcb. simpl. by rewrite Hthrows.
Qed.

(** ** [iDBPromise], the other paths *)

Section operation_adapter_paths.
Import OperationAdapter.
Variables (config : IndexedDBConfig) (db : connection) (storeName : string).
Local Abbreviation step := (OperationAdapter.step config db storeName).
Local Abbreviation run := (OperationAdapter.run config db storeName).

(** Once the request's event is delivered and the timer is not armed, only
    suspended rejections are left to run: no callback is called any more. *)
Lemma op_quiet_step (p : effect → bool) s ev s' :
  (∀ e, p (CallReject e) = false) →
  request_done s = true → timer s ≠ Armed → step s ev = Some s' →
  request_done s' = true ∧ timer s' ≠ Armed ∧
  calls p (log (race s')) = calls p (log (race s)).
Proof.
  intros Hp Hrd Ht Hstep. destruct ev as [|result|name|i]; simpl in Hstep.
  - by destruct (timer s).
  - by rewrite Hrd in Hstep.
  - by rewrite Hrd in Hstep.
  - destruct (waiting (race s) !! i) as [[e]|]; simpl in Hstep; [|done].
    injection Hstep as <-. simpl. rewrite calls_snoc, Hp. split; [done|]. split; [done|lia].
Qed.

Lemma op_quiet_run (p : effect → bool) schedule : ∀ s s',
  (∀ e, p (CallReject e) = false) →
  request_done s = true → timer s ≠ Armed → settled (race s) ≠ Pending →
  run s schedule = Some s' →
  settled (race s') = settled (race s) ∧
  calls p (log (race s')) = calls p (log (race s)).
Proof.
  induction schedule as [|ev rest IH]; intros s s' Hp Hrd Ht Hset; simpl.
  - by intros [= <-].
  - destruct (step s ev) as [s1|] eqn:Hs1; simpl; [|done]. intros Hrun.
    destruct (op_quiet_step p _ _ _ Hp Hrd Ht Hs1) as (Hrd1 & Ht1 & Hc1).
    pose proof (op_step_settled _ _ _ _ _ _ Hs1 Hset) as Hset1.
    destruct (IH s1 s' Hp Hrd1 Ht1) as [-> ->]; [by rewrite Hset1 | done | done].
Qed.

(** X7.  A success is final.  In whatever state the request's success
    finds a pending promise (the timer may have fired already, its callback
    still running), the promise is fulfilled with the request's result, and
    from then on it stays so and no callback is called any more: the timer is
    cleared, and all a suspended handler can still do is call [reject] in
    vain. *)
Theorem iDBPromise_success_is_final s result :
  request_done s = false → settled (race s) = Pending →
  ∃ s', step s (RequestSuccess result) = Some s' ∧
        settled (race s') = Fulfilled result ∧
        log (race s') = log (race s) ++ [CallResolve] ∧
        step s' TimerFires = None ∧
        ∀ rest s'', run s' rest = Some s'' →
          settled (race s'') = Fulfilled result ∧
          calls is_callback (log (race s'')) = calls is_callback (log (race s)).
Proof.
  intros Hrd Hpend. simpl. rewrite Hrd. eexists. split; [reflexivity|].
  simpl. rewrite Hpend. split; [done|]. split; [done|].
  split; [by destruct (timer s)|].
  intros rest s'' Hrun.
  apply (op_quiet_run is_callback) in Hrun as [Hset Hcalls]; simpl; try done.
  - rewrite Hset, Hcalls. simpl. rewrite Hpend, calls_snoc. simpl. split; [done | lia].
  - by destruct (timer s).
  - by rewrite Hpend.
Qed.

(** X8.  A request that fails before the timer fires.  The timer is
    cleared and the error callback is called with the request's error.
    Without a callback the promise is rejected with that error at once; with
    one, when the callback has completed.  If the callback throws, [reject]
    is never reached: nothing is left that could settle the promise, which
    stays pending for ever. *)
Theorem iDBPromise_error_rejects name :
  let e := DOMException name in
  ∃ s, step iDBPromise (RequestError name) = Some s ∧ timer s = Cleared ∧
    match callback config onError with
    | None =>
        log (race s) = [CallReject e] ∧ settled (race s) = Rejected e
    | Some cb =>
        log (race s) = [CallOnError (Some e)] ∧ settled (race s) = Pending ∧
        match cb (Some e) with
        | Returns _ =>
            ∃ s', step s (Resume 0) = Some s' ∧ settled (race s') = Rejected e ∧
                  log (race s') = [CallOnError (Some e); CallReject e]
        | Throws _ =>
            ∀ schedule s', run s schedule = Some s' → s' = s
        end
    end.
Proof.
  intros e. subst e. eexists. split; [reflexivity|]. split; [reflexivity|].
  unfold onerror, call_onError. simpl.
  destruct (callback config onError) as [cb|]; simpl; [|done].
  destruct (cb (Some (DOMException name))) as [[]|e']; simpl.
  - repeat split. eexists. repeat split.
  - repeat split. intros schedule s'. destruct schedule as [|[|result|name'|i] rest]; simpl.
    + by intros [= <-].
    + done.
    + done.
    + done.
    + done.
Qed.

(** While no timeout rejection is suspended and the timer is not armed, the
    promise is never rejected with the timeout error. *)
Lemma op_no_timeout_step s ev s' :
  timer s ≠ Armed → (KReject TransactionTimeout ∉ waiting (race s)) →
  settled (race s) ≠ Rejected TransactionTimeout →
  step s ev = Some s' →
  timer s' ≠ Armed ∧ (KReject TransactionTimeout ∉ waiting (race s')) ∧
  settled (race s') ≠ Rejected TransactionTimeout.
Proof.
  intros Ht Hw Hset Hstep. destruct ev as [|result|name|i]; simpl in Hstep.
  - by destruct (timer s).
  - destruct (request_done s); [done|]. injection Hstep as <-. simpl.
    split; [by destruct (timer s)|]. split; [done|]. by destruct (settled (race s)).
  - destruct (request_done s); [done|]. injection Hstep as <-. unfold onerror. simpl.
    split; [by destruct (timer s)|].
    destruct (call_onError config (Some (DOMException name))) as [[eff [u|e]]|]; simpl.
    + split; [|done]. rewrite not_elem_of_app, not_elem_of_cons.
      split; [done|]. split; [done | apply not_elem_of_nil].
    + done.
    + split; [done|]. by destruct (settled (race s)).
  - destruct (waiting (race s) !! i) as [[e]|] eqn:Hi; simpl in Hstep; [|done].
    injection Hstep as <-. simpl. split; [done|]. split.
    + intros Hin. apply Hw. eapply elem_of_sublist; [exact Hin | apply sublist_delete].
    + assert (e ≠ TransactionTimeout).
      { intros ->. apply Hw. by eapply list_elem_of_lookup_2. }
      destruct (settled (race s)); simpl; congruence.
Qed.

(** X9.  A timeout without a callback that completes.  When the timer
    fires first and no timeout callback is configured, the promise is rejected
    with the timeout error at once.  When the callback throws, the rejection
    is lost: the promise is still pending, no handler is suspended, and in no
    continuation is the promise rejected with the timeout error; only the
    request can settle it. *)
Theorem iDBPromise_timeout_without_callback :
  ∃ s, step iDBPromise TimerFires = Some s ∧ request_done s = false ∧
    match callback config onTransactionTimeout with
    | None =>
        log (race s) = [CallReject TransactionTimeout] ∧
        settled (race s) = Rejected TransactionTimeout
    | Some cb =>
        log (race s) =
          [CallOnTransactionTimeout db [storeName] (cfg_transactionTimeout config)] ∧
        settled (race s) = Pending ∧
        match cb db [storeName] (cfg_transactionTimeout config) with
        | Returns _ => waiting (race s) = [KReject TransactionTimeout]
        | Throws _ =>
            waiting (race s) = [] ∧
            ∀ schedule s', run s schedule = Some s' →
              settled (race s') ≠ Rejected TransactionTimeout
        end
    end.
Proof.
  eexists. split; [reflexivity|]. split; [reflexivity|].
  unfold ontimeout, call_onTransactionTimeout. simpl.
  destruct (callback config onTransactionTimeout) as [cb|]; simpl; [|done].
  destruct (cb db [storeName] (cfg_transactionTimeout config)) as [[]|e]; simpl; [done|].
  repeat split. intros schedule s' Hrun.
  eapply (op_run_invariant config db storeName
            (λ s, timer s ≠ Armed ∧ (KReject TransactionTimeout ∉ waiting (race s)) ∧
                  settled (race s) ≠ Rejected TransactionTimeout)) in Hrun.
  - by destruct Hrun as (_ & _ & Hset).
  - intros s0 ev s0' (Ht & Hw & Hset). by apply op_no_timeout_step.
  - simpl. split; [done|]. split; [apply not_elem_of_nil | done].
Qed.
End operation_adapter_paths.

(** ** [transaction], the other paths *)

Section transaction_coordinator_paths.
Import TransactionCoordinator.
Variables (config : IndexedDBConfig) (db : connection) (storeNames : list string).
Local Abbreviation step := (TransactionCoordinator.step config db storeNames).
Local Abbreviation run := (TransactionCoordinator.run config db storeNames).

(** Once the transaction has ended and the timer is not armed, only
    suspended rejections are left to run. *)
Lemma tc_quiet_step (p : effect → bool) s ev s' :
  (∀ e, p (CallReject e) = false) →
  tx s = Finished → timer s ≠ Armed → step s ev = Some s' →
  tx s' = Finished ∧ timer s' ≠ Armed ∧
  calls p (log (done s')) = calls p (log (done s)).
Proof.
  intros Hp Htx Ht Hstep. destruct ev as [| | | |name|i]; simpl in Hstep.
  - by destruct (timer s).
  - by rewrite Htx in Hstep.
  - by rewrite Htx in Hstep.
  - by rewrite Htx in Hstep.
  - by rewrite Htx in Hstep.
  - destruct (waiting (done s) !! i) as [k|]; simpl in Hstep; [|done].
    injection Hstep as <-. simpl. split; [done|]. split; [done|].
    destruct k; simpl; rewrite calls_snoc, Hp; lia.
Qed.

Lemma tc_quiet_run (p : effect → bool) schedule : ∀ s s',
  (∀ e, p (CallReject e) = false) →
  tx s = Finished → timer s ≠ Armed → settled (done s) ≠ Pending →
  run s schedule = Some s' →
  settled (done s') = settled (done s) ∧
  calls p (log (done s')) = calls p (log (done s)).
Proof.
  induction schedule as [|ev rest IH]; intros s s' Hp Htx Ht Hset; simpl.
  - by intros [= <-].
  - destruct (step s ev) as [s1|] eqn:Hs1; simpl; [|done]. intros Hrun.
    destruct (tc_quiet_step p _ _ _ Hp Htx Ht Hs1) as (Htx1 & Ht1 & Hc1).
    pose proof (tc_step_settled _ _ _ _ _ _ Hs1 Hset) as Hset1.
    destruct (IH s1 s' Hp Htx1 Ht1) as [-> ->]; [by rewrite Hset1 | done | done].
Qed.

(** X10.  Completion is final.  When an active transaction completes while
    [done] is pending, [done] is fulfilled, the timer is cleared, and from
    then on [done] stays fulfilled, nothing is aborted and no callback is
    called. *)
Theorem transaction_complete_is_final s :
  tx s = Active → settled (done s) = Pending →
  ∃ s', step s Complete = Some s' ∧
        settled (done s') = Fulfilled tt ∧ finished s' = true ∧
        step s' TimerFires = None ∧
        ∀ rest s'', run s' rest = Some s'' →
          settled (done s'') = Fulfilled tt ∧
          calls is_callback (log (done s'')) = calls is_callback (log (done s)) ∧
          calls is_abort (log (done s'')) = calls is_abort (log (done s)).
Proof.
  intros Htx Hpend. simpl. rewrite Htx. eexists. split; [reflexivity|].
  simpl. rewrite Hpend. split; [done|]. split; [done|].
  split; [by destruct (timer s)|].
  intros rest s'' Hrun.
  assert (Ht : timer (oncomplete (with_tx Finished (tx_error s) s)) ≠ Armed)
    by (simpl; by destruct (timer s)).
  assert (Hset : settled (done (oncomplete (with_tx Finished (tx_error s) s))) ≠ Pending)
    by (simpl; by rewrite Hpend).
  pose proof Hrun as Hrun'.
  apply (tc_quiet_run is_callback) in Hrun as [-> ->]; [|done..].
  apply (tc_quiet_run is_abort) in Hrun' as [_ ->]; [|done..].
  simpl. rewrite Hpend, !calls_snoc. simpl. split; [done|]. split; lia.
Qed.
End transaction_coordinator_paths.

Section transaction_coordinator_failures.
Import TransactionCoordinator.
Variables (config : IndexedDBConfig) (db : connection) (storeNames : list string).
Local Abbreviation step := (TransactionCoordinator.step config db storeNames).
Local Abbreviation run := (TransactionCoordinator.run config db storeNames).

(** X11.  An abort.  When the abort event arrives on a transaction that
    has not ended, whatever happened before (the timer may have fired and asked
    for this very abort), the handler sets [finished], clears the timer and
    calls the error callback with [transaction.error], which is [null] after
    a plain [abort()].  [done] is then rejected with [transaction.error], or
    with "Transaction aborted" when it is [null]: at once without a callback,
    on resumption when the callback has completed, and never by this handler
    when the callback throws. *)
Theorem transaction_abort_reports_transaction_error s name :
  tx s ≠ Finished →
  let e := DOMException <$> name in
  ∃ s', step s (AbortEvent name) = Some s' ∧
    finished s' = true ∧ timer s' ≠ Armed ∧ tx_error s' = e ∧
    match callback config onError with
    | None =>
        log (done s') = log (done s) ++ [CallReject (default TransactionAborted e)] ∧
        (settled (done s) = Pending →
         settled (done s') = Rejected (default TransactionAborted e))
    | Some cb =>
        log (done s') = log (done s) ++ [CallOnError e] ∧
        settled (done s') = settled (done s) ∧
        match cb e with
        | Returns _ =>
            waiting (done s') = waiting (done s) ++ [KRejectTransactionError] ∧
            ∃ s'', step s' (Resume (length (waiting (done s)))) = Some s'' ∧
                   log (done s'') =
                     log (done s') ++ [CallReject (default TransactionAborted e)] ∧
                   (settled (done s) = Pending →
                    settled (done s'') = Rejected (default TransactionAborted e))
        | Throws _ => waiting (done s') = waiting (done s)
        end
    end.
Proof.
  intros Htx e. subst e.
  assert (Hstep : step s (AbortEvent name) =
                  Some (onabort config (with_tx Finished (DOMException <$> name) s))).
  { simpl. by destruct (tx s). }
  eexists. split; [exact Hstep|]. split; [done|].
  split; [simpl; by destruct (timer s)|]. split; [done|].
  unfold onabort, call_onError. simpl.
  destruct (callback config onError) as [cb|]; simpl.
  - destruct (cb (DOMException <$> name)) as [[]|e']; simpl; [|done].
    repeat split.
    rewrite list_lookup_middle by done. simpl. eexists. split; [reflexivity|]. simpl.
    split; [done|]. by intros ->.
  - split; [done|]. by intros ->.
Qed.

(** X12.  A request that fails inside a transaction.  The request's error
    bubbles to the transaction as an error event, during which
    [transaction.error] is still [null]; the abort follows with the error.
    Both handlers run: the error callback, when configured, is called twice,
    first with [null] and then with the error.  Without a callback [done] is
    rejected by both handlers, and the error it carries is the one the first
    [reject] reads: "Transaction aborted" if the error handler goes on before
    the engine has set [transaction.error], and the request's error if it goes
    on afterwards. *)
Theorem transaction_request_error_is_reported_twice name :
  let e := DOMException name in
  (∃ s, run transaction [ErrorEvent; AbortEvent (Some name)] = Some s ∧
     match callback config onError with
     | None =>
         log (done s) = [CallReject e] ∧ settled (done s) = Rejected e ∧
         waiting (done s) = [KRejectTransactionError]
     | Some _ =>
         log (done s) = [CallOnError None; CallOnError (Some e)] ∧
         settled (done s) = Pending
     end) ∧
  (callback config onError = None →
     (∃ s, run transaction [ErrorEvent; Resume 0; AbortEvent (Some name)] = Some s ∧
           log (done s) = [CallReject TransactionAborted; CallReject e] ∧
           settled (done s) = Rejected TransactionAborted ∧ waiting (done s) = []) ∧
     (∃ s, run transaction [ErrorEvent; AbortEvent (Some name); Resume 0] = Some s ∧
           log (done s) = [CallReject e; CallReject e] ∧
           settled (done s) = Rejected e ∧ waiting (done s) = [])).
Proof.
  intros e. subst e. split.
  - eexists. split; [reflexivity|].
    unfold onabort, onerror, call_onError. simpl.
    destruct (callback config onError) as [cb|]; simpl; [|done].
    destruct (cb None) as [[]|e1]; simpl;
      destruct (cb (Some (DOMException name))) as [[]|e2]; simpl; done.
  - intros Hcb. split.
    + simpl. unfold onabort, onerror, call_onError. simpl. rewrite Hcb. simpl.
      eexists. split; [reflexivity|]. done.
    + simpl. unfold onabort, onerror, call_onError. simpl. rewrite Hcb. simpl.
      eexists. split; [reflexivity|]. done.
Qed.
End transaction_coordinator_failures.

(** ** The open request, the other handlers *)

Lemma upgrade_body_upgrade_effects config oldVersion newVersion :
  logs_only (λ eff, is_upgrade_effect eff = true) (upgrade_body config oldVersion newVersion).
Proof.
  unfold upgrade_body.
  apply logs_only_bind; [by apply upgrade_start_logs_only | intros _].
  apply logs_only_bind; [|intros _; by apply upgrade_end_logs_only].
  eapply logs_only_weaken; [|apply reconciliation_logs_only]. by intros eff [].
Qed.

Lemma filter_delete_length {A} (p : A → bool) (l : list A) i x :
  l !! i = Some x →
  length (List.filter p l) =
  (length (List.filter p (delete i l)) + if p x then 1 else 0)%nat.
Proof.
  revert i. induction l as [|y l IH]; intros [|i]; simpl; try done.
  - intros [= ->]. destruct (p x); simpl; lia.
  - intros Hi. specialize (IH i Hi). destruct (p y); simpl; lia.
Qed.

Section lifecycle_handlers.
Import Lifecycle.
Variable conn : connection.
Local Abbreviation step := (Lifecycle.step conn).
Local Abbreviation run := (Lifecycle.run conn).

(** X13.  An open that fails.  The error callback is called with the
    request's error; the open promise is rejected with that error, at once
    without a callback and on resumption when the callback has completed.  If
    the callback throws, [reject] is never reached and nothing can happen any
    more: the open promise stays pending for ever. *)
Theorem open_error_rejects c stored name :
  let e := DOMException name in
  ∃ s, step (openIndexedDB c stored) (RequestError name) = Some s ∧
    match callback c onError with
    | None =>
        log (open s) = [CallOpen (cfg_name c) (cfg_version c); CallReject e] ∧
        settled (open s) = Rejected e
    | Some cb =>
        log (open s) = [CallOpen (cfg_name c) (cfg_version c); CallOnError (Some e)] ∧
        settled (open s) = Pending ∧
        match cb (Some e) with
        | Returns _ =>
            ∃ s', step s (Resume 0) = Some s' ∧ settled (open s') = Rejected e ∧
                  log (open s') =
                    [CallOpen (cfg_name c) (cfg_version c); CallOnError (Some e); CallReject e]
        | Throws _ => ∀ schedule s', run s schedule = Some s' → s' = s
        end
    end.
Proof.
  intros e. subst e. eexists. split; [reflexivity|].
  unfold onerror, error_then_reject, call_onError, callback. simpl.
  destruct (cfg_events c ≫= onError) as [cb|]; simpl; [|done].
  destruct (cb (Some (DOMException name))) as [[]|e']; simpl.
  - repeat split. eexists. repeat split.
  - repeat split. intros schedule s'.
    destruct schedule as [|[name'|o n|o n| |o n|i] rest]; simpl; try done.
    by intros [= <-].
Qed.

(** X14.  A version change.  On an open connection the handler calls
    [onVersionChange] with the old version and the new one (the configured
    version when the event carries none, as when the database is being
    deleted), and closes the connection: at once without a callback, on
    resumption when the callback has completed.  When the callback throws,
    [db.close()] is not reached, and the connection stays open.  The open
    promise and the configuration are not touched. *)
Theorem versionchange_closes_the_connection s oldVersion new :
  opened s = true →
  let newVersion := default (cfg_version (config s)) new in
  ∃ s', step s (VersionChange oldVersion new) = Some s' ∧
    settled (open s') = settled (open s) ∧ config s' = config s ∧
    match callback (config s) onVersionChange with
    | None =>
        log (open s') = log (open s) ++ [CallClose] ∧ waiting (open s') = waiting (open s)
    | Some cb =>
        log (open s') = log (open s) ++ [CallOnVersionChange oldVersion newVersion] ∧
        match cb oldVersion newVersion with
        | Returns _ =>
            waiting (open s') = waiting (open s) ++ [KClose] ∧
            ∃ s'', step s' (Resume (length (waiting (open s)))) = Some s'' ∧
                   log (open s'') = log (open s') ++ [CallClose] ∧
                   waiting (open s'') = waiting (open s)
        | Throws _ => waiting (open s') = waiting (open s)
        end
    end.
Proof.
  intros Hopen newVersion. subst newVersion. simpl. rewrite Hopen.
  eexists. split; [reflexivity|]. unfold onversionchange. simpl.
  destruct (callback (config s) onVersionChange) as [cb|]; simpl; [|done].
  destruct (cb oldVersion (default (cfg_version (config s)) new)) as [[]|e]; simpl; [|done].
  repeat split. rewrite list_lookup_middle by done. simpl.
  eexists. split; [reflexivity|]. simpl. split; [done|].
  by rewrite delete_middle, app_nil_r.
Qed.

(** X15.  A blocked callback that throws.  The handler stops there: the
    error callback is not called and the open promise is not rejected.  The
    request is still outstanding, and when the engine goes on to succeed the
    open promise is fulfilled. *)
Theorem blocked_callback_failure_leaves_the_open_pending c stored oldVersion new cb e :
  let newVersion := default (cfg_version c) new in
  callback c onBlocked = Some cb → cb oldVersion newVersion = Throws e →
  ∃ s, step (openIndexedDB c stored) (Blocked oldVersion new) = Some s ∧
    settled (open s) = Pending ∧ waiting (open s) = [] ∧
    log (open s) = [CallOpen (cfg_name c) (cfg_version c); CallOnBlocked oldVersion newVersion] ∧
    ∃ s', step s RequestSuccess = Some s' ∧ settled (open s') = Fulfilled conn.
Proof.
  intros newVersion Hcb Hthrows. subst newVersion.
  eexists. split; [reflexivity|].
  unfold onblocked. simpl. unfold callback in *. simpl. rewrite Hcb. simpl.
  rewrite Hthrows. simpl. repeat split. eexists. split; [reflexivity|]. done.
Qed.

Lemma onupgradeneeded_handler_log s oldVersion new :
  let s' := onupgradeneeded_handler oldVersion new s in
  settled (open s') = settled (open s) ∧ waiting (open s') = waiting (open s) ∧
  request_done s' = request_done s ∧ opened s' = opened s ∧
  ∃ l, log (open s') = log (open s) ++ l ∧ Forall (λ eff, is_upgrade_effect eff = true) l.
Proof.
  unfold onupgradeneeded_handler.
  pose proof (onupgradeneeded_body (config s)
    {| ev_oldVersion := oldVersion; ev_newVersion := new |}
    {| w_db := db s; w_log := log (open s) |}) as Hbody.
  destruct (onupgradeneeded _ _ _) as [c' [r w']]. simpl in *.
  repeat (split; [done|]).
  destruct (upgrade_body_upgrade_effects (config s) oldVersion
              (default (cfg_version (config s)) new)
              {| w_db := db s; w_log := log (open s) |}) as (l & Hl & HP).
  rewrite <- Hbody in Hl. simpl in Hl. by exists l.
Qed.

(** X16.  A failed upgrade is not reported.  The upgrade handler settles
    nothing and suspends nothing, whatever becomes of it: all it logs are
    structural calls, migrations and the two upgrade callbacks, never the error
    callback and never [reject].  When a migration or a callback throws the
    error is lost, and the open promise is fulfilled as soon as the engine
    signals success. *)
Theorem failed_upgrade_is_not_reported s oldVersion new :
  request_done s = false →
  ∃ s', step s (UpgradeNeeded oldVersion new) = Some s' ∧
    settled (open s') = settled (open s) ∧ waiting (open s') = waiting (open s) ∧
    (∃ l, log (open s') = log (open s) ++ l ∧
          Forall (λ eff, is_upgrade_effect eff = true) l ∧
          calls is_error_call l = 0%nat) ∧
    ∃ s'', step s' RequestSuccess = Some s'' ∧
           (settled (open s) = Pending → settled (open s'') = Fulfilled conn).
Proof.
  intros Hrd. simpl. rewrite Hrd. eexists. split; [reflexivity|].
  destruct (onupgradeneeded_handler_log s oldVersion new) as (Hset & Hw & Hrd' & _ & l & Hl & HP).
  split; [done|]. split; [done|]. split.
  - exists l. split; [done|]. split; [done|].
    clear -HP. unfold calls. induction HP as [|eff l Heff _ IH]; [done|].
    simpl. by destruct eff.
  - rewrite Hrd', Hrd. eexists. split; [reflexivity|]. simpl. rewrite Hset. by intros ->.
Qed.

Lemma closes_error_then_reject s0 e s1 :
  closes (with_open s1 (error_then_reject s0 e (open s1))) = closes s1.
Proof.
  unfold closes, error_then_reject, call_onError. simpl.
  destruct (callback (config s0) onError) as [cb|]; simpl.
  - destruct (cb (Some e)); simpl;
      rewrite ?calls_snoc, ?List.filter_app, ?length_app; simpl; lia.
  - rewrite calls_snoc. simpl. lia.
Qed.

(** A step closes the connection, or commits a suspended handler to closing
    it, only if it is a version change, and then once. *)
Lemma closes_step s ev s' :
  step s ev = Some s' →
  (closes s' ≤ closes s + if is_versionchange ev then 1 else 0)%nat.
Proof.
  intros Hstep. destruct ev as [name|o n|o n| |o n|i]; simpl in Hstep.
  - destruct (request_done s); [done|]. injection Hstep as <-.
    change (onerror (DOMException name) (deliver s)) with
      (with_open (deliver s) (error_then_reject (deliver s) (DOMException name)
                                (open (deliver s)))).
    rewrite closes_error_then_reject. unfold closes. simpl. lia.
  - destruct (request_done s); [done|]. injection Hstep as <-.
    unfold onblocked. destruct (callback (config s) onBlocked) as [cb|].
    + unfold closes. destruct (cb _ _); simpl;
        rewrite ?calls_snoc, ?List.filter_app, ?length_app; simpl; lia.
    + rewrite closes_error_then_reject. lia.
  - destruct (request_done s); [done|]. injection Hstep as <-. unfold closes.
    destruct (onupgradeneeded_handler_log s o n) as (_ & -> & _ & _ & l & -> & HP).
    unfold calls. rewrite filter_log_app; [simpl; lia|].
    eapply Forall_impl; [exact HP|]. by intros [].
  - destruct (request_done s); [done|]. injection Hstep as <-. unfold closes. simpl.
    rewrite calls_snoc. simpl. lia.
  - destruct (opened s); [|done]. injection Hstep as <-.
    unfold closes, onversionchange. simpl.
    destruct (callback (config s) onVersionChange) as [cb|]; simpl.
    + destruct (cb _ _); simpl;
        rewrite ?calls_snoc, ?List.filter_app, ?length_app; simpl; lia.
    + rewrite calls_snoc. simpl. lia.
  - destruct (waiting (open s) !! i) as [k|] eqn:Hi; simpl in Hstep; [|done].
    injection Hstep as <-.
    assert (Hun : closes s = (closes (with_open s (unsuspend i (open s))) +
                              if is_close_pending k then 1 else 0)%nat).
    { unfold closes. simpl. rewrite (filter_delete_length is_close_pending _ _ _ Hi). lia. }
    rewrite Hun. destruct k as [e|e|]; simpl.
    + unfold closes. simpl. rewrite calls_snoc. simpl. lia.
    + change (with_open s (error_then_reject s e (unsuspend i (open s)))) with
        (with_open (with_open s (unsuspend i (open s)))
           (error_then_reject s e (open (with_open s (unsuspend i (open s)))))).
      rewrite closes_error_then_reject. lia.
    + unfold closes. simpl. rewrite calls_snoc. simpl. lia.
Qed.

(** X17.  The connection is closed on a version change only.  In every run
    of an open request the calls of [db.close()], made or still due from a
    suspended handler, are at most as many as the [versionchange] events
    delivered: no other handler ever closes the connection, and none closes it
    twice. *)
Theorem connection_closed_on_versionchange_only c stored schedule s :
  run (openIndexedDB c stored) schedule = Some s →
  (closes s ≤ length (List.filter is_versionchange schedule))%nat ∧
  ((∀ o n, VersionChange o n ∉ schedule) → CallClose ∉ log (open s)).
Proof.
  intros Hrun.
  assert (Hle : (closes s ≤ length (List.filter is_versionchange schedule))%nat).
  { cut (∀ schedule s0 s, run s0 schedule = Some s →
           (closes s ≤ closes s0 + length (List.filter is_versionchange schedule))%nat).
    { intros Hgen. apply Hgen in Hrun. by unfold closes in Hrun at 2. }
    clear. intros schedule. induction schedule as [|ev rest IH]; intros s0 s; simpl.
    - intros [= <-]. lia.
    - destruct (step s0 ev) as [s1|] eqn:Hs1; simpl; [|done]. intros Hrun%IH.
      pose proof (closes_step _ _ _ Hs1) as Hle.
      destruct (is_versionchange ev); simpl; lia. }
  split; [done|]. intros Hno Hin.
  assert (Hzero : List.filter is_versionchange schedule = []).
  { clear -Hno. induction schedule as [|ev rest IH]; [done|]. simpl.
    destruct ev as [name|o n|o n| |o n|i]; simpl;
      try (apply IH; intros o' n' Hin; apply (Hno o' n'); by right).
    exfalso. apply (Hno o n). by left. }
  rewrite Hzero in Hle. unfold closes in Hle. simpl in Hle.
  assert (Hpos : (0 < calls is_close (log (open s)))%nat); [|lia].
  clear -Hin. unfold calls. induction (log (open s)) as [|eff l IH]; [by apply elem_of_nil in Hin|].
  apply elem_of_cons in Hin as [<-|Hin]; simpl; [lia|].
  destruct (is_close eff); simpl; [lia | auto].
Qed.
End lifecycle_handlers.

(** ** [clearDatabase] *)

Section clearDatabase.
Import DatabaseClearing.
Variables (config : IndexedDBConfig) (db : connection) (closed : bool) (stored : structure).
Local Abbreviation step := (DatabaseClearing.step config db closed stored).
Local Abbreviation run := (DatabaseClearing.run config db closed stored).
Local Abbreviation next := (DatabaseClearing.next closed stored).
Local Abbreviation start := (DatabaseClearing.clearDatabase config closed stored).
Local Abbreviation inv := (clear_inv config closed stored).

Lemma earlier_fulfilled_snoc ops op :
  Forall fulfilled ops → earlier_fulfilled (ops ++ [op]).
Proof.
  intros Hall j op' Hj Hlt. rewrite length_app in Hlt. simpl in Hlt.
  rewrite lookup_app_l in Hj by lia.
  rewrite Forall_forall in Hall. apply Hall. by eapply list_elem_of_lookup_2.
Qed.

Lemma earlier_fulfilled_all ops op :
  earlier_fulfilled ops → last ops = Some op → fulfilled op → Forall fulfilled ops.
Proof.
  intros Hearlier Hlast Hop. apply Forall_lookup. intros j op' Hj.
  rewrite last_lookup in Hlast.
  destruct (decide (S j < length ops)%nat) as [Hlt|Hge]; [by eapply Hearlier|].
  apply lookup_lt_Some in Hj as Hj'.
  assert (j = pred (length ops)) as -> by lia. congruence.
Qed.

Lemma next_inv stores ops :
  Forall fulfilled ops →
  store_name <$> cfg_stores config = (fst <$> ops) ++ (store_name <$> stores) →
  inv (next stores ops).
Proof.
  intros Hall Hnames. destruct stores as [|store rest]; simpl.
  - split; simpl.
    + intros j op Hj _. rewrite Forall_forall in Hall. apply Hall.
      by eapply list_elem_of_lookup_2.
    + by rewrite app_nil_r in Hnames.
  - destruct (start_operation closed stored (store_name store)) as [op|e] eqn:Hop; split; simpl.
    + by apply earlier_fulfilled_snoc.
    + split.
      * rewrite Hnames, fmap_app, <- app_assoc. done.
      * eexists. split; [apply last_snoc|]. simpl.
        unfold start_operation in Hop.
        destruct (db_transaction closed stored [store_name store]); [|done].
        by injection Hop as <-.
    + intros j op Hj _. rewrite Forall_forall in Hall. apply Hall.
      by eapply list_elem_of_lookup_2.
    + right. exists (store_name store). done.
Qed.

(** An event leaves a settled operation settled as it was. *)
Lemma operation_step_fulfilled name op ev op' :
  OperationAdapter.step config db name op ev = Some op' →
  fulfilled (name, op) → fulfilled (name, op').
Proof.
  intros Hstep [v Hv]. exists v. simpl in *.
  erewrite op_step_settled; [exact Hv | exact Hstep | by rewrite Hv].
Qed.

Lemma step_inv s ev s' : inv s → step s ev = Some s' → inv s'.
Proof.
  intros [Hearlier Hinv] Hstep. destruct ev as [i ev]. simpl in Hstep.
  destruct (issued s !! i) as [[name op]|] eqn:Hi; simpl in Hstep; [|done].
  destruct (OperationAdapter.step config db name op ev) as [op'|] eqn:Hop;
    simpl in Hstep; [|done].
  injection Hstep as <-.
  set (ops := <[i := (name, op')]> (issued s)).
  assert (Hlen : length ops = length (issued s)) by apply length_insert.
  assert (Hilt : (i < length (issued s))%nat) by (by eapply lookup_lt_Some).
  assert (Hnames : fst <$> ops = fst <$> issued s).
  { unfold ops. rewrite list_fmap_insert. simpl.
    apply list_insert_id. by rewrite list_lookup_fmap, Hi. }
  assert (Hkeep : ∀ j op0, ops !! j = Some op0 →
            ∃ op1, issued s !! j = Some op1 ∧ (fulfilled op1 → fulfilled op0) ∧
                   (j ≠ i → op0 = op1)).
  { intros j op0 Hj. unfold ops in Hj. destruct (decide (j = i)) as [->|Hne].
    - rewrite list_lookup_insert_eq in Hj by done. injection Hj as <-.
      exists (name, op). split; [done|]. split; [|done].
      by apply operation_step_fulfilled with ev.
    - rewrite list_lookup_insert_ne in Hj by done. by exists op0. }
  assert (Hearlier' : earlier_fulfilled ops).
  { intros j op0 Hj Hlt. destruct (Hkeep j op0 Hj) as (op1 & Hj1 & Himp & _).
    apply Himp. eapply Hearlier; [exact Hj1 | lia]. }
  assert (Hall' : Forall fulfilled (issued s) → Forall fulfilled ops).
  { rewrite !Forall_lookup. intros Hall j op0 Hj.
    destruct (Hkeep j op0 Hj) as (op1 & Hj1 & Himp & _). apply Himp. by eapply Hall. }
  assert (Hlast' : ∀ e op0, last (issued s) = Some op0 →
            settled (OperationAdapter.race op0.2) = Rejected e →
            ∃ op1, last ops = Some op1 ∧ settled (OperationAdapter.race op1.2) = Rejected e).
  { intros e op0 Hl He. rewrite last_lookup in Hl.
    destruct (decide (pred (length (issued s)) = i)) as [Heq|Hne].
    - rewrite Heq, Hi in Hl. injection Hl as <-. exists (name, op').
      split; [rewrite last_lookup, Hlen, Heq; unfold ops; by apply list_lookup_insert_eq|].
      simpl in *. erewrite op_step_settled; [exact He | exact Hop | by rewrite He].
    - exists op0. split; [|done]. rewrite last_lookup, Hlen. unfold ops.
      by rewrite list_lookup_insert_ne. }
  unfold wake. simpl. fold ops.
  destruct (cleared s) as [|[]|e] eqn:Hcl; simpl.
  - destruct Hinv as (Hcfg & op0 & Hl & Hpend).
    rewrite last_lookup in Hl.
    destruct (decide (pred (length (issued s)) = i)) as [Heq|Hne].
    + rewrite Heq, Hi in Hl. injection Hl as <-. simpl in Hpend.
      assert (Hlast : last ops = Some (name, op')).
      { rewrite last_lookup, Hlen, Heq. unfold ops. by apply list_lookup_insert_eq. }
      rewrite Hlast.
      destruct (settled (OperationAdapter.race op')) as [|v|e] eqn:Hset.
      * split; simpl; [done|]. split; [by rewrite Hnames|].
        exists (name, op'). done.
      * apply next_inv; [|by rewrite Hnames].
        eapply earlier_fulfilled_all; [exact Hearlier' | exact Hlast | by exists v].
      * split; simpl; [done|]. left. split; [by rewrite Hnames|]. by exists (name, op').
    + assert (Hlast : last ops = Some op0).
      { rewrite last_lookup, Hlen. unfold ops. by rewrite list_lookup_insert_ne. }
      rewrite Hlast. destruct op0 as [name0 op0]. simpl in Hpend. rewrite Hpend.
      split; simpl; [done|]. split; [by rewrite Hnames|].
      by exists (name0, op0).
  - destruct Hinv as (Hcfg & Hrem & Hall). split; simpl; [done|].
    split; [by rewrite Hnames|]. split; [done | by apply Hall'].
  - split; simpl; [done|].
    destruct Hinv as [(Hcfg & op0 & Hl & He) | (name0 & Hcfg & Htx & Hall)].
    + left. split; [by rewrite Hnames|]. by eapply Hlast'.
    + right. exists name0. split; [by rewrite Hnames|]. split; [done | by apply Hall'].
Qed.

Lemma run_inv schedule : ∀ s s', inv s → run s schedule = Some s' → inv s'.
Proof.
  induction schedule as [|ev rest IH]; intros s s' Hinv; simpl.
  - by intros [= <-].
  - destruct (step s ev) as [s1|] eqn:Hs1; simpl; [|done]. intros Hrun.
    eapply IH; [|exact Hrun]. by eapply step_inv.
Qed.

(** X18.  [clearDatabase] clears one store after the other, and is not
    atomic.  In every run the requests issued are those of the first stores
    of the configuration, in the configured order, and each was fulfilled
    before the next was issued.  The promise is fulfilled only when every
    configured store has had its request fulfilled.  It is rejected with the
    error of the first [clear()] that failed: one whose promise was rejected,
    or one the engine refused when its transaction was opened.  The stores
    after that one get no request, and the stores before it stay cleared.
    Once settled, the promise does not change and no further request is
    issued. *)
Theorem clearDatabase_is_sequential schedule s :
  run start schedule = Some s →
  let names := store_name <$> cfg_stores config in
  (fst <$> issued s) `prefix_of` names ∧
  earlier_fulfilled (issued s) ∧
  (cleared s = Pending →
     ∃ op, last (issued s) = Some op ∧ settled (OperationAdapter.race op.2) = Pending) ∧
  (∀ u, cleared s = Fulfilled u → fst <$> issued s = names ∧ Forall fulfilled (issued s)) ∧
  (∀ e, cleared s = Rejected e →
     (∃ op, last (issued s) = Some op ∧ settled (OperationAdapter.race op.2) = Rejected e) ∨
     (∃ name, names !! length (issued s) = Some name ∧
              start_operation closed stored name = Throws e ∧
              Forall fulfilled (issued s))) ∧
  (∀ ev s', cleared s ≠ Pending → step s ev = Some s' →
     cleared s' = cleared s ∧ length (issued s') = length (issued s)).
Proof.
  intros Hrun names.
  assert (Hinv : inv s).
  { eapply run_inv; [|exact Hrun]. by apply next_inv. }
  destruct Hinv as [Hearlier Hinv]. fold names in Hinv.
  split; [|split; [done|]]; [|split; [|split; [|split]]].
  - destruct (cleared s) as [|u|e].
    + destruct Hinv as [-> _]. by eexists.
    + destruct Hinv as [-> _]. done.
    + destruct Hinv as [[-> _] | (name & -> & _)]; by eexists.
  - intros Hcl. rewrite Hcl in Hinv. by destruct Hinv as [_ Hlast].
  - intros u Hcl. rewrite Hcl in Hinv. by destruct Hinv as (-> & _ & Hall).
  - intros e Hcl. rewrite Hcl in Hinv.
    destruct Hinv as [[_ Hlast] | (name & -> & Htx & Hall)]; [by left|].
    right. exists name. split; [|done].
    rewrite lookup_app_r by (by rewrite length_fmap).
    by rewrite length_fmap, Nat.sub_diag.
  - intros [i ev] s' Hcl. simpl.
    destruct (issued s !! i) as [[name op]|]; simpl; [|done].
    destruct (OperationAdapter.step config db name op ev) as [op'|]; simpl; [|done].
    intros [= <-]. unfold wake. simpl.
    destruct (cleared s); [done| |]; simpl; by rewrite length_insert.
Qed.

Lemma run_successes stores : ∀ ops,
  closed = false →
  (∀ store, store ∈ stores → is_Some (stored !! store_name store)) →
  run (next stores ops) (successes (length ops) (length stores)) =
  Some {| remaining := []; cleared := Fulfilled tt;
          issued := ops ++ ((λ store, (store_name store, succeeded)) <$> stores) |}.
Proof.
  induction stores as [|store rest IH]; intros ops Hopen Hpresent; simpl.
  - by rewrite app_nil_r.
  - assert (Hop : start_operation closed stored (store_name store) =
                  Returns OperationAdapter.iDBPromise).
    { unfold start_operation, db_transaction. rewrite Hopen. simpl.
      rewrite bool_decide_eq_true_2; [done|]. apply Hpresent. by left. }
    rewrite Hop. simpl. rewrite list_lookup_middle by done. simpl.
    unfold wake. simpl.
    rewrite insert_app_r_alt, Nat.sub_diag by done. simpl.
    rewrite last_snoc. simpl.
    specialize (IH (ops ++ [(store_name store, succeeded)]) Hopen).
    rewrite length_app, Nat.add_1_r, <- app_assoc in IH. apply IH.
    intros store' Hin. apply Hpresent. by right.
Qed.

(** X19.  [clearDatabase] on a healthy connection.  With the connection
    open and every configured store present, when the engine answers each
    request with success as it is issued, one request is issued per configured
    store, in the configured order, each is fulfilled without a callback being
    called, and the promise is fulfilled.  With no store configured it is
    fulfilled at once and nothing is issued. *)
Theorem clearDatabase_clears_every_store :
  closed = false →
  (∀ store, store ∈ cfg_stores config → is_Some (stored !! store_name store)) →
  ∃ s, run start (successes 0 (length (cfg_stores config))) = Some s ∧
       cleared s = Fulfilled tt ∧
       fst <$> issued s = store_name <$> cfg_stores config ∧
       Forall (λ op, settled (OperationAdapter.race op.2) = Fulfilled VUndefined ∧
                     log (OperationAdapter.race op.2) = [CallResolve]) (issued s).
Proof.
  intros Hopen Hpresent. eexists. split; [by apply (run_successes _ [])|].
  simpl. split; [done|]. split.
  - rewrite <- list_fmap_compose. done.
  - apply Forall_fmap, Forall_forall. done.
Qed.
End clearDatabase.

(** ** [deleteDatabase] *)

Section deleteDatabase.
Import DatabaseDeletion.
Variable config : IndexedDBConfig.
Local Abbreviation step := (DatabaseDeletion.step config).
Local Abbreviation run := (DatabaseDeletion.run config).
Local Abbreviation start := (DatabaseDeletion.deleteDatabase config).

Lemma deletion_run_invariant (P : state → Prop) :
  (∀ s ev s', P s → step s ev = Some s' → P s') →
  ∀ schedule s s', P s → run s schedule = Some s' → P s'.
Proof.
  intros Hstep schedule. induction schedule as [|ev rest IH]; intros s s' HP; simpl.
  - by intros [= <-].
  - destruct (step s ev) as [s1|] eqn:Hs1; simpl; [|done]. eauto.
Qed.

Lemma deletion_inv_step s ev s' :
  deletion_inv s ∧ target s = cfg_name config → step s ev = Some s' →
  deletion_inv s' ∧ target s' = cfg_name config.
Proof.
  intros [((l & Hl & Hcl & Hto) & Hset & Hw) Htarget] Hstep.
  destruct ev as [|name| |i]; simpl in Hstep.
  - destruct (request_done s); [done|]. injection Hstep as <-. split; [|done].
    split; [|split]; simpl.
    + exists (l ++ [CallResolve]). rewrite Hl, !calls_snoc. simpl. split; [done|lia].
    + intros e. destruct (settled (deleted s)) eqn:Hs; simpl; try done. by apply Hset.
    + done.
  - destruct (request_done s); [done|]. injection Hstep as <-. split; [|done].
    unfold onerror. simpl.
    destruct (call_onError config (Some (DOMException name))) as [[eff [u|e]]|] eqn:Hcall;
      try (apply call_onError_effect in Hcall as ->); simpl; (split; [|split]); simpl.
    + exists (l ++ [CallOnError (Some (DOMException name))]).
      rewrite Hl, !calls_snoc. simpl. split; [done|lia].
    + done.
    + intros k [Hk|Hk%list_elem_of_singleton]%elem_of_app; [auto | eauto].
    + exists (l ++ [CallOnError (Some (DOMException name))]).
      rewrite Hl, !calls_snoc. simpl. split; [done|lia].
    + done.
    + done.
    + exists (l ++ [CallReject (DOMException name)]).
      rewrite Hl, !calls_snoc. simpl. split; [done|lia].
    + intros e. destruct (settled (deleted s)) eqn:Hs; simpl; try done.
      * intros [= <-]. eauto.
      * by apply Hset.
    + done.
  - destruct (request_done s); [done|]. injection Hstep as <-.
    split; [|done]. split; [by exists l|]. by split.
  - destruct (waiting (deleted s) !! i) as [k|] eqn:Hi; simpl in Hstep; [|done].
    injection Hstep as <-. split; [|done].
    destruct (Hw k) as [name ->]; [by eapply list_elem_of_lookup_2|].
    split; [|split]; simpl.
    + exists (l ++ [CallReject (DOMException name)]).
      rewrite Hl, !calls_snoc. simpl. split; [done|lia].
    + intros e. destruct (settled (deleted s)) eqn:Hs; simpl; try done.
      * intros [= <-]. eauto.
      * by apply Hset.
    + intros k Hk. apply Hw. eapply elem_of_sublist; [exact Hk | apply sublist_delete].
Qed.

(** X20.  The outcomes of [deleteDatabase].  The connection is closed
    first.  When the delete request succeeds the promise is fulfilled.  When
    it fails the error callback is called with the request's error, and the
    promise is rejected with it: at once without a callback, on resumption
    when the callback has completed, and never when it throws. *)
Theorem deleteDatabase_settles_with_the_request :
  (∃ s, step start RequestSuccess = Some s ∧
        settled (deleted s) = Fulfilled tt ∧ log (deleted s) = [CallClose; CallResolve]) ∧
  (∀ name, ∃ s, step start (RequestError name) = Some s ∧
     match callback config onError with
     | None =>
         log (deleted s) = [CallClose; CallReject (DOMException name)] ∧
         settled (deleted s) = Rejected (DOMException name)
     | Some cb =>
         log (deleted s) = [CallClose; CallOnError (Some (DOMException name))] ∧
         settled (deleted s) = Pending ∧
         match cb (Some (DOMException name)) with
         | Returns _ =>
             ∃ s', step s (Resume 0) = Some s' ∧
                   settled (deleted s') = Rejected (DOMException name)
         | Throws _ => ∀ schedule s', run s schedule = Some s' → s' = s
         end
     end).
Proof.
  split.
  - eexists. split; [reflexivity|]. done.
  - intros name. eexists. split; [reflexivity|].
    unfold onerror, call_onError. simpl.
    destruct (callback config onError) as [cb|]; simpl; [|done].
    destruct (cb (Some (DOMException name))) as [[]|e']; simpl.
    + repeat split. eexists. repeat split.
    + repeat split. intros schedule s'.
      destruct schedule as [|[|name'| |i] rest]; simpl; try done. by intros [= <-].
Qed.

(** X21.  [deleteDatabase] closes the connection whatever happens next, and
    has no timeout.  In every run the request is for the configured name, the
    first call is [db.close()] and the connection is not closed again; nothing
    is aborted, no timeout callback is called and the promise is never
    rejected with the timeout error.  No handler is installed for [blocked]:
    as long as the engine only signals that other connections keep the
    database open, the promise stays pending and no callback is called. *)
Theorem deleteDatabase_closes_first_and_never_times_out schedule s :
  run start schedule = Some s →
  target s = cfg_name config ∧
  (∃ l, log (deleted s) = CallClose :: l ∧
        calls is_close l = 0%nat ∧ calls is_timeout_effect l = 0%nat) ∧
  settled (deleted s) ≠ Rejected TransactionTimeout ∧
  (Forall (λ ev, is_blocked ev = true) schedule →
   settled (deleted s) = Pending ∧ log (deleted s) = [CallClose]).
Proof.
  intros Hrun.
  assert (Hinv : deletion_inv s ∧ target s = cfg_name config).
  { eapply (deletion_run_invariant (λ s, deletion_inv s ∧ target s = cfg_name config));
      [apply deletion_inv_step | | exact Hrun].
    split; [|done]. split; [by exists []|]. split; [done|].
    by intros k ?%elem_of_nil. }
  destruct Hinv as [(Hlog & Hset & _) Htarget].
  split; [done|]. split; [done|]. split.
  - intros Hto. by destruct (Hset _ Hto).
  - intros Hblocked. cut (s = start); [by intros ->|].
    clear -Hrun Hblocked. revert Hrun. generalize start. intros s0.
    induction Hblocked as [|ev rest Hev _ IH]; simpl.
    + by intros [= <-].
    + destruct ev; try done. simpl.
      destruct (request_done s0) eqn:Hrd; simpl; [done|]. apply IH.
Qed.
End deleteDatabase.

(** ** Operations on the synchronised structure *)

Lemma db_transaction_one closed stored name :
  db_transaction closed stored [name] =
  if closed then Throws (DOMException "InvalidStateError")
  else if bool_decide (is_Some (stored !! name)) then Returns tt
       else Throws (DOMException "NotFoundError").
Proof.
  unfold db_transaction. simpl. destruct closed; [done|].
  by destruct (bool_decide (is_Some (stored !! name))).
Qed.

(** X22.  The configuration decides which operations the engine accepts.
    On the structure the synchroniser leaves, an operation of [useStore] on a
    configured store finds its transaction and gets its bridge, with the timer
    armed.  On any other name the engine refuses the transaction: the promise
    is rejected with [NotFoundError] and there is no bridge, so no callback is
    called.  On a connection that has been closed every operation is refused
    with [InvalidStateError]. *)
Theorem operations_follow_the_configuration (stores : list StoreSchema) (w : world) :
  ∃ w', synchronize stores w = (Returns tt, w') ∧
    (∀ n, n ∈ store_name <$> stores →
          start_operation false (w_db w') n = Returns OperationAdapter.iDBPromise) ∧
    (∀ n, n ∉ store_name <$> stores →
          start_operation false (w_db w') n = Throws (DOMException "NotFoundError")) ∧
    (∀ n, start_operation true (w_db w') n = Throws (DOMException "InvalidStateError")).
Proof.
  destruct (synchronize_runs_any stores w) as ([] & w' & Hrun & Hout & Hlast).
  exists w'. split; [done|]. unfold start_operation. split; [|split].
  - intros n [s Hs]%last_entry_is_Some. destruct (Hlast n s Hs) as (st & Hst & _).
    rewrite db_transaction_one, Hst. by rewrite bool_decide_eq_true_2 by eauto.
  - intros n Hn%Hout. rewrite db_transaction_one, Hn.
    by rewrite bool_decide_eq_false_2 by (by intros []).
  - intros n. by rewrite db_transaction_one.
Qed.

(** X23.  Cursors on the synchronised structure.  A call with the
    callback alone, with options that name no index, or with the empty index
    name walks the store itself.  With a non-empty index name the cursor is
    opened over that index when the store's configuration names it; when it
    does not, [store.index] throws and the promise is rejected with
    [NotFoundError]. *)
Theorem cursors_follow_the_configuration (stores : list StoreSchema) (w : world) :
  ∃ w', synchronize stores w = (Returns tt, w') ∧
    ∀ n s (F : Type) (arg1 : F + CursorOptions) (arg2 : option F),
      last_entry stores n = Some s →
      open_cursor_request false (w_db w') n (cursor_arguments arg1 arg2).2 =
      match arg1 with
      | inl callback => Returns OverStore
      | inr options =>
          match co_index options with
          | None => Returns OverStore
          | Some i =>
              if decide (i = EmptyString) then Returns OverStore
              else if decide (i ∈ index_name <$> configured_indexes s)
                   then Returns (OverIndex i)
                   else Throws (DOMException "NotFoundError")
          end
      end.
Proof.
  destruct (synchronize_runs_any stores w) as ([] & w' & Hrun & Hout & Hlast).
  exists w'. split; [done|]. intros n s F arg1 arg2 Hs.
  destruct (Hlast n s Hs) as (st & Hst & Hix).
  unfold open_cursor_request, cursor_source_of.
  rewrite db_transaction_one, Hst. rewrite bool_decide_eq_true_2 by eauto.
  destruct arg1 as [callback|options]; simpl; [done|].
  destruct (co_index options) as [i|]; [|done].
  destruct (decide (i = EmptyString)) as [->|Hne]; [done|].
  apply String.eqb_neq in Hne. rewrite Hne. simpl.
  destruct (decide (i ∈ index_name <$> configured_indexes s)) as [Hin|Hin].
  - apply Hix in Hin as [d ->]. done.
  - destruct (indexes st !! i) as [d|] eqn:Hd; [|done].
    exfalso. apply Hin, Hix. eauto.
Qed.

(** ** The cursor walk, counted *)

Section cursor_adapter_count.
Import CursorAdapter.
Context (config : IndexedDBConfig) {Cursor : Type} (f : Cursor → value).
Local Abbreviation step := (CursorAdapter.step config Cursor f).
Local Abbreviation run := (CursorAdapter.run config Cursor f).
Local Abbreviation start := (CursorAdapter.iDBCursorPromise).

Lemma cursor_continue_step s ev s' :
  step s ev = Some s' →
  calls is_continue (log (race s')) =
  (calls is_continue (log (race s)) + length (visited Cursor [ev]))%nat.
Proof.
  intros Hstep. destruct ev as [[c|]|name|i]; simpl in Hstep.
  - destruct (expecting s); [|done]. injection Hstep as <-. simpl.
    rewrite calls_snoc. simpl. lia.
  - destruct (expecting s); [|done]. injection Hstep as <-. simpl.
    rewrite calls_snoc. simpl. lia.
  - destruct (expecting s); [|done]. injection Hstep as <-. simpl.
    destruct (call_onError config (Some (DOMException name))) as [[eff [u|e]]|] eqn:Hcall;
      try (apply call_onError_effect in Hcall as ->); simpl;
      rewrite calls_snoc; simpl; lia.
  - destruct (waiting (race s) !! i) as [[e]|]; simpl in Hstep; [|done].
    injection Hstep as <-. simpl. rewrite calls_snoc. simpl. lia.
Qed.

(** X24.  The cursor is advanced once per record.  In every run
    [cursor.continue()] has been called exactly once for each record the
    engine delivered, whether the transform's result was kept or dropped, and
    never after exhaustion or an error; the results gathered are never more
    than the records delivered. *)
Theorem cursor_advances_once_per_record schedule s :
  run start schedule = Some s →
  calls is_continue (log (race s)) = length (visited Cursor schedule) ∧
  (length (data s) ≤ length (visited Cursor schedule))%nat ∧
  (expecting s = false → ∀ ev s', step s ev = Some s' →
     calls is_continue (log (race s')) = calls is_continue (log (race s))).
Proof.
  intros Hrun. split; [|split].
  - cut (∀ schedule s0 s, run s0 schedule = Some s →
           calls is_continue (log (race s)) =
           (calls is_continue (log (race s0)) + length (visited Cursor schedule))%nat).
    { intros Hgen. by apply Hgen in Hrun. }
    clear. intros schedule. induction schedule as [|ev rest IH]; intros s0 s Hrun.
    + injection Hrun as <-. simpl. lia.
    + simpl in Hrun. destruct (step s0 ev) as [s1|] eqn:Hs1; simpl in Hrun; [|done].
      apply IH in Hrun. rewrite Hrun, (cursor_continue_step _ _ _ Hs1).
      change (ev :: rest) with ([ev] ++ rest). unfold visited.
      rewrite (omap_app _ [ev] rest), length_app. lia.
  - apply (cursor_inv_run config f schedule [] start s (cursor_inv_start f)) in Hrun
      as (Hdata & _ & _).
    simpl in Hdata. rewrite Hdata. unfold collected.
    etrans; [apply length_filter|]. by rewrite length_fmap.
  - intros Hexp ev s' Hstep. rewrite (cursor_continue_step _ _ _ Hstep).
    destruct ev as [[c|]|name|i]; simpl in *; rewrite ?Hexp in Hstep; try done; lia.
Qed.
End cursor_adapter_count.

(** ** Shared transactions on the synchronised structure *)

Lemma transaction_stores_lookup storeNames n :
  transaction_stores storeNames !! n = if decide (n ∈ storeNames) then Some n else None.
Proof.
  unfold transaction_stores.
  cut (∀ base : gmap string string,
         foldl (λ stores name, <[name := name]> stores) base storeNames !! n =
         if decide (n ∈ storeNames) then Some n else base !! n).
  { intros Hgen. rewrite Hgen. by destruct (decide (n ∈ storeNames)). }
  induction storeNames as [|x l IH]; intros base; cbn [foldl].
  - destruct (decide (n ∈ [])) as [Hin|_]; [by apply elem_of_nil in Hin | done].
  - rewrite IH. destruct (decide (n ∈ l)) as [Hin|Hin].
    + rewrite decide_True; [done | by right].
    + destruct (decide (n = x)) as [->|Hne].
      * rewrite lookup_insert_eq. rewrite decide_True; [done | by left].
      * rewrite lookup_insert_ne by done. rewrite decide_False; [done|].
        rewrite not_elem_of_cons. done.
Qed.

Lemma db_transaction_accepts stored storeNames :
  db_transaction false stored storeNames =
  if decide (Forall (λ n, is_Some (stored !! n)) storeNames)
  then match storeNames with
       | [] => Throws (DOMException "InvalidAccessError")
       | _ => Returns tt
       end
  else Throws (DOMException "NotFoundError").
Proof.
  unfold db_transaction.
  assert (Hall : forallb (λ name, bool_decide (is_Some (stored !! name))) storeNames = true ↔
                 Forall (λ n, is_Some (stored !! n)) storeNames).
  { rewrite forallb_forall, Forall_forall. split.
    - intros H n Hn. apply list_elem_of_In in Hn. apply H in Hn. by apply bool_decide_eq_true in Hn.
    - intros H n Hn. apply list_elem_of_In in Hn. by apply bool_decide_eq_true, H. }
  destruct (decide (Forall (λ n, is_Some (stored !! n)) storeNames)) as [Hyes|Hno].
  - apply Hall in Hyes. by rewrite Hyes.
  - destruct (forallb _ storeNames) eqn:Hf; [|done]. exfalso. by apply Hno, Hall.
Qed.

(** X25.  Shared transactions on the synchronised structure.
    [transaction] over a non-empty list of configured names is accepted: the
    caller gets the coordinator with its timer armed, and a [stores] record
    with one entry for each name requested and no other.  If one of the names
    is not configured the engine refuses with [NotFoundError], and an empty
    list with [InvalidAccessError]; the error is thrown to the caller and no
    timer is armed. *)
Theorem transactions_follow_the_configuration (stores : list StoreSchema) (w : world) :
  ∃ w', synchronize stores w = (Returns tt, w') ∧
    ∀ storeNames,
      open_transaction false (w_db w') storeNames =
      (if decide (Forall (λ n, n ∈ store_name <$> stores) storeNames)
       then match storeNames with
            | [] => Throws (DOMException "InvalidAccessError")
            | _ => Returns (transaction_stores storeNames, TransactionCoordinator.transaction)
            end
       else Throws (DOMException "NotFoundError")) ∧
      TransactionCoordinator.timer TransactionCoordinator.transaction = Armed ∧
      ∀ n, transaction_stores storeNames !! n =
           if decide (n ∈ storeNames) then Some n else None.
Proof.
  destruct (synchronize_runs_any stores w) as ([] & w' & Hrun & Hout & Hlast).
  assert (Hdom : ∀ n, is_Some (w_db w' !! n) ↔ n ∈ store_name <$> stores).
  { intros n. split.
    - intros Hn. destruct (decide (n ∈ store_name <$> stores)) as [|Hno]; [done|].
      apply Hout in Hno. rewrite Hno in Hn. by destruct Hn.
    - intros [s Hs]%last_entry_is_Some. destruct (Hlast n s Hs) as (st & -> & _). eauto. }
  exists w'. split; [done|]. intros storeNames.
  unfold open_transaction. rewrite db_transaction_accepts.
  assert (Hiff : Forall (λ n, is_Some (w_db w' !! n)) storeNames ↔
                 Forall (λ n, n ∈ store_name <$> stores) storeNames).
  { apply Forall_iff. intros n. apply Hdom. }
  split; [|split; [done | apply transaction_stores_lookup]].
  destruct (decide (Forall (λ n, is_Some (w_db w' !! n)) storeNames)) as [Hyes|Hno].
  - rewrite decide_True by (by apply Hiff). by destruct storeNames.
  - rewrite decide_False; [done|]. by rewrite <- Hiff.
Qed.

(** ** A blocked open that succeeds *)

Section lifecycle_blocked_success.
Import Lifecycle.
Variable conn : connection.
Local Abbreviation step := (Lifecycle.step conn).
Local Abbreviation run := (Lifecycle.run conn).

Lemma lc_run_settled schedule : ∀ s s',
  settled (open s) ≠ Pending → run s schedule = Some s' → settled (open s') = settled (open s).
Proof.
  induction schedule as [|ev rest IH]; intros s s' Hset; simpl.
  - by intros [= <-].
  - destruct (step s ev) as [s1|] eqn:Hs1; simpl; [|done]. intros Hrun.
    pose proof (lc_step_settled _ _ _ _ Hs1 Hset) as Hset1.
    rewrite <- Hset1. apply IH; [by rewrite Hset1 | done].
Qed.

(** The upgrade handler leaves the open promise, the suspended handlers and
    the callbacks as they are. *)
Lemma upgrades_keep_the_open upgrades : ∀ s,
  Forall is_upgradeneeded upgrades → request_done s = false →
  ∃ s', run s upgrades = Some s' ∧
        settled (open s') = settled (open s) ∧ waiting (open s') = waiting (open s) ∧
        request_done s' = false ∧ cfg_events (config s') = cfg_events (config s).
Proof.
  induction upgrades as [|ev rest IH]; intros s Hall Hrd.
  - by exists s.
  - apply Forall_cons in Hall as [(o & n & ->) Hall]. simpl. rewrite Hrd. simpl.
    destruct (onupgradeneeded_handler_log s o n) as (Hset & Hw & Hrd' & _).
    pose proof (onupgradeneeded_config (config s)
      {| ev_oldVersion := o; ev_newVersion := n |}
      {| w_db := db s; w_log := log (open s) |}) as ((_ & _ & _ & Hev) & _).
    assert (Hev' : cfg_events (config (onupgradeneeded_handler o n s)) = cfg_events (config s)).
    { unfold onupgradeneeded_handler.
      by destruct (onupgradeneeded _ _ _) as [c' [r w']]. }
    destruct (IH (onupgradeneeded_handler o n s) Hall) as (s' & Hrun & H1 & H2 & H3 & H4).
    { by rewrite Hrd'. }
    exists s'. split; [done|]. rewrite H1, H2, H4. done.
Qed.

(** C9, on the code.  A blocked open whose request succeeds while the blocked
    callback is still pending.  The blocked handler calls the blocked callback
    and is suspended on its promise, with the error callback and [reject] still
    to come; the open promise is pending and the request is not cancelled.
    When the connection in the way closes before the callback has completed,
    the engine goes on with the request: the upgrade runs, if one is needed,
    and success is signalled.  The success handler then fulfils the open
    promise with the connection, for good: the blocked handler, when it is
    resumed, still calls the error callback with the blocked error (and
    [reject], when there is none), and the promise stays fulfilled in every
    continuation. *)
Theorem blocked_open_is_fulfilled_by_a_later_success c stored oldVersion newVersion cb r :
  let newV := default (cfg_version c) newVersion in
  let error := default (UpgradeBlocked (cfg_name c) newV oldVersion) r in
  callback c onBlocked = Some cb →
  cb oldVersion newV = Returns r →
  ∃ s1, step (openIndexedDB c stored) (Blocked oldVersion newVersion) = Some s1 ∧
    log (open s1) = [CallOpen (cfg_name c) (cfg_version c); CallOnBlocked oldVersion newV] ∧
    settled (open s1) = Pending ∧ waiting (open s1) = [KErrorThenReject error] ∧
    ∀ upgrades, Forall is_upgradeneeded upgrades →
      ∃ s2 s3 l,
        run s1 (upgrades ++ [RequestSuccess]) = Some s2 ∧
        settled (open s2) = Fulfilled conn ∧
        log (open s2) = l ++ [CallResolve] ∧
        step s2 (Resume 0) = Some s3 ∧
        log (open s3) =
          l ++ [CallResolve;
                match callback c onError with
                | Some _ => CallOnError (Some error)
                | None => CallReject error
                end] ∧
        ∀ rest s', run s2 rest = Some s' → settled (open s') = Fulfilled conn.
Proof.
  intros newV error Hcb Hr. subst newV error.
  set (s1 := onblocked oldVersion newVersion (openIndexedDB c stored)).
  assert (Hs1 : open s1 =
                suspend (KErrorThenReject
                           (default (UpgradeBlocked (cfg_name c)
                                       (default (cfg_version c) newVersion) oldVersion) r))
                        (note (CallOnBlocked oldVersion (default (cfg_version c) newVersion))
                              (open (openIndexedDB c stored))) ∧
                request_done s1 = false ∧ cfg_events (config s1) = cfg_events c).
  { unfold s1, onblocked. simpl.
    change (callback (set_transactionTimeout c _) onBlocked) with (callback c onBlocked).
    rewrite Hcb. simpl. by rewrite Hr. }
  destruct Hs1 as (Hopen & Hrd & Hev).
  exists s1. split; [reflexivity|]. rewrite Hopen. repeat (split; [reflexivity|]).
  intros upgrades Hall.
  destruct (upgrades_keep_the_open upgrades s1 Hall Hrd) as (s & Hrun & Hset & Hw & Hrd' & Hev').
  rewrite Hopen in Hset, Hw. simpl in Hset, Hw. rewrite Hev in Hev'.
  set (s2 := onsuccess conn (deliver s)).
  assert (Hset2 : settled (open s2) = Fulfilled conn) by (simpl; by rewrite Hset).
  exists s2, (with_open s2 (resume s2 (KErrorThenReject
                (default (UpgradeBlocked (cfg_name c)
                            (default (cfg_version c) newVersion) oldVersion) r))
                (unsuspend 0 (open s2)))), (log (open s)).
  split.
  { clear -Hrun Hrd'. revert Hrun. generalize s1. 
    induction upgrades as [|ev rest IH]; intros s0; simpl.
    - intros [= ->]. by rewrite Hrd'.
    - destruct (step s0 ev) as [s0'|]; simpl; [|done]. apply IH. }
  split; [done|]. split; [done|]. split.
  { simpl. by rewrite Hw. }
  split.
  - simpl. unfold error_then_reject, call_onError, callback. simpl. rewrite Hev'.
    destruct (cfg_events c ≫= onError) as [cbe|]; simpl.
    + destruct (cbe _); simpl; by rewrite <- app_assoc.
    + by rewrite <- app_assoc.
  - intros rest s' Hrest. rewrite <- Hset2. apply (lc_run_settled rest); [|done].
    by rewrite Hset2.
Qed.
End lifecycle_blocked_success.

(** ** A success after the open promise was rejected *)

Section lifecycle_late_success.
Import Lifecycle.
Variable conn : connection.
Local Abbreviation step := (Lifecycle.step conn).

(** X26.  A success that comes after a rejection.  A blocked open is not
    over when the library has rejected its promise: the request is still
    outstanding.  When it later succeeds, the success handler runs as ever:
    the connection is open and answers version changes from then on, while the
    promise stays rejected and the connection is not closed; the caller never
    gets hold of it. *)
Theorem rejected_open_still_opens_the_connection s e :
  request_done s = false → settled (open s) = Rejected e →
  ∃ s', step s RequestSuccess = Some s' ∧
        settled (open s') = Rejected e ∧ opened s' = true ∧
        log (open s') = log (open s) ++ [CallResolve] ∧
        closes s' = closes s ∧
        ∀ oldVersion new, is_Some (step s' (VersionChange oldVersion new)).
Proof.
  intros Hrd Hrej. simpl. rewrite Hrd. eexists. split; [reflexivity|].
  simpl. rewrite Hrej. split; [done|]. split; [done|]. split; [done|]. split.
  - unfold closes. simpl. rewrite calls_snoc. simpl. lia.
  - intros oldVersion new. eauto.
Qed.
End lifecycle_late_success.

(** ** An open that synchronises the schema *)

Section lifecycle_synchronisation.
Import Lifecycle.
Variable conn : connection.
Local Abbreviation step := (Lifecycle.step conn).
Local Abbreviation run := (Lifecycle.run conn).

Lemma onupgradeneeded_handler_db s oldVersion new :
  db (onupgradeneeded_handler oldVersion new s) =
  w_db (snd (upgrade_body (config s) oldVersion (default (cfg_version (config s)) new)
               {| w_db := db s; w_log := log (open s) |})).
Proof.
  unfold onupgradeneeded_handler.
  pose proof (onupgradeneeded_body (config s)
    {| ev_oldVersion := oldVersion; ev_newVersion := new |}
    {| w_db := db s; w_log := log (open s) |}) as Hbody.
  destruct (onupgradeneeded _ _ _) as [c' [r w']]. simpl in *. by rewrite <- Hbody.
Qed.

(** X27.  An open that synchronises the schema.  Without [migrations] and
    without an [onUpgradeStart] callback, so that the synchronisation runs in
    the turn of the upgrade event, and with store names that are unique, an open
    that needs an upgrade and then succeeds fulfils its promise with the
    connection, whatever structure the database had: its stores are then
    exactly the configured ones, and each is reconciled with its configuration
    entry, whether or not [onUpgradeEnd] completes. *)
Theorem open_synchronises_the_schema c stored oldVersion new :
  cfg_migrations c = None →
  NoDup (store_name <$> cfg_stores c) →
  callback c onUpgradeStart = None →
  ∃ s, run (openIndexedDB c stored) [UpgradeNeeded oldVersion new; RequestSuccess] = Some s ∧
    settled (open s) = Fulfilled conn ∧
    (∀ n, is_Some (db s !! n) ↔ n ∈ store_name <$> cfg_stores c) ∧
    (∀ store, store ∈ cfg_stores c →
       ∃ st, db s !! store_name store = Some st ∧
             reconciled store (stored !! store_name store) st).
Proof.
  intros Hmig Hnd Hstart.
  destruct (onupgradeneeded_handler_log (openIndexedDB c stored) oldVersion new)
    as (Hset & _ & Hrd & _).
  exists (onsuccess conn (deliver (onupgradeneeded_handler oldVersion new
                                     (openIndexedDB c stored)))).
  split; [simpl; by rewrite Hrd|].
  simpl. rewrite Hset. split; [done|].
  rewrite onupgradeneeded_handler_db. simpl.
  set (newVersion := default (cfg_version c) new).
  set (config0 := set_transactionTimeout c (Some (default 5000 (cfg_transactionTimeout c)))).
  set (w0 := {| w_db := stored; w_log := [CallOpen (cfg_name c) (cfg_version c)] |}).
  cut (∃ w2, w_db (snd (upgrade_body config0 oldVersion newVersion w0)) = w_db w2 ∧
             (∀ n, n ∉ store_name <$> cfg_stores c → w_db w2 !! n = None) ∧
             (∀ store, store ∈ cfg_stores c →
                ∃ st, w_db w2 !! store_name store = Some st ∧
                      reconciled store (stored !! store_name store) st)).
  { intros (w2 & -> & Hout & Hin). split; [|done].
    intros n. split.
    - intros Hn. destruct (decide (n ∈ store_name <$> cfg_stores c)) as [|Hno]; [done|].
      apply Hout in Hno. rewrite Hno in Hn. by destruct Hn.
    - intros (store & -> & Hs)%list_elem_of_fmap. destruct (Hin store Hs) as (st & -> & _).
      eauto. }
  unfold upgrade_body, upgrade_start. simpl. rewrite Hmig.
  change (callback config0 onUpgradeStart) with (callback c onUpgradeStart).
  rewrite Hstart. simpl.
  destruct (synchronize_runs (cfg_stores c) w0 Hnd) as ([] & w2 & Hrun & Hout & Hin).
  exists w2. unfold bind, ret. rewrite Hrun.
  unfold upgrade_end. by rewrite await_callback_db.
Qed.
End lifecycle_synchronisation.

(** * Witnesses and counterexamples *)

(** ** Schema synchronisation on a stale structure *)

Example synchronize_stale_world :
  w_log (snd (synchronize [users_store; orders_store] stale_world)) =
  [DeleteObjectStore "legacy"; DeleteIndex "users" "by_age";
   CreateIndex "users" "by_name" "name" None; CreateObjectStore "orders" None].
Proof. vm_compute. reflexivity. Qed.

Lemma synchronize_reconciles_witness :
  NoDup (store_name <$> [users_store; orders_store]) ∧
  ∃ w', synchronize [users_store; orders_store] stale_world = (Returns tt, w') ∧
    (∀ n, is_Some (w_db w' !! n) ↔ n ∈ store_name <$> [users_store; orders_store]) ∧
    (∀ s, s ∈ [users_store; orders_store] →
          ∃ st, w_db w' !! store_name s = Some st ∧
                reconciled s (w_db stale_world !! store_name s) st).
Proof.
  assert (Hnd : NoDup (store_name <$> [users_store; orders_store])).
  { apply (bool_decide_unpack _). vm_compute. exact I. }
  split; [exact Hnd|].
  destruct (synchronize_reconciles _ stale_world Hnd) as (w' & Hrun & Hset & Hrec & _).
  exists w'. split; [exact Hrun|]. split; [exact Hset | exact Hrec].
Defined.

(** ** An empty [migrations] array: the synchroniser does not run *)

(** C2, counterexample.  With [migrations: []] and a configured store the
    database lacks, the upgrade returns and leaves the structure empty, with
    nothing logged, where the synchroniser would have created the store. *)
Lemma empty_migrations_disable_synchroniser :
  snd (onupgradeneeded (config_with (Some []) None)
         {| ev_oldVersion := 0; ev_newVersion := Some 2 |} empty_world)
    = (Returns tt, empty_world) ∧
  w_log (snd (synchronize (cfg_stores (config_with (Some []) None)) empty_world))
    = [CreateObjectStore "users" (Some {| sp_keyPath := Some "id"; sp_autoIncrement := false |});
       CreateIndex "users" "by_name" "name" None].
Proof. split; vm_compute; reflexivity. Qed.

(** ** Two migrations of one version *)

(** C3, counterexample.  Two migrations configured for version 1 both run on
    an upgrade from 0 to 1, in the order configured: the versions run are
    1, 1, which is ascending and not strictly so. *)
Lemma equal_versions_not_strictly_ascending :
  version <$> chosen 0 1 [creates 1 "a"; creates 1 "b"] = [1; 1] ∧
  w_log (snd (run_migrations 0 1 (array_sort by_version [creates 1 "a"; creates 1 "b"])
                empty_world))
    = [CallMigration 0 1 1; CallMigration 0 1 1] ∧
  ¬ StronglySorted version_lt (chosen 0 1 [creates 1 "a"; creates 1 "b"]).
Proof.
  split; [by vm_compute|]. split; [by vm_compute|].
  change (chosen 0 1 [creates 1 "a"; creates 1 "b"]) with [creates 1 "a"; creates 1 "b"].
  intros Hs. apply StronglySorted_inv in Hs as [_ Hall].
  apply Forall_cons in Hall as [Hlt _]. unfold version_lt in Hlt. simpl in Hlt. lia.
Qed.

(** ** An error event after a timeout *)

(** C1, counterexample.  The timer fires and its rejection is delivered; then
    the request fails.  The promise stays rejected with the timeout error,
    but the error path has run as well: the error callback has been called,
    after the settlement, and [reject] a second time. *)
Lemma late_error_after_timeout_calls_onError :
  ∃ s, OperationAdapter.run (config_with None (Some all_events)) db7 "users"
         OperationAdapter.iDBPromise
         [OperationAdapter.TimerFires; OperationAdapter.Resume 0;
          OperationAdapter.RequestError "ConstraintError"; OperationAdapter.Resume 0]
       = Some s ∧
       settled (OperationAdapter.race s) = Rejected TransactionTimeout ∧
       log (OperationAdapter.race s) =
         [CallOnTransactionTimeout db7 ["users"] (Some 5000);
          CallReject TransactionTimeout;
          CallOnError (Some (DOMException "ConstraintError"));
          CallReject (DOMException "ConstraintError")] ∧
       calls is_callback (log (OperationAdapter.race s)) = 2%nat.
Proof. eexists. split; [reflexivity|]. repeat split; reflexivity. Qed.

Lemma iDBPromise_settles_once_witness :
  ∃ s, OperationAdapter.run (config_with None (Some all_events)) db7 "users"
         OperationAdapter.iDBPromise
         [OperationAdapter.RequestSuccess (VNumber 1)]
       = Some s ∧
       OperationAdapter.step (config_with None (Some all_events)) db7 "users" s
         OperationAdapter.TimerFires = None ∧
       (calls is_timeout_call (log (OperationAdapter.race s)) ≤ 1)%nat ∧
       (calls is_error_call (log (OperationAdapter.race s)) ≤ 1)%nat.
Proof.
  eexists. split; [reflexivity|].
  destruct (iDBPromise_settles_once (config_with None (Some all_events)) db7 "users"
              [OperationAdapter.RequestSuccess (VNumber 1)] _ eq_refl)
    as (_ & _ & _ & _ & _ & Htimer & Htc & Hec).
  split; [apply Htimer; reflexivity|]. split; [exact Htc | exact Hec].
Defined.

(** ** A late error *)

(** C7, counterexample.  The timer fires, the timeout callback completes and
    the promise is rejected with the timeout error; the request, which nothing
    has aborted, then fails.  Its error is not discarded in silence: the error
    callback is called with it, after the rejection. *)
Lemma late_error_is_not_silently_discarded :
  ∃ s, OperationAdapter.run (config_with None (Some all_events)) db7 "users"
         OperationAdapter.iDBPromise
         [OperationAdapter.TimerFires; OperationAdapter.Resume 0;
          OperationAdapter.RequestError "ConstraintError"]
       = Some s ∧
       settled (OperationAdapter.race s) = Rejected TransactionTimeout ∧
       log (OperationAdapter.race s) =
         [CallOnTransactionTimeout db7 ["users"] (Some 5000);
          CallReject TransactionTimeout;
          CallOnError (Some (DOMException "ConstraintError"))] ∧
       calls is_error_call (log (OperationAdapter.race s)) = 1%nat.
Proof. eexists. split; [reflexivity|]. repeat split; reflexivity. Qed.

(** ** A timeout with a callback *)

Lemma iDBPromise_timeout_calls_back_without_abort_witness :
  ∃ s1 s2,
    OperationAdapter.step (config_with None (Some all_events)) db7 "users"
      OperationAdapter.iDBPromise OperationAdapter.TimerFires = Some s1 ∧
    log (OperationAdapter.race s1) = [CallOnTransactionTimeout db7 ["users"] (Some 5000)] ∧
    settled (OperationAdapter.race s1) = Pending ∧
    OperationAdapter.request_done s1 = false ∧
    OperationAdapter.step (config_with None (Some all_events)) db7 "users" s1
      (OperationAdapter.Resume 0) = Some s2 ∧
    log (OperationAdapter.race s2) =
      [CallOnTransactionTimeout db7 ["users"] (Some 5000); CallReject TransactionTimeout] ∧
    settled (OperationAdapter.race s2) = Rejected TransactionTimeout ∧
    OperationAdapter.request_done s2 = false.
Proof.
  exact (proj1 (iDBPromise_timeout_calls_back_without_abort
                  (config_with None (Some all_events)) db7 "users"
                  (λ _ _ _, Returns tt) eq_refl eq_refl)).
Defined.

(** ** A timeout while the transaction is committing *)

(** The engine has begun to commit when the timer fires: [abort()] throws,
    the timeout callback is not called, nothing is rejected, and [complete]
    fulfils [done]. *)
Example timeout_during_commit_is_lost :
  ∃ s, TransactionCoordinator.run (config_with None (Some all_events)) db7 ["users"]
         TransactionCoordinator.transaction
         [TransactionCoordinator.CommitBegins; TransactionCoordinator.TimerFires;
          TransactionCoordinator.Complete]
       = Some s ∧
       settled (TransactionCoordinator.done s) = Fulfilled tt ∧
       log (TransactionCoordinator.done s) = [CallResolve] ∧
       TransactionCoordinator.timer s = Fired.
Proof. eexists. split; [reflexivity|]. repeat split; reflexivity. Qed.

(** ** The abort signal overtaking the timeout rejection *)

(** The timer fires first, on an active transaction; the coordinator aborts
    and waits for the timeout callback.  The engine delivers the abort it was
    asked for before the callback has completed, and the abort handler, with no
    error callback to wait for, rejects [done] with "Transaction aborted".  The
    timeout rejection comes too late. *)
Example abort_signal_overtakes_timeout_rejection :
  ∃ s, TransactionCoordinator.run (config_with None (Some timeout_events)) db7 ["users"]
         TransactionCoordinator.transaction
         [TransactionCoordinator.TimerFires; TransactionCoordinator.AbortEvent None;
          TransactionCoordinator.Resume 0]
       = Some s ∧
       settled (TransactionCoordinator.done s) = Rejected TransactionAborted ∧
       log (TransactionCoordinator.done s) =
         [CallAbort; CallOnTransactionTimeout db7 ["users"] (Some 5000);
          CallReject TransactionAborted; CallReject TransactionTimeout].
Proof. eexists. split; [reflexivity|]. split; reflexivity. Qed.

(** ** An open that succeeds while the blocked callback is pending *)

(** The open is blocked and the blocked callback is called; before it
    completes the other connection closes, the upgrade runs and the request
    succeeds: the open promise is fulfilled.  The error callback and [reject]
    come afterwards, to no effect. *)
Example success_overtakes_blocked_rejection :
  ∃ s, Lifecycle.run db7 (Lifecycle.openIndexedDB (config_with None (Some all_events)) ∅)
         [Lifecycle.Blocked 1 (Some 2); Lifecycle.UpgradeNeeded 1 (Some 2);
          Lifecycle.RequestSuccess; Lifecycle.Resume 0; Lifecycle.Resume 0]
       = Some s ∧
       settled (Lifecycle.open s) = Fulfilled db7 ∧
       log (Lifecycle.open s) =
         [CallOpen "d1" 2; CallOnBlocked 1 2; CallOnUpgradeStart 1 2;
          CreateObjectStore "users"
            (Some {| sp_keyPath := Some "id"; sp_autoIncrement := false |});
          CreateIndex "users" "by_name" "name" None; CallOnUpgradeEnd 1 2;
          CallResolve; CallOnError (Some (UpgradeBlocked "d1" 2 1));
          CallReject (UpgradeBlocked "d1" 2 1)].
Proof. eexists. split; [reflexivity|]. split; vm_compute; reflexivity. Qed.

(** The blocker closes while the blocked callback is pending: the upgrade
    runs, the open is fulfilled, and the error callback is called all the
    same. *)
Lemma blocked_open_is_fulfilled_by_a_later_success_witness :
  ∃ s1 s2 s3,
    Lifecycle.step db7 (Lifecycle.openIndexedDB (config_with None (Some blocked_events)) ∅)
      (Lifecycle.Blocked 1 (Some 2)) = Some s1 ∧
    settled (Lifecycle.open s1) = Pending ∧
    Lifecycle.run db7 s1 [Lifecycle.UpgradeNeeded 1 (Some 2); Lifecycle.RequestSuccess]
      = Some s2 ∧
    settled (Lifecycle.open s2) = Fulfilled db7 ∧
    Lifecycle.step db7 s2 (Lifecycle.Resume 0) = Some s3 ∧
    last (log (Lifecycle.open s3)) = Some (CallOnError (Some (UpgradeBlocked "d1" 2 1))) ∧
    settled (Lifecycle.open s3) = Fulfilled db7.
Proof.
  destruct (blocked_open_is_fulfilled_by_a_later_success db7
              (config_with None (Some blocked_events)) ∅ 1 (Some 2)
              (λ _ _, Returns None) None eq_refl eq_refl)
    as (s1 & Hstep & _ & Hpending & _ & Hlater).
  destruct (Hlater [Lifecycle.UpgradeNeeded 1 (Some 2)])
    as (s2 & s3 & l & Hrun & Hset & _ & Hresume & Hlog & Hfinal).
  - repeat constructor. by exists 1, (Some 2).
  - exists s1, s2, s3. split; [exact Hstep|]. split; [exact Hpending|].
    split; [exact Hrun|]. split; [exact Hset|]. split; [exact Hresume|]. split.
    + rewrite Hlog. change [CallResolve; ?x] with ([CallResolve] ++ [x]).
      by rewrite app_assoc, last_snoc.
    + apply (Hfinal [Lifecycle.Resume 0]). cbn [Lifecycle.run]. by rewrite Hresume.
Defined.

Lemma onblocked_rejects_witness :
  ∃ s1, Lifecycle.step db7 (Lifecycle.openIndexedDB (config_with None (Some all_events)) ∅)
          (Lifecycle.Blocked 1 None) = Some s1 ∧
    settled (Lifecycle.open (settle_down db7 2 s1)) = Rejected (UpgradeBlocked "d1" 2 1) ∧
    log (Lifecycle.open (settle_down db7 2 s1)) =
      [CallOpen "d1" 2; CallOnBlocked 1 2; CallOnError (Some (UpgradeBlocked "d1" 2 1));
       CallReject (UpgradeBlocked "d1" 2 1)].
Proof.
  destruct (onblocked_rejects db7 (config_with None (Some all_events)) ∅ 1 None)
    as (s1 & Hstep & Hset & _ & Hlog & _).
  - intros cb [= <-]. by eexists.
  - intros cb [= <-]. by eexists.
  - exists s1. split; [exact Hstep|]. split; [exact Hset | exact Hlog].
Defined.

(** ** An open that needs no upgrade *)

(** C10, counterexample.  The database is already at the configured version:
    only [success] is signalled, no upgrade runs, and the [migrations] array
    the caller passed out of order is left as it was. *)
Lemma migrations_unsorted_without_upgrade :
  ∃ s, Lifecycle.run db7
         (Lifecycle.openIndexedDB
            (config_with (Some [creates 2 "b"; creates 1 "a"]) None) users_structure)
         [Lifecycle.RequestSuccess]
       = Some s ∧
       settled (Lifecycle.open s) = Fulfilled db7 ∧
       (λ ms : list Migration, version <$> ms) <$> cfg_migrations (Lifecycle.config s) = Some [2; 1].
Proof. eexists. split; [reflexivity|]. split; reflexivity. Qed.

Lemma openIndexedDB_mutates_config_witness :
  ∃ s, Lifecycle.run db7
         (Lifecycle.openIndexedDB
            {| cfg_name := "d1"; cfg_version := 2; cfg_stores := [users_store];
               cfg_migrations := Some [creates 2 "b"; creates 1 "a"];
               cfg_transactionTimeout := None; cfg_events := None |} ∅)
         [Lifecycle.UpgradeNeeded 0 (Some 2); Lifecycle.RequestSuccess]
       = Some s ∧
       cfg_transactionTimeout (Lifecycle.config s) = Some 5000 ∧
       cfg_stores (Lifecycle.config s) = [users_store] ∧
       (λ ms : list Migration, version <$> ms) <$> cfg_migrations (Lifecycle.config s) = Some [1; 2].
Proof.
  eexists. split; [reflexivity|].
  destruct (openIndexedDB_mutates_config db7
              {| cfg_name := "d1"; cfg_version := 2; cfg_stores := [users_store];
                 cfg_migrations := Some [creates 2 "b"; creates 1 "a"];
                 cfg_transactionTimeout := None; cfg_events := None |} ∅
              [Lifecycle.UpgradeNeeded 0 (Some 2); Lifecycle.RequestSuccess] _ eq_refl)
    as ((_ & _ & Hstores & _) & Htimeout & _ & _ & Hsorted & _).
  split; [exact Htimeout|]. split; [exact Hstores|].
  rewrite Hsorted; [reflexivity | by intros cb o n [=] | ].
  exists 0, (Some 2). by left.
Defined.

(** ** Further properties, on concrete inputs *)

(** The stale structure of the examples, synchronised twice: the second pass
    changes nothing. *)
Lemma synchronize_idempotent_witness :
  ∃ w', synchronize [users_store; orders_store] stale_world = (Returns tt, w') ∧
        synchronize [users_store; orders_store] w' = (Returns tt, w').
Proof.
  assert (Hnd : NoDup (store_name <$> [users_store; orders_store])).
  { apply (bool_decide_unpack _). vm_compute. exact I. }
  destruct (proj2 (synchronize_idempotent [users_store; orders_store] stale_world) Hnd)
    as (w' & Hfirst & _ & Hsecond).
  exists w'. split; [exact Hfirst | exact Hsecond].
Defined.

(** From version 0 to 2 by way of 1. *)
Lemma migrations_compose_witness :
  chosen 0 2 [creates 2 "b"; creates 1 "a"] =
  chosen 0 1 [creates 2 "b"; creates 1 "a"] ++ chosen 1 2 [creates 2 "b"; creates 1 "a"].
Proof. apply migrations_compose; lia. Defined.

(** An upgrade whose start callback throws. *)
Lemma upgrade_start_failure_changes_nothing_witness :
  onupgradeneeded (config_with (Some [creates 2 "b"; creates 1 "a"]) (Some failing_events))
    {| ev_oldVersion := 0; ev_newVersion := None |} empty_world =
  (config_with (Some [creates 2 "b"; creates 1 "a"]) (Some failing_events),
   (Throws (UserError "start"), {| w_db := ∅; w_log := [CallOnUpgradeStart 0 2] |})).
Proof.
  exact (upgrade_start_failure_changes_nothing
           (config_with (Some [creates 2 "b"; creates 1 "a"]) (Some failing_events))
           {| ev_oldVersion := 0; ev_newVersion := None |} empty_world
           (λ _ _, Throws (UserError "start")) (UserError "start") eq_refl eq_refl).
Defined.

(** A success that arrives while the timeout callback is running. *)
Lemma iDBPromise_success_is_final_witness :
  ∃ s', OperationAdapter.step (config_with None (Some all_events)) db7 "users" timed_out
          (OperationAdapter.RequestSuccess (VNumber 1)) = Some s' ∧
        settled (OperationAdapter.race s') = Fulfilled (VNumber 1) ∧
        log (OperationAdapter.race s') =
          [CallOnTransactionTimeout db7 ["users"] (Some 5000); CallResolve].
Proof.
  destruct (iDBPromise_success_is_final (config_with None (Some all_events)) db7 "users"
              timed_out (VNumber 1) eq_refl eq_refl)
    as (s' & Hstep & Hset & Hlog & _).
  exists s'. split; [exact Hstep|]. split; [exact Hset | exact Hlog].
Defined.

Lemma transaction_complete_is_final_witness :
  ∃ s', TransactionCoordinator.step (config_with None (Some all_events)) db7 ["users"]
          TransactionCoordinator.transaction TransactionCoordinator.Complete = Some s' ∧
        settled (TransactionCoordinator.done s') = Fulfilled tt ∧
        TransactionCoordinator.step (config_with None (Some all_events)) db7 ["users"]
          s' TransactionCoordinator.TimerFires = None.
Proof.
  destruct (transaction_complete_is_final (config_with None (Some all_events)) db7 ["users"]
              TransactionCoordinator.transaction eq_refl eq_refl)
    as (s' & Hstep & Hset & _ & Htimer & _).
  exists s'. split; [exact Hstep|]. split; [exact Hset | exact Htimer].
Defined.

(** The abort a timeout has asked for: the error callback is called too, with
    [null]. *)
Lemma transaction_abort_reports_transaction_error_witness :
  ∃ s', TransactionCoordinator.step (config_with None (Some all_events)) db7 ["users"]
          aborting (TransactionCoordinator.AbortEvent None) = Some s' ∧
        TransactionCoordinator.finished s' = true ∧
        log (TransactionCoordinator.done s') =
          [CallAbort; CallOnTransactionTimeout db7 ["users"] (Some 5000); CallOnError None].
Proof.
  destruct (transaction_abort_reports_transaction_error
              (config_with None (Some all_events)) db7 ["users"] aborting None)
    as (s' & Hstep & Hfin & _ & _ & Hlog & _).
  - discriminate.
  - exists s'. split; [exact Hstep|]. split; [exact Hfin | exact Hlog].
Defined.

(** A failed request without an error callback: [done] is rejected either
    way, with the error the first [reject] finds. *)
Lemma transaction_request_error_is_reported_twice_witness :
  (∃ s, TransactionCoordinator.run (config_with None (Some timeout_events)) db7 ["users"]
          TransactionCoordinator.transaction
          [TransactionCoordinator.ErrorEvent; TransactionCoordinator.Resume 0;
           TransactionCoordinator.AbortEvent (Some "ConstraintError")] = Some s ∧
        settled (TransactionCoordinator.done s) = Rejected TransactionAborted) ∧
  (∃ s, TransactionCoordinator.run (config_with None (Some timeout_events)) db7 ["users"]
          TransactionCoordinator.transaction
          [TransactionCoordinator.ErrorEvent;
           TransactionCoordinator.AbortEvent (Some "ConstraintError");
           TransactionCoordinator.Resume 0] = Some s ∧
        settled (TransactionCoordinator.done s) = Rejected (DOMException "ConstraintError")).
Proof.
  destruct (proj2 (transaction_request_error_is_reported_twice
                     (config_with None (Some timeout_events)) db7 ["users"]
                     "ConstraintError") eq_refl)
    as [(s & Hrun & _ & Hset & _) (s' & Hrun' & _ & Hset' & _)].
  split; [exists s | exists s']; by split.
Defined.

(** A version change whose event carries no new version. *)
Lemma versionchange_closes_the_connection_witness :
  ∃ s' s'', Lifecycle.step db7 opened_connection (Lifecycle.VersionChange 2 None) = Some s' ∧
        log (Lifecycle.open s') = [CallOpen "d1" 2; CallResolve; CallOnVersionChange 2 2] ∧
        Lifecycle.step db7 s' (Lifecycle.Resume 0) = Some s'' ∧
        log (Lifecycle.open s'') =
          [CallOpen "d1" 2; CallResolve; CallOnVersionChange 2 2; CallClose].
Proof.
  destruct (versionchange_closes_the_connection db7 opened_connection 2 None eq_refl)
    as (s' & Hstep & _ & _ & Hlog & _ & s'' & Hresume & Hclose & _).
  exists s', s''. split; [exact Hstep|]. split; [exact Hlog|]. split; [exact Hresume|].
  rewrite Hclose, Hlog. reflexivity.
Defined.

Lemma blocked_callback_failure_leaves_the_open_pending_witness :
  ∃ s s', Lifecycle.step db7 (Lifecycle.openIndexedDB (config_with None (Some failing_events)) ∅)
            (Lifecycle.Blocked 1 None) = Some s ∧
          settled (Lifecycle.open s) = Pending ∧
          log (Lifecycle.open s) = [CallOpen "d1" 2; CallOnBlocked 1 2] ∧
          Lifecycle.step db7 s Lifecycle.RequestSuccess = Some s' ∧
          settled (Lifecycle.open s') = Fulfilled db7.
Proof.
  destruct (blocked_callback_failure_leaves_the_open_pending db7
              (config_with None (Some failing_events)) ∅ 1 None
              (λ _ _, Throws (UserError "blocked")) (UserError "blocked") eq_refl eq_refl)
    as (s & Hstep & Hset & _ & Hlog & s' & Hsuccess & Hopen).
  exists s, s'. repeat (split; [assumption|]). exact Hopen.
Defined.

(** An upgrade whose only migration throws: the open is fulfilled all the
    same, and the error callback is not called. *)
Lemma failed_upgrade_is_not_reported_witness :
  ∃ s' s'', Lifecycle.step db7
              (Lifecycle.openIndexedDB (config_with (Some [fails 1]) (Some all_events)) ∅)
              (Lifecycle.UpgradeNeeded 0 (Some 2)) = Some s' ∧
            log (Lifecycle.open s') =
              [CallOpen "d1" 2; CallOnUpgradeStart 0 2; CallMigration 0 2 1] ∧
            Lifecycle.step db7 s' Lifecycle.RequestSuccess = Some s'' ∧
            settled (Lifecycle.open s'') = Fulfilled db7.
Proof.
  destruct (failed_upgrade_is_not_reported db7
              (Lifecycle.openIndexedDB (config_with (Some [fails 1]) (Some all_events)) ∅)
              0 (Some 2) eq_refl)
    as (s' & Hstep & _ & _ & _ & s'' & Hsuccess & Hopen).
  exists s', s''. split; [exact Hstep|]. split.
  - injection Hstep as <-. reflexivity.
  - split; [exact Hsuccess | exact (Hopen eq_refl)].
Defined.

Lemma connection_closed_on_versionchange_only_witness :
  ∃ s, Lifecycle.run db7 (Lifecycle.openIndexedDB (config_with None (Some all_events))
                            users_structure)
         [Lifecycle.RequestSuccess; Lifecycle.VersionChange 2 (Some 3); Lifecycle.Resume 0]
       = Some s ∧
       (closes s ≤ 1)%nat ∧ CallClose ∈ log (Lifecycle.open s).
Proof.
  eexists. split; [reflexivity|].
  split.
  - exact (proj1 (connection_closed_on_versionchange_only db7
                    (config_with None (Some all_events)) users_structure
                    [Lifecycle.RequestSuccess; Lifecycle.VersionChange 2 (Some 3);
                     Lifecycle.Resume 0] _ eq_refl)).
  - simpl. repeat (first [by left | right]).
Defined.

(** Two stores configured, one of them missing from the database: the first
    is cleared, the second is refused, and the promise is rejected. *)
Lemma clearDatabase_is_sequential_witness :
  ∃ s, DatabaseClearing.run two_stores db7 false users_structure
         (DatabaseClearing.clearDatabase two_stores false users_structure)
         [DatabaseClearing.Operation 0 (OperationAdapter.RequestSuccess VUndefined)]
       = Some s ∧
       DatabaseClearing.cleared s = Rejected (DOMException "NotFoundError") ∧
       fst <$> DatabaseClearing.issued s = ["users"] ∧
       Forall fulfilled (DatabaseClearing.issued s).
Proof.
  eexists. split; [reflexivity|]. split; [reflexivity|]. split; [reflexivity|].
  destruct (clearDatabase_is_sequential two_stores db7 false users_structure
              [DatabaseClearing.Operation 0 (OperationAdapter.RequestSuccess VUndefined)]
              _ eq_refl) as (_ & _ & _ & _ & Hrej & _).
  destruct (Hrej _ eq_refl) as [(op & Hlast & Hop) | (name & _ & _ & Hall)].
  - injection Hlast as <-. discriminate Hop.
  - exact Hall.
Defined.

Lemma clearDatabase_clears_every_store_witness :
  ∃ s, DatabaseClearing.run two_stores db7 false both_stores
         (DatabaseClearing.clearDatabase two_stores false both_stores) (successes 0 2)
       = Some s ∧
       DatabaseClearing.cleared s = Fulfilled tt ∧
       fst <$> DatabaseClearing.issued s = ["users"; "orders"].
Proof.
  destruct (clearDatabase_clears_every_store two_stores db7 false both_stores eq_refl)
    as (s & Hrun & Hcleared & Hnames & _).
  - intros store Hin. apply (bool_decide_unpack _).
    apply elem_of_cons in Hin as [->|Hin]; [vm_compute; exact I|].
    apply list_elem_of_singleton in Hin as ->. vm_compute. exact I.
  - exists s. split; [exact Hrun|]. split; [exact Hcleared | exact Hnames].
Defined.

(** A delete that other connections block. *)
Lemma deleteDatabase_closes_first_and_never_times_out_witness :
  ∃ s, DatabaseDeletion.run (config_with None (Some all_events))
         (DatabaseDeletion.deleteDatabase (config_with None (Some all_events)))
         [DatabaseDeletion.Blocked; DatabaseDeletion.Blocked] = Some s ∧
       DatabaseDeletion.target s = "d1" ∧
       settled (DatabaseDeletion.deleted s) = Pending ∧
       log (DatabaseDeletion.deleted s) = [CallClose].
Proof.
  eexists. split; [reflexivity|].
  destruct (deleteDatabase_closes_first_and_never_times_out
              (config_with None (Some all_events))
              [DatabaseDeletion.Blocked; DatabaseDeletion.Blocked] _ eq_refl)
    as (Htarget & _ & _ & Hblocked).
  split; [exact Htarget|]. apply Hblocked. repeat constructor.
Defined.

(** A walk over three records, the second of which the transform drops. *)
Lemma cursor_advances_once_per_record_witness :
  ∃ s, CursorAdapter.run (config_with None None) Z (λ z, VNumber z)
         CursorAdapter.iDBCursorPromise
         [CursorAdapter.RequestSuccess Z (Some 4); CursorAdapter.RequestSuccess Z (Some 0);
          CursorAdapter.RequestSuccess Z (Some 7); CursorAdapter.RequestSuccess Z None]
       = Some s ∧
       calls is_continue (log (CursorAdapter.race s)) = 3%nat ∧
       settled (CursorAdapter.race s) = Fulfilled [VNumber 4; VNumber 7].
Proof.
  eexists. split; [reflexivity|]. split; [|reflexivity].
  exact (proj1 (cursor_advances_once_per_record (config_with None None) (λ z, VNumber z)
                  [CursorAdapter.RequestSuccess Z (Some 4); CursorAdapter.RequestSuccess Z (Some 0);
                   CursorAdapter.RequestSuccess Z (Some 7); CursorAdapter.RequestSuccess Z None]
                  _ eq_refl)).
Defined.

(** A blocked open, rejected, that succeeds afterwards. *)
Lemma rejected_open_still_opens_the_connection_witness :
  ∃ s', Lifecycle.step db7
          (settle_down db7 2
             (Lifecycle.onblocked 1 None
                (Lifecycle.openIndexedDB (config_with None (Some all_events)) ∅)))
          Lifecycle.RequestSuccess = Some s' ∧
        settled (Lifecycle.open s') = Rejected (UpgradeBlocked "d1" 2 1) ∧
        Lifecycle.opened s' = true.
Proof.
  destruct (rejected_open_still_opens_the_connection db7
              (settle_down db7 2
                 (Lifecycle.onblocked 1 None
                    (Lifecycle.openIndexedDB (config_with None (Some all_events)) ∅)))
              (UpgradeBlocked "d1" 2 1) eq_refl eq_refl)
    as (s' & Hstep & Hset & Hopened & _).
  exists s'. split; [exact Hstep|]. split; [exact Hset | exact Hopened].
Defined.

(** An open on the stale structure of the examples: the upgrade leaves the
    configured store, and nothing of the legacy one. *)
Lemma open_synchronises_the_schema_witness :
  ∃ s, Lifecycle.run db7
         (Lifecycle.openIndexedDB (config_with None None) (w_db stale_world))
         [Lifecycle.UpgradeNeeded 1 None; Lifecycle.RequestSuccess] = Some s ∧
       settled (Lifecycle.open s) = Fulfilled db7 ∧
       is_Some (Lifecycle.db s !! "users") ∧
       ¬ is_Some (Lifecycle.db s !! "legacy").
Proof.
  destruct (open_synchronises_the_schema db7 (config_with None None)
              (w_db stale_world) 1 None eq_refl)
    as (s & Hrun & Hset & Hdom & _).
  - apply (bool_decide_unpack _). vm_compute. exact I.
  - reflexivity.
  - exists s. split; [exact Hrun|]. split; [exact Hset|]. split.
    + apply Hdom. apply (bool_decide_unpack _). vm_compute. exact I.
    + rewrite Hdom. apply (bool_decide_unpack _). vm_compute. exact I.
Defined.

